(** * Market-data simulation and charting engine (ashen0307/trading)

    Shallow embedding of the tick generator and candle aggregator
    (src/StatsBar.tsx, application part: [tickCandles] and the TICK case of
    [appReducer]), the indicator library (src/CandleChart.tsx: [calcSMA],
    [calcEMA], [calcBollinger], [calcRSI]) and the viewport engine
    (src/CandleChart.tsx: scroll offset, visible slice, [priceToY] and
    [yToPrice]).

    JavaScript numbers are IEEE 754 binary64 values: they are modelled by
    Rocq's primitive floats, whose operations are the same correctly
    rounded binary64 operations.  The code is written once over a small
    interface of number operations ([JsNum]); the instance [float_num] is
    the program as it runs, the instance [Q_num] is the same program
    evaluated in exact rational arithmetic, used where a statement is
    about the arithmetic before rounding.

    The second half of the development covers more of the two files: the
    minimap, the layout and the crosshair of the chart, [seedCandles],
    [createInitialState], the whole of [appReducer] with the settlement of
    trades, the handlers that dispatch its actions, the statistics bar and
    the countdown. *)

From Stdlib Require Import String.
From Stdlib Require Import ZArith List Bool Lia Sorted.
From Stdlib Require Import QArith Qminmax Qabs Qround Lqa.
From Stdlib Require Import Floats Uint63.
Import ListNotations.

(** ** Numbers *)

Declare Scope js_scope.
Delimit Scope js_scope with js.

(** The operations of a JavaScript number that the engine uses. *)
Class JsNum (N : Type) : Type := {
  nadd : N -> N -> N;
  nsub : N -> N -> N;
  nmul : N -> N -> N;
  ndiv : N -> N -> N;
  nlt : N -> N -> bool;          (* a < b *)
  nle : N -> N -> bool;          (* a <= b *)
  nseq : N -> N -> bool;         (* a === b *)
  nabs : N -> N;                 (* Math.abs *)
  nmax : N -> N -> N;            (* Math.max *)
  nmin : N -> N -> N;            (* Math.min *)
  nisFinite : N -> bool;         (* Number.isFinite *)
  nofZ : Z -> N;                 (* an integer used as a number *)
  nlit : Q -> N;                 (* a decimal literal of the source *)
  nundef : N                     (* ToNumber(undefined), i.e. NaN *)
}.

Notation "x + y" := (nadd x y) : js_scope.
Notation "x - y" := (nsub x y) : js_scope.
Notation "x * y" := (nmul x y) : js_scope.
Notation "x / y" := (ndiv x y) : js_scope.
Notation "x <? y" := (nlt x y) : js_scope.
Notation "x <=? y" := (nle x y) : js_scope.
Notation "x === y" := (nseq x y) (at level 70, no associativity) : js_scope.

(** *** binary64 *)

Module F64.

(** An integer as a binary64 number (exact below 2^53, the range of array
    lengths, indices and periods). *)
Definition of_Z (z : Z) : float :=
  match z with
  | Z0 => PrimFloat.zero
  | Zpos _ => PrimFloat.of_uint63 (Uint63.of_Z z)
  | Zneg p => PrimFloat.opp (PrimFloat.of_uint63 (Uint63.of_Z (Zpos p)))
  end.

(** A decimal literal [n/d]: the binary64 number nearest to it, which the
    correctly rounded division of the two integers yields. *)
Definition lit (q : Q) : float :=
  PrimFloat.div (of_Z (Qnum q)) (of_Z (Zpos (Qden q))).

(** Math.max: NaN if either argument is NaN, and +0 is larger than -0. *)
Definition max (a b : float) : float :=
  if PrimFloat.is_nan a || PrimFloat.is_nan b then PrimFloat.nan
  else if PrimFloat.ltb a b then b
  else if PrimFloat.ltb b a then a
  else if PrimFloat.get_sign a then b else a.

(** Math.min: NaN if either argument is NaN, and -0 is smaller than +0. *)
Definition min (a b : float) : float :=
  if PrimFloat.is_nan a || PrimFloat.is_nan b then PrimFloat.nan
  else if PrimFloat.ltb a b then a
  else if PrimFloat.ltb b a then b
  else if PrimFloat.get_sign a then a else b.

End F64.

#[export] Instance float_num : JsNum float := {
  nadd := PrimFloat.add;
  nsub := PrimFloat.sub;
  nmul := PrimFloat.mul;
  ndiv := PrimFloat.div;
  nlt := PrimFloat.ltb;
  nle := PrimFloat.leb;
  nseq := PrimFloat.eqb;
  nabs := PrimFloat.abs;
  nmax := F64.max;
  nmin := F64.min;
  nisFinite := PrimFloat.is_finite;
  nofZ := F64.of_Z;
  nlit := F64.lit;
  nundef := PrimFloat.nan
}.

(** *** Exact rationals

    The same operations without rounding.  There is no NaN and no
    infinity: [nundef] is only there to make the instance total and the
    theorems stated at this instance are on inputs where the code reads no
    missing array element and divides by no zero. *)
#[export] Instance Q_num : JsNum Q := {
  nadd := Qplus;
  nsub := Qminus;
  nmul := Qmult;
  ndiv := Qdiv;
  nlt := fun a b => negb (Qle_bool b a);
  nle := Qle_bool;
  nseq := Qeq_bool;
  nabs := Qabs;
  nmax := Qmax;
  nmin := Qmin;
  nisFinite := fun _ => true;
  nofZ := inject_Z;
  nlit := fun q => q;
  nundef := 0%Q
}.

(** ** Candles and the candle aggregator (src/StatsBar.tsx) *)

(** [interface Candle].  [time] is a bucket start in integer milliseconds
    (a value of [Date.now()] rounded down to a multiple of the period), so
    it is an integer here; the four prices are numbers. *)
Record Candle (N : Type) : Type := mkCandle {
  time : Z;
  open : N;
  high : N;
  low : N;
  close : N
}.

Arguments mkCandle {N}.
Arguments time {N}.
Arguments open {N}.
Arguments high {N}.
Arguments low {N}.
Arguments close {N}.

Section Aggregator.
Context {N : Type} `{JsNum N}.

(** [arr[arr.length - 1]], [undefined] on an empty array. *)
Definition last_candle (arr : list (Candle N)) : option (Candle N) :=
  nth_error arr (length arr - 1).

(** [arr[i] = c] for an index inside the array. *)
Fixpoint set_nth (arr : list (Candle N)) (i : nat) (c : Candle N)
  : list (Candle N) :=
  match arr, i with
  | [], _ => []
  | _ :: t, O => c :: t
  | h :: t, S j => h :: set_nth t j c
  end.

(** [arr.slice(-n)]: the last [n] elements. *)
Definition slice_last (n : nat) (arr : list (Candle N)) : list (Candle N) :=
  skipn (length arr - n) arr.

(** [Math.floor(now / pMs) * pMs] on integer milliseconds.  [Z.div] rounds
    down as [Math.floor] does; for the period 0, where JavaScript yields
    NaN, the integer model does not apply, and the statements on buckets
    are for a period that is not zero. *)
Definition bucket_of (periodSec now : Z) : Z :=
  let pMs := (periodSec * 1000)%Z in
  (now / pMs * pMs)%Z.

(** [tickCandles(candles, periodSec, newPrice, now)], in two parts: the
    array [arr] after the update or the push, and the value returned. *)
Definition tick_update (candles : list (Candle N)) (periodSec : Z)
  (newPrice : N) (now : Z) : list (Candle N) :=
  let bucket := bucket_of periodSec now in
  match last_candle candles with
  | Some last =>
      if (time last =? bucket)%Z then
        set_nth candles (length candles - 1)
          (mkCandle (time last) (open last)
             (nmax (high last) newPrice) (nmin (low last) newPrice) newPrice)
      else
        candles ++ [mkCandle bucket (close last) newPrice newPrice newPrice]
  | None =>
      candles ++ [mkCandle bucket newPrice newPrice newPrice newPrice]
  end.

Definition tickCandles (candles : list (Candle N)) (periodSec : Z)
  (newPrice : N) (now : Z) : list (Candle N) :=
  let arr := tick_update candles periodSec newPrice now in
  if (500 <? length arr)%nat then slice_last 500 arr else arr.

(** The aggregator run over a sequence of ticks [(now, price)], oldest
    first, as the TICK action does for one timeframe. *)
Definition runTicks (periodSec : Z) (candles : list (Candle N))
  (ticks : list (Z * N)) : list (Candle N) :=
  fold_left (fun s t => tickCandles s periodSec (snd t) (fst t)) ticks candles.

(** The OHLC invariant of one candle, with the comparisons of the number
    type: low <= min(open, close) and max(open, close) <= high. *)
Definition candle_ok (c : Candle N) : bool :=
  (low c <=? nmin (open c) (close c))%js && (nmax (open c) (close c) <=? high c)%js.

(** The bucket starts of a series, oldest first. *)
Definition times (s : list (Candle N)) : list Z := map time s.

End Aggregator.

(** [adjacent R l]: every two neighbours [a, b] of [l] satisfy [R a b]. *)
Fixpoint adjacent (R : Z -> Z -> Prop) (l : list Z) : Prop :=
  match l with
  | [] => True
  | a :: t =>
      match t with
      | [] => True
      | b :: _ => R a b /\ adjacent R t
      end
  end.

(** A series of 500 one-minute candles at the price 1, and the candle a
    tick in the next minute adds. *)
Definition full_series : list (Candle float) :=
  map (fun k => mkCandle (Z.of_nat k * 60000)%Z 1%float 1%float 1%float 1%float)
    (seq 0 500).

(** ** The tick generator (src/StatsBar.tsx, TICK case of [appReducer]) *)

Section TickGenerator.
Context {N : Type} `{JsNum N}.

(** One step for one asset; [u] is the value of [Math.random()]. *)
Definition nextPrice (prev u : N) : N :=
  let shock := ((u - nlit (5 # 10)) * nofZ 2 * nlit (8 # 10000))%js in
  let nextPrice := (prev * (nofZ 1 + shock))%js in
  if negb (nisFinite nextPrice) || (nextPrice <=? nofZ 0)%js then prev
  else nextPrice.

End TickGenerator.

(** ** The indicator library (src/CandleChart.tsx)

    Indices, lengths and periods are integers; they become numbers where
    they meet a price.  A result is a list of [option]: [None] is the
    [null] entry. *)

(** The values [a, a+1, ..., b] of the variable of
    [for (let i = a; i <= b; i++)]. *)
Definition range_incl (a b : Z) : list Z :=
  map (fun k => (a + Z.of_nat k)%Z) (seq 0 (Z.to_nat (b - a + 1))).

(** A [for] loop that updates the state [s]. *)
Definition for_loop {S : Type} (a b : Z) (body : Z -> S -> S) (s : S) : S :=
  fold_left (fun s i => body i s) (range_incl a b) s.

(** An entry that is a number, not the [null] sentinel. *)
Definition is_number {X : Type} (o : option X) : Prop := o <> None.

Section Indicators.
Context {N : Type} `{JsNum N}.

(** [data[j]] used as a number: outside the array it is [undefined]. *)
Definition get (data : list N) (j : Z) : N :=
  if (j <? 0)%Z then nundef else nth (Z.to_nat j) data nundef.

(** [data.length]. *)
Definition len (data : list N) : Z := Z.of_nat (length data).

(** [let s = 0; for (let j = i - period + 1; j <= i; j++) s += data[j]]. *)
Definition window_sum (data : list N) (period i : Z) : N :=
  for_loop (i - period + 1) i (fun j s => (s + get data j)%js) (nofZ 0).

(** [calcSMA(data, period)]. *)
Definition calcSMA (data : list N) (period : Z) : list (option N) :=
  for_loop 0 (len data - 1)
    (fun i r =>
       if (i <? period - 1)%Z then r ++ [None]
       else r ++ [Some (window_sum data period i / nofZ period)%js])
    [].

(** [calcEMA(data, period)]; the loop state is [(r, ema)]. *)
Definition calcEMA (data : list N) (period : Z) : list (option N) :=
  let k := (nofZ 2 / nofZ (period + 1))%js in
  fst (for_loop 0 (len data - 1)
    (fun i (st : list (option N) * option N) =>
       let (r, ema) := st in
       if (i <? period - 1)%Z then (r ++ [None], ema)
       else
         let ema' :=
           match ema with
           | None => (window_sum data period i / nofZ period)%js
           | Some e => (get data i * k + e * (nofZ 1 - k))%js
           end in
         (r ++ [Some ema'], Some ema'))
    ([], None)).

(** [calcRSI(data, period)]; the state of the seeding loop is [(ag, al)],
    the state of the main loop is [(r, ag, al)]. *)
Definition rsi_value (ag al : N) : N :=
  let rs := if (al === nofZ 0)%js then nofZ 100 else (ag / al)%js in
  (nofZ 100 - nofZ 100 / (nofZ 1 + rs))%js.

Definition rsi_seed (data : list N) (period : Z) : N * N :=
  let (ag, al) :=
    for_loop 1 period
      (fun i (st : N * N) =>
         let (ag, al) := st in
         let d := (get data i - get data (i - 1))%js in
         if (nofZ 0 <? d)%js then ((ag + d)%js, al)
         else (ag, (al + nabs d)%js))
      (nofZ 0, nofZ 0) in
  ((ag / nofZ period)%js, (al / nofZ period)%js).

Definition rsi_step (data : list N) (period i : Z)
  (st : list (option N) * N * N) : list (option N) * N * N :=
  let '(r, ag, al) := st in
  if (i <? period)%Z then (r ++ [None], ag, al)
  else if (i =? period)%Z then (r ++ [Some (rsi_value ag al)], ag, al)
  else
    let d := (get data i - get data (i - 1))%js in
    let g := if (nofZ 0 <? d)%js then d else nofZ 0 in
    let l := if (d <? nofZ 0)%js then nabs d else nofZ 0 in
    let ag' := ((ag * nofZ (period - 1) + g) / nofZ period)%js in
    let al' := ((al * nofZ (period - 1) + l) / nofZ period)%js in
    (r ++ [Some (rsi_value ag' al')], ag', al').

Definition calcRSI (data : list N) (period : Z) : list (option N) :=
  if (len data <? period + 1)%Z then map (fun _ => None) data
  else
    let (ag, al) := rsi_seed data period in
    fst (fst (for_loop 0 (len data - 1) (rsi_step data period) ([], ag, al))).

End Indicators.

(** [calcBollinger(data, period, mult)] needs [Math.sqrt], which exists on
    binary64 numbers only; [x ** 2] is the product [x * x]. *)
Record Bollinger : Type := mkBollinger {
  mid : list (option float);
  upper : list (option float);
  lower : list (option float)
}.

(** [mid[i]]: an entry of the array, [undefined] (not [null], a NaN in
    arithmetic) outside it. *)
Definition entry (r : list (option float)) (i : Z) : option float :=
  if (i <? 0)%Z then Some PrimFloat.nan
  else nth (Z.to_nat i) r (Some PrimFloat.nan).

Definition calcBollinger (data : list float) (period : Z) (mult : float)
  : Bollinger :=
  let mid := calcSMA data period in
  let bands :=
    for_loop 0 (len data - 1)
      (fun i (st : list (option float) * list (option float)) =>
         let (upper, lower) := st in
         match entry mid i with
         | None => (upper ++ [None], lower ++ [None])
         | Some m =>
             let v :=
               for_loop (i - period + 1) i
                 (fun j v => (v + (get data j - m) * (get data j - m))%float)
                 0%float in
             let std := PrimFloat.sqrt (v / F64.of_Z period)%float in
             (upper ++ [Some (m + mult * std)%float],
              lower ++ [Some (m - mult * std)%float])
         end)
      ([], []) in
  mkBollinger mid (fst bands) (snd bands).

(** ** The viewport engine (src/CandleChart.tsx) *)

Definition ZOOM_LEVELS : list Z := [20; 30; 50; 70; 100; 140; 200]%Z.

(** [ZOOM_LEVELS[zoomIndex]]. *)
Definition visibleCount (zoomIndex : nat) : option Z :=
  nth_error ZOOM_LEVELS zoomIndex.

(** [Array.prototype.slice(start, end)] with its treatment of negative and
    too large indices. *)
Definition js_slice {A : Type} (arr : list A) (startIdx endIdx : Z) : list A :=
  let n := Z.of_nat (length arr) in
  let rel (k : Z) := if (k <? 0)%Z then Z.max (n + k) 0 else Z.min k n in
  let from := rel startIdx in
  let to := rel endIdx in
  firstn (Z.to_nat (Z.max (to - from) 0)) (skipn (Z.to_nat from) arr).

Section Viewport.
Context {A : Type}.

Definition maxOffset (totalCandles visibleCount : Z) : Z :=
  Z.max 0 (totalCandles - visibleCount).

Definition clampedOffset (scrollOffset maxOffset : Z) : Z :=
  Z.min scrollOffset maxOffset.

Definition isAtLatest (clampedOffset : Z) : bool := (clampedOffset =? 0)%Z.

Definition displayCandles (candles : list A) (visibleCount clampedOffset : Z)
  : list A :=
  let totalCandles := Z.of_nat (length candles) in
  let endIdx := (totalCandles - clampedOffset)%Z in
  let startIdx := Z.max 0 (endIdx - visibleCount) in
  js_slice candles startIdx endIdx.

End Viewport.

(** The navigation state and its operations.  Each operation runs against
    the [maxOffset] of the render it was created in. *)
Record NavState : Type := mkNav { zoomIndex : nat; scrollOffset : Z }.

Inductive NavAction : Type :=
| ScrollBy (delta : Z)
| GoToLatest
| GoToOldest
| Drag (startOffset candlesDragged : Z)
| ZoomIn
| ZoomOut
| SetTimeframe.

Definition scrollBy (maxOffset delta prev : Z) : Z :=
  Z.max 0 (Z.min maxOffset (prev + delta)).

Definition handleZoomIn (i : nat) : nat := Nat.max 0 (i - 1).

Definition handleZoomOut (i : nat) : nat :=
  Nat.min (length ZOOM_LEVELS - 1) (i + 1).

Definition nav (maxOffset : Z) (a : NavAction) (s : NavState) : NavState :=
  match a with
  | ScrollBy delta => mkNav (zoomIndex s) (scrollBy maxOffset delta (scrollOffset s))
  | GoToLatest => mkNav (zoomIndex s) 0
  | GoToOldest => mkNav (zoomIndex s) maxOffset
  | Drag startOffset candlesDragged =>
      mkNav (zoomIndex s) (Z.max 0 (Z.min maxOffset (startOffset + candlesDragged)))
  | ZoomIn => mkNav (handleZoomIn (zoomIndex s)) (scrollOffset s)
  | ZoomOut => mkNav (handleZoomOut (zoomIndex s)) (scrollOffset s)
  | SetTimeframe => mkNav (zoomIndex s) 0
  end.

(** The states the chart can be in: it starts at [useState(4)] and
    [useState(0)], and every action runs with the [maxOffset] of some
    series length and the current zoom level. *)
Inductive reachable : NavState -> Prop :=
| reach_init : reachable (mkNav 4 0)
| reach_step s a totalCandles vc :
    reachable s -> visibleCount (zoomIndex s) = Some vc ->
    reachable (nav (maxOffset (Z.of_nat totalCandles) vc) a s).

(** Price axis of the main chart. *)
Section PriceAxis.
Context {N : Type} `{JsNum N}.

(** [x || 1]: [x] unless it is falsy (0, -0 or NaN). *)
Definition or_one (x : N) : N :=
  if (x === x)%js && negb (x === nofZ 0)%js then x else nofZ 1.

(** [Math.max(...xs)] and [Math.min(...xs)] of a non-empty array (the
    render returns before on an empty slice). *)
Definition max_of (xs : list N) : N :=
  match xs with [] => nundef | x :: t => fold_left nmax t x end.

Definition min_of (xs : list N) : N :=
  match xs with [] => nundef | x :: t => fold_left nmin t x end.

(** [allPrices]: the highs and lows of the visible candles, followed by
    what the render pushes after them (current price, entry price,
    Bollinger band values). *)
Definition allPrices (display : list (Candle N)) (pushed : list N) : list N :=
  flat_map (fun c => [high c; low c]) display ++ pushed.

Definition price_hi (prices : list N) : N := (max_of prices * nlit (1001 # 1000))%js.
Definition price_lo (prices : list N) : N := (min_of prices * nlit (999 # 1000))%js.
Definition price_range (hi lo : N) : N := or_one (hi - lo)%js.

Definition priceToY (topPad mainChartH lo range p : N) : N :=
  (topPad + mainChartH - ((p - lo) / range) * mainChartH)%js.

Definition yToPrice (topPad mainChartH hi range y : N) : N :=
  (hi - ((y - topPad) / mainChartH) * range)%js.

End PriceAxis.

(** ** Notions for the rounding of binary64 operations

    Used to bound the RSI: the specification [SpecFloat] of the binary64
    operations works on a sign, a mantissa and an exponent. *)

Section RoundingNotions.
Local Open Scope Z_scope.

(** A shifted record that has lost no non-zero bit. *)
Definition shr_exact (mrs : shr_record) : Prop :=
  shr_r mrs = false /\ shr_s mrs = false.

(** Comparing [m1 * 2^e1] with [m2 * 2^e2] on integers. *)
Definition scaled_le (m1 e1 m2 e2 : Z) : Prop :=
  m1 * 2 ^ (e1 - Z.min e1 e2) <= m2 * 2 ^ (e2 - Z.min e1 e2).

(** A number that is not negative: NaN, a zero, a positive finite number
    or plus infinity. *)
Definition sf_nonneg (x : spec_float) : Prop :=
  match x with
  | S754_zero _ | S754_nan => True
  | S754_infinity s | S754_finite s _ _ => s = false
  end.

(** The same without the negative zero. *)
Definition sf_unsigned (x : spec_float) : Prop :=
  match x with
  | S754_nan => True
  | S754_zero s | S754_infinity s | S754_finite s _ _ => s = false
  end.

(** The binary64 numbers 1 and 100. *)
Definition sf_one : spec_float := S754_finite false 4503599627370496 (-52).
Definition sf_hundred : spec_float := S754_finite false 7036874417766400 (-46).

(** A number that is at least 1 (or NaN, or plus infinity). *)
Definition sf_ge_one (y : spec_float) : Prop :=
  y = S754_nan \/ y = S754_infinity false \/
  exists m e, y = S754_finite false m e /\ scaled_le 1 0 (Zpos m) e.

(** A number between +0 and 100 (or NaN). *)
Definition sf_le_hundred (q : spec_float) : Prop :=
  q = S754_nan \/ q = S754_zero false \/
  exists m e, q = S754_finite false m e /\
              scaled_le (Zpos m) e 7036874417766400 (-46).

End RoundingNotions.

(** What a defined RSI entry can be: NaN, or a number from 0 to 100. *)
Definition rsi_in_range (v : float) : Prop :=
  PrimFloat.is_nan v = true \/
  (PrimFloat.leb 0%float v = true /\ PrimFloat.leb v 100%float = true).

Definition rsi_entry_ok (o : option float) : Prop :=
  match o with
  | None => True
  | Some v => rsi_in_range v
  end.

(** A binary64 number that is not negative (or NaN). *)
Definition nonneg (x : float) : Prop := sf_nonneg (Prim2SF x).

(** ** More of the chart (src/CandleChart.tsx) *)

(** The candles that the minimap highlights: [candles[i]] for
    [i = Math.max(0, viewStart)] while [i < Math.min(totalCandles, viewEnd)]. *)
Definition minimapView {A : Type} (candles : list A)
  (visibleCount clampedOffset : Z) : list (option A) :=
  let totalCandles := Z.of_nat (length candles) in
  let viewStart := (totalCandles - clampedOffset - visibleCount)%Z in
  let viewEnd := (totalCandles - clampedOffset)%Z in
  map (fun i => nth_error candles (Z.to_nat i))
    (range_incl (Z.max 0 viewStart) (Z.min totalCandles viewEnd - 1)).

(** The horizontal layout of the render: candle width [cw], [gap], the
    full step [fw], the origin [ox] and the left edge of candle [i]. *)
Section Layout.
Context {N : Type} `{JsNum N}.

Definition rightPad : N := nofZ 76.
Definition leftPad : N := nofZ 8.

Definition chartWidth (W : N) : N := (W - rightPad - leftPad)%js.

Definition candleWidth (W : N) (numDisplayed : Z) : N :=
  nmax (nofZ 2)
    (chartWidth W / nmax (nofZ 20) (nofZ numDisplayed) * nlit (75 # 100))%js.

Definition candleGap (cw : N) : N := nmax (nofZ 1) (cw * nlit (25 # 100))%js.

Definition fullWidth (W : N) (numDisplayed : Z) : N :=
  let cw := candleWidth W numDisplayed in (cw + candleGap cw)%js.

Definition originX (W : N) (numDisplayed : Z) : N :=
  (W - rightPad - nofZ numDisplayed * fullWidth W numDisplayed)%js.

Definition xForCandle (W : N) (numDisplayed i : Z) : N :=
  (originX W numDisplayed + nofZ i * fullWidth W numDisplayed)%js.

End Layout.

(** [Math.round((mx - ox) / fw)], the candle under the crosshair, in exact
    arithmetic: [Math.round(x)] is the floor of [x + 1/2]. *)
Definition candleIdx (W : Q) (numDisplayed : Z) (mx : Q) : Z :=
  Qfloor ((mx - originX W numDisplayed) / fullWidth W numDisplayed + (1 # 2))%Q.

(** ** The application (src/StatsBar.tsx, application part)

    Strings are [String.string]; an object used as a map is an association
    list in insertion order. *)

(** The unary minus and [Math.sqrt], which the chart does not use. *)
Class JsNeg (N : Type) : Type := { nneg : N -> N }.
Class JsSqrt (N : Type) : Type := { nsqrt : N -> N }.

#[export] Instance float_neg : JsNeg float := { nneg := PrimFloat.opp }.
#[export] Instance float_sqrt : JsSqrt float := { nsqrt := PrimFloat.sqrt }.
#[export] Instance Q_neg : JsNeg Q := { nneg := Qopp }.

(** [o[k]] and [o[k] = v] on an object whose keys are compared by [eqb].
    A key that names a property every object inherits is read as missing;
    the code reads such a value only through [?.] and [??], where this
    makes no difference, except for the fee (see [withdraw_fee]). *)
Section Obj.
Context {K V : Type} (eqb : K -> K -> bool).

Definition obj_get (o : list (K * V)) (k : K) : option V :=
  option_map snd (find (fun kv => eqb (fst kv) k) o).

Fixpoint obj_set (o : list (K * V)) (k : K) (v : V) : list (K * V) :=
  match o with
  | [] => [(k, v)]
  | (k', v') :: t =>
      if eqb k' k then (k, v) :: t else (k', v') :: obj_set t k v
  end.

End Obj.

(** *** [seedCandles] *)

Section Seed.
Context {N : Type} `{JsNum N} `{JsSqrt N}.

(** One round of the loop of [seedCandles] for the loop variable [i].  The
    state is the array, the running price and the number of calls of
    [Math.random()] made so far; [rand k] is the value of call [k]. *)
Definition seed_step (basePrice : N) (periodSec now : Z) (rand : nat -> N)
  (i : Z) (st : list (Candle N) * N * nat) : list (Candle N) * N * nat :=
  let '(candles, price, k) := st in
  let pMs := (periodSec * 1000)%Z in
  let time := ((now - i * pMs) / pMs * pMs)%Z in
  let open := price in
  let vol := (basePrice * nlit (3 # 1000) * nsqrt (nofZ periodSec / nofZ 60))%js in
  let drift := ((rand k - nlit (5 # 10)) * vol)%js in
  let close := (open + drift)%js in
  let high := (nmax open close * (nofZ 1 + rand (k + 1)%nat * nlit (6 # 10000)))%js in
  let low := (nmin open close * (nofZ 1 - rand (k + 2)%nat * nlit (6 # 10000)))%js in
  (candles ++ [mkCandle time open high low close], close, (k + 3)%nat).

(** [seedCandles(basePrice, periodSec, count)] run at the time [now]:
    [for (let i = count; i > 0; i--)]. *)
Definition seedCandles (basePrice : N) (periodSec count now : Z)
  (rand : nat -> N) : list (Candle N) :=
  fst (fst (fold_left (fun st i => seed_step basePrice periodSec now rand i st)
              (rev (range_incl 1 count)) ([], basePrice, 0%nat))).

End Seed.

(** *** Types of the state *)

Inductive Direction : Type := CALL | PUT.
Inductive ResultStatus : Type := PENDING | WIN | LOSS.
Inductive RecordStatus : Type := pending | completed | failed.
Inductive KYCStatus : Type :=
  NOT_STARTED | IN_PROGRESS | PENDING_REVIEW | VERIFIED | REJECTED.

Module TradingAsset.
Record t (N : Type) : Type := mk {
  id : string; symbol : string; name : string; payout : N; basePrice : N
}.
Arguments mk {N}.
Arguments id {N}.
Arguments symbol {N}.
Arguments name {N}.
Arguments payout {N}.
Arguments basePrice {N}.
End TradingAsset.

Module LiveAssetState.
Record t (N : Type) : Type := mk {
  id : string; price : N; candlesByTf : list (Z * list (Candle N))
}.
Arguments mk {N}.
Arguments id {N}.
Arguments price {N}.
Arguments candlesByTf {N}.
End LiveAssetState.

Module OpenTrade.
Record t (N : Type) : Type := mk {
  id : string;
  assetId : string;
  direction : Direction;
  amount : N;
  payoutFactor : N;
  entryPrice : N;
  openTime : Z;
  expirySeconds : Z
}.
Arguments mk {N}.
Arguments id {N}.
Arguments assetId {N}.
Arguments direction {N}.
Arguments amount {N}.
Arguments payoutFactor {N}.
Arguments entryPrice {N}.
Arguments openTime {N}.
Arguments expirySeconds {N}.
End OpenTrade.

(** [openedAt] and [closedAt] are the milliseconds of the two dates. *)
Module TradeRecord.
Record t (N : Type) : Type := mk {
  id : string;
  asset : string;
  direction : Direction;
  amount : N;
  payout : N;
  entryPrice : N;
  exitPrice : N;
  openedAt : Z;
  closedAt : Z
}.
Arguments mk {N}.
Arguments id {N}.
Arguments asset {N}.
Arguments direction {N}.
Arguments amount {N}.
Arguments payout {N}.
Arguments entryPrice {N}.
Arguments exitPrice {N}.
Arguments openedAt {N}.
Arguments closedAt {N}.
End TradeRecord.

Module DepositRecord.
Record t (N : Type) : Type := mk {
  id : string;
  coin : string;
  network : string;
  amount : N;
  status : RecordStatus;
  createdAt : Z;
  walletAddress : string
}.
Arguments mk {N}.
Arguments id {N}.
Arguments coin {N}.
Arguments network {N}.
Arguments amount {N}.
Arguments status {N}.
Arguments createdAt {N}.
Arguments walletAddress {N}.
End DepositRecord.

Module WithdrawRecord.
Record t (N : Type) : Type := mk {
  id : string;
  coin : string;
  network : string;
  amount : N;
  fee : N;
  netAmount : N;
  toAddress : string;
  status : RecordStatus;
  createdAt : Z
}.
Arguments mk {N}.
Arguments id {N}.
Arguments coin {N}.
Arguments network {N}.
Arguments amount {N}.
Arguments fee {N}.
Arguments netAmount {N}.
Arguments toAddress {N}.
Arguments status {N}.
Arguments createdAt {N}.
End WithdrawRecord.

(** The state, without the profile and the referral list, which no case
    modelled here reads. *)
Record AppState (N : Type) : Type := mkAppState {
  balance : N;
  liveAssets : list (string * LiveAssetState.t N);
  openTrades : list (OpenTrade.t N);
  closedTrades : list (TradeRecord.t N);
  lastResult : option (ResultStatus * N);
  kycStatus : KYCStatus;
  totalDeposited : N;
  totalWithdrawn : N;
  totalEarnings : N;
  depositRecords : list (DepositRecord.t N);
  withdrawRecords : list (WithdrawRecord.t N)
}.

Arguments mkAppState {N}.
Arguments balance {N}.
Arguments liveAssets {N}.
Arguments openTrades {N}.
Arguments closedTrades {N}.
Arguments lastResult {N}.
Arguments kycStatus {N}.
Arguments totalDeposited {N}.
Arguments totalWithdrawn {N}.
Arguments totalEarnings {N}.
Arguments depositRecords {N}.
Arguments withdrawRecords {N}.

(** The actions; [UPDATE_PROFILE] only replaces the profile.  [ADD_REFERRAL]
    is given with its [earnings]. *)
Inductive AppAction (N : Type) : Type :=
| TICK (now : Z)
| PLACE_TRADE (trade : OpenTrade.t N)
| ADD_DEPOSIT (record : DepositRecord.t N)
| COMPLETE_DEPOSIT (id : string)
| ADD_WITHDRAW (record : WithdrawRecord.t N)
| COMPLETE_WITHDRAW (id : string)
| SET_KYC (status : KYCStatus)
| ADD_REFERRAL (earnings : N).

Arguments TICK {N}.
Arguments PLACE_TRADE {N}.
Arguments ADD_DEPOSIT {N}.
Arguments COMPLETE_DEPOSIT {N}.
Arguments ADD_WITHDRAW {N}.
Arguments COMPLETE_WITHDRAW {N}.
Arguments SET_KYC {N}.
Arguments ADD_REFERRAL {N}.

(** The state of the settlement loop of the TICK case. *)
Record Settlement (N : Type) : Type := mkSettlement {
  newBalance : N;
  remaining : list (OpenTrade.t N);
  closed : list (TradeRecord.t N);
  lastResult' : option (ResultStatus * N)
}.

Arguments mkSettlement {N}.
Arguments newBalance {N}.
Arguments remaining {N}.
Arguments closed {N}.
Arguments lastResult' {N}.

Section App.
Context {N : Type} `{JsNum N} `{JsNeg N}.

Definition TF_SECONDS : list Z := [60; 300; 900; 3600]%Z.

Definition ASSETS : list (TradingAsset.t N) :=
  [ TradingAsset.mk "btcusd" "BTC/USD" "Bitcoin vs US Dollar"
      (nlit (82 # 100)) (nofZ 64000);
    TradingAsset.mk "ethusd" "ETH/USD" "Ethereum vs US Dollar"
      (nlit (80 # 100)) (nofZ 3200);
    TradingAsset.mk "eurusd" "EUR/USD" "Euro vs US Dollar"
      (nlit (78 # 100)) (nlit (1085 # 1000));
    TradingAsset.mk "gbpusd" "GBP/USD" "British Pound vs USD"
      (nlit (79 # 100)) (nlit (1265 # 1000));
    TradingAsset.mk "xauusd" "XAU/USD" "Gold vs US Dollar"
      (nlit (81 # 100)) (nofZ 2300);
    TradingAsset.mk "spx500" "SPX500" "S&P 500 Index"
      (nlit (77 # 100)) (nofZ 5200) ].

(** [ASSETS.reduce((acc, a) => { acc[a.id] = a; return acc; }, {})]. *)
Definition ASSET_MAP : list (string * TradingAsset.t N) :=
  fold_left (fun acc a => obj_set String.eqb acc (TradingAsset.id a) a) ASSETS [].

(** The withdrawal fees, and [WITHDRAW_FEES[coin] ?? 1] for a coin that
    does not name a property every object inherits. *)
Definition WITHDRAW_FEES : list (string * N) :=
  [ ("USDT"%string, nofZ 1); ("BTC"%string, nofZ 5); ("ETH"%string, nofZ 3);
    ("TRX"%string, nlit (5 # 10)) ].

Definition withdraw_fee (coin : string) : N :=
  match obj_get String.eqb WITHDRAW_FEES coin with
  | Some f => f
  | None => nofZ 1
  end.

(** The body of [for (const asset of ASSETS)] in the TICK case for one
    asset: the price step, then [tickCandles] on each timeframe.  [u] is
    the value of [Math.random()]; the result is [None] where the code
    throws because a series is missing. *)
Definition tickAsset (prev : LiveAssetState.t N) (id : string) (u : N)
  (now : Z) : option (LiveAssetState.t N) :=
  let nextPrice := nextPrice (LiveAssetState.price prev) u in
  match
    fold_left
      (fun acc tf =>
         match acc, obj_get Z.eqb (LiveAssetState.candlesByTf prev) tf with
         | Some candlesByTf, Some candles =>
             Some (obj_set Z.eqb candlesByTf tf
                     (tickCandles candles tf nextPrice now))
         | _, _ => None
         end)
      TF_SECONDS (Some [])
  with
  | Some candlesByTf => Some (LiveAssetState.mk id nextPrice candlesByTf)
  | None => None
  end.

(** The first loop of the TICK case; call [k] of [Math.random()] is for
    the asset at index [k] of [ASSETS]. *)
Definition tickAssets (liveAssets : list (string * LiveAssetState.t N))
  (rand : nat -> N) (now : Z) : option (list (string * LiveAssetState.t N)) :=
  fst (fold_left
         (fun (st : option (list (string * LiveAssetState.t N)) * nat) asset =>
            let '(acc, k) := st in
            let id := TradingAsset.id asset in
            (match acc, obj_get String.eqb liveAssets id with
             | Some updatedLive, Some prev =>
                 match tickAsset prev id (rand k) now with
                 | Some next => Some (obj_set String.eqb updatedLive id next)
                 | None => None
                 end
             | _, _ => None
             end, S k))
         ASSETS (Some [], 0%nat)).

(** [(updatedLive[id] ?? liveAssets[id])?.price ?? entryPrice]. *)
Definition exitPriceOf (updatedLive liveAssets : list (string * LiveAssetState.t N))
  (trade : OpenTrade.t N) : N :=
  let live :=
    match obj_get String.eqb updatedLive (OpenTrade.assetId trade) with
    | Some l => Some l
    | None => obj_get String.eqb liveAssets (OpenTrade.assetId trade)
    end in
  match live with
  | Some l => LiveAssetState.price l
  | None => OpenTrade.entryPrice trade
  end.

Definition isWin (direction : Direction) (exitPrice entryPrice : N) : bool :=
  match direction with
  | CALL => (entryPrice <? exitPrice)%js
  | PUT => (exitPrice <? entryPrice)%js
  end.

(** The body of [for (const trade of state.openTrades)]. *)
Definition settle_trade (exitPrice : OpenTrade.t N -> N) (now : Z)
  (s : Settlement N) (trade : OpenTrade.t N) : Settlement N :=
  let expiryTime :=
    (OpenTrade.openTime trade + OpenTrade.expirySeconds trade * 1000)%Z in
  if (expiryTime <=? now)%Z then
    let exitPrice := exitPrice trade in
    let isWin := isWin (OpenTrade.direction trade) exitPrice
                   (OpenTrade.entryPrice trade) in
    let pnl := if isWin
               then (OpenTrade.amount trade * OpenTrade.payoutFactor trade)%js
               else nneg (OpenTrade.amount trade) in
    let newBalance :=
      if isWin
      then (newBalance s +
            (OpenTrade.amount trade +
             OpenTrade.amount trade * OpenTrade.payoutFactor trade))%js
      else newBalance s in
    let asset :=
      match obj_get String.eqb ASSET_MAP (OpenTrade.assetId trade) with
      | Some meta => TradingAsset.symbol meta
      | None => OpenTrade.assetId trade
      end in
    mkSettlement newBalance (remaining s)
      (closed s ++
       [TradeRecord.mk (OpenTrade.id trade) asset (OpenTrade.direction trade)
          (OpenTrade.amount trade) pnl (OpenTrade.entryPrice trade) exitPrice
          (OpenTrade.openTime trade) expiryTime])
      (Some (if isWin then WIN else LOSS, pnl))
  else
    mkSettlement (newBalance s) (remaining s ++ [trade]) (closed s)
      (lastResult' s).

(** The settlement loop and the cut of the history to its last 50
    records. *)
Definition settle (exitPrice : OpenTrade.t N -> N) (now : Z)
  (state : AppState N) : Settlement N :=
  let s := fold_left (settle_trade exitPrice now) (openTrades state)
             (mkSettlement (balance state) [] (closedTrades state)
                (lastResult state)) in
  if (50 <? length (closed s))%nat
  then mkSettlement (newBalance s) (remaining s)
         (skipn (length (closed s) - 50) (closed s)) (lastResult' s)
  else s.

(** [appReducer(state, action)]; [rand] gives the values of
    [Math.random()] during the call, and the result is [None] where the
    code throws. *)
Definition appReducer (rand : nat -> N) (state : AppState N)
  (action : AppAction N) : option (AppState N) :=
  match action with
  | TICK now =>
      match tickAssets (liveAssets state) rand now with
      | Some updatedLive =>
          let s := settle (exitPriceOf updatedLive (liveAssets state)) now state in
          Some (mkAppState (newBalance s) updatedLive (remaining s) (closed s)
                  (lastResult' s) (kycStatus state) (totalDeposited state)
                  (totalWithdrawn state) (totalEarnings state)
                  (depositRecords state) (withdrawRecords state))
      | None => None
      end
  | PLACE_TRADE trade =>
      Some (mkAppState (balance state - OpenTrade.amount trade)%js
              (liveAssets state) (openTrades state ++ [trade])
              (closedTrades state) (Some (PENDING, nofZ 0)) (kycStatus state)
              (totalDeposited state) (totalWithdrawn state)
              (totalEarnings state) (depositRecords state)
              (withdrawRecords state))
  | ADD_DEPOSIT record =>
      Some (mkAppState (balance state + DepositRecord.amount record)%js
              (liveAssets state) (openTrades state) (closedTrades state)
              (lastResult state) (kycStatus state)
              (totalDeposited state + DepositRecord.amount record)%js
              (totalWithdrawn state) (totalEarnings state)
              (depositRecords state ++ [record]) (withdrawRecords state))
  | COMPLETE_DEPOSIT id =>
      Some (mkAppState (balance state) (liveAssets state) (openTrades state)
              (closedTrades state) (lastResult state) (kycStatus state)
              (totalDeposited state) (totalWithdrawn state)
              (totalEarnings state)
              (map (fun d =>
                      if String.eqb (DepositRecord.id d) id
                      then DepositRecord.mk (DepositRecord.id d)
                             (DepositRecord.coin d) (DepositRecord.network d)
                             (DepositRecord.amount d) completed
                             (DepositRecord.createdAt d)
                             (DepositRecord.walletAddress d)
                      else d) (depositRecords state))
              (withdrawRecords state))
  | ADD_WITHDRAW record =>
      Some (mkAppState (balance state - WithdrawRecord.amount record)%js
              (liveAssets state) (openTrades state) (closedTrades state)
              (lastResult state) (kycStatus state) (totalDeposited state)
              (totalWithdrawn state + WithdrawRecord.amount record)%js
              (totalEarnings state) (depositRecords state)
              (withdrawRecords state ++ [record]))
  | COMPLETE_WITHDRAW id =>
      Some (mkAppState (balance state) (liveAssets state) (openTrades state)
              (closedTrades state) (lastResult state) (kycStatus state)
              (totalDeposited state) (totalWithdrawn state)
              (totalEarnings state) (depositRecords state)
              (map (fun w =>
                      if String.eqb (WithdrawRecord.id w) id
                      then WithdrawRecord.mk (WithdrawRecord.id w)
                             (WithdrawRecord.coin w) (WithdrawRecord.network w)
                             (WithdrawRecord.amount w) (WithdrawRecord.fee w)
                             (WithdrawRecord.netAmount w)
                             (WithdrawRecord.toAddress w) completed
                             (WithdrawRecord.createdAt w)
                      else w) (withdrawRecords state)))
  | SET_KYC status =>
      Some (mkAppState (balance state) (liveAssets state) (openTrades state)
              (closedTrades state) (lastResult state) status
              (totalDeposited state) (totalWithdrawn state)
              (totalEarnings state) (depositRecords state)
              (withdrawRecords state))
  | ADD_REFERRAL earnings =>
      Some (mkAppState (balance state + earnings)%js (liveAssets state)
              (openTrades state) (closedTrades state) (lastResult state)
              (kycStatus state) (totalDeposited state) (totalWithdrawn state)
              (totalEarnings state + earnings)%js (depositRecords state)
              (withdrawRecords state))
  end.

(** The stake that [handlePlaceTrade] dispatches, [None] where it
    returns without dispatching. *)
Definition handlePlaceTrade_stake (amount balance : N) : option N :=
  let inv := nmax (nofZ 1) (nmin amount balance) in
  if negb (nisFinite inv) || (inv <=? nofZ 0)%js || (balance <? inv)%js
  then None else Some inv.

(** [handlePlaceTrade(direction)]: the action it dispatches.  [tradeId] is
    the identifier it generates and [now] the value of [Date.now()]. *)
Definition handlePlaceTrade (state : AppState N) (activeAssetId : string)
  (amount : N) (expirySeconds : Z) (tradeId : string) (now : Z)
  (direction : Direction) : option (AppAction N) :=
  let activeAsset :=
    match find (fun a => String.eqb (TradingAsset.id a) activeAssetId) ASSETS with
    | Some a => Some a
    | None => nth_error ASSETS 0
    end in
  match activeAsset with
  | None => None
  | Some activeAsset =>
      match handlePlaceTrade_stake amount (balance state) with
      | None => None
      | Some inv =>
          let entryPrice :=
            match obj_get String.eqb (liveAssets state)
                    (TradingAsset.id activeAsset) with
            | Some activeLive => LiveAssetState.price activeLive
            | None => TradingAsset.basePrice activeAsset
            end in
          Some (PLACE_TRADE
                  (OpenTrade.mk tradeId activeAssetId direction inv
                     (TradingAsset.payout activeAsset) entryPrice now
                     expirySeconds))
      end
  end.

(** [handleWithdraw]: the action it dispatches.  [recordId] is the
    identifier it generates and [now] the value of [Date.now()]. *)
Definition handleWithdraw (state : AppState N) (withdrawAmount : N)
  (coin network toAddress : string) (recordId : string) (now : Z)
  : option (AppAction N) :=
  if (withdrawAmount <=? nofZ 0)%js || (balance state <? withdrawAmount)%js
  then None
  else
    let fee := withdraw_fee coin in
    let netAmount := nmax (nofZ 0) (withdrawAmount - fee)%js in
    Some (ADD_WITHDRAW
            (WithdrawRecord.mk recordId coin network withdrawAmount fee
               netAmount toAddress pending now)).

(** The figures of the statistics bar. *)
Definition wins (closedTrades : list (TradeRecord.t N)) : nat :=
  length (filter (fun t => (nofZ 0 <? TradeRecord.payout t)%js) closedTrades).

Definition winRate (closedTrades : list (TradeRecord.t N)) : N :=
  match length closedTrades with
  | O => nofZ 0
  | S _ =>
      (nofZ (Z.of_nat (wins closedTrades)) /
       nofZ (Z.of_nat (length closedTrades)) * nofZ 100)%js
  end.

(** The countdown of the active trade. *)
Definition elapsed (total : Z) (now openTime : Z) : N :=
  nmin (nofZ total) (nmax (nofZ 0) (nofZ (now - openTime) / nofZ 1000)%js).

Definition remainingTime (total : Z) (now openTime : Z) : N :=
  nmax (nofZ 0) (nofZ total - elapsed total now openTime)%js.

Definition countdownPercent (total : Z) (now openTime : Z) : N :=
  (elapsed total now openTime / nofZ total * nofZ 100)%js.

(** The trade shown on the chart: the latest trade on the active asset,
    the earliest of them on equal open times. *)
Definition activeOpenTrade (openTrades : list (OpenTrade.t N))
  (activeAssetId : string) : option (OpenTrade.t N) :=
  match filter (fun t => String.eqb (OpenTrade.assetId t) activeAssetId)
          openTrades with
  | [] => None
  | a :: trades =>
      Some (fold_left
              (fun a b => if (OpenTrade.openTime a <? OpenTrade.openTime b)%Z
                          then b else a) trades a)
  end.

End App.

(** [createInitialState()]: the series of asset [a] and timeframe index
    [j] is seeded by call [4 * a + j] of [seedCandles], which reads the
    clock once, [now (4 * a + j)], and makes the calls of [Math.random()]
    from number [(4 * a + j) * 1500] on. *)
Section InitialState.
Context {N : Type} `{JsNum N} `{JsNeg N} `{JsSqrt N}.

Definition seedAsset (asset : TradingAsset.t N) (now : nat -> Z) (rand : nat -> N)
  (a : nat) : LiveAssetState.t N :=
  LiveAssetState.mk (TradingAsset.id asset) (TradingAsset.basePrice asset)
    (fst (fold_left
            (fun (st : list (Z * list (Candle N)) * nat) tf =>
               let '(candlesByTf, j) := st in
               (obj_set Z.eqb candlesByTf tf
                  (seedCandles (TradingAsset.basePrice asset) tf 500
                     (now (4 * a + j)%nat)
                     (fun k => rand ((4 * a + j) * 1500 + k)%nat)),
                S j))
            TF_SECONDS ([], 0%nat))).

Definition createInitialState (now : nat -> Z) (rand : nat -> N) : AppState N :=
  mkAppState (nofZ 1000)
    (fst (fold_left
            (fun (st : list (string * LiveAssetState.t N) * nat) asset =>
               let '(liveAssets, a) := st in
               (obj_set String.eqb liveAssets (TradingAsset.id asset)
                  (seedAsset asset now rand a), S a))
            ASSETS ([], 0%nat)))
    [] [] None NOT_STARTED (nofZ 0) (nofZ 0) (nofZ 0) [] [].

End InitialState.

(** ** Notions for the series of candles *)

Section SeriesNotions.
Context {N : Type} `{JsNum N}.

(** Every candle opens at the close of the candle before it. *)
Fixpoint chained (l : list (Candle N)) : Prop :=
  match l with
  | [] => True
  | a :: t =>
      match t with
      | [] => True
      | b :: _ => open b = close a /\ chained t
      end
  end.

(** The series, when it has a candle, ends at the price [pr]. *)
Definition ends_at (cs : list (Candle N)) (pr : N) : Prop :=
  match last_candle cs with Some c => close c = pr | None => True end.

(** The part of the OHLC invariant on the close: low <= close <= high,
    with the comparisons of the number type. *)
Definition close_in_range (c : Candle N) : bool :=
  (low c <=? close c)%js && (close c <=? high c)%js.

End SeriesNotions.

(** ** Notions for the application state *)

Section AppNotions.
Context {N : Type} `{JsNum N} `{JsNeg N}.

(** [trade.openTime + trade.expirySeconds * 1000]. *)
Definition expiryTime (trade : OpenTrade.t N) : Z :=
  (OpenTrade.openTime trade + OpenTrade.expirySeconds trade * 1000)%Z.

(** The trade is due at the time [now] of a TICK. *)
Definition due (now : Z) (trade : OpenTrade.t N) : bool :=
  (expiryTime trade <=? now)%Z.

(** The records that the settlement loop pushes: the loop run on an empty
    history. *)
Definition settled (exitPrice : OpenTrade.t N -> N) (now : Z)
  (state : AppState N) : list (TradeRecord.t N) :=
  closed (fold_left (settle_trade exitPrice now) (openTrades state)
            (mkSettlement (balance state) [] [] (lastResult state))).

(** The record that the settlement loop pushes for a due trade. *)
Definition closed_record (exitPrice : OpenTrade.t N -> N)
  (trade : OpenTrade.t N) : TradeRecord.t N :=
  let exit := exitPrice trade in
  TradeRecord.mk (OpenTrade.id trade)
    match obj_get String.eqb ASSET_MAP (OpenTrade.assetId trade) with
    | Some meta => TradingAsset.symbol meta
    | None => OpenTrade.assetId trade
    end
    (OpenTrade.direction trade) (OpenTrade.amount trade)
    (if isWin (OpenTrade.direction trade) exit (OpenTrade.entryPrice trade)
     then (OpenTrade.amount trade * OpenTrade.payoutFactor trade)%js
     else nneg (OpenTrade.amount trade))
    (OpenTrade.entryPrice trade) exit (OpenTrade.openTime trade)
    (expiryTime trade).

(** What the settlement of a due trade adds to the balance. *)
Definition credit (exitPrice : OpenTrade.t N -> N) (trade : OpenTrade.t N)
  : option N :=
  if isWin (OpenTrade.direction trade) (exitPrice trade)
       (OpenTrade.entryPrice trade)
  then Some (OpenTrade.amount trade +
             OpenTrade.amount trade * OpenTrade.payoutFactor trade)%js
  else None.

(** The live state of one asset after a TICK that finds all its series. *)
Definition ticked (prev : LiveAssetState.t N) (id : string) (u : N) (now : Z)
  : LiveAssetState.t N :=
  let p := nextPrice (LiveAssetState.price prev) u in
  LiveAssetState.mk id p
    (map (fun kv => (fst kv, tickCandles (snd kv) (fst kv) p now))
       (LiveAssetState.candlesByTf prev)).

(** Every asset of [ASSETS] has its live state, with a series for every
    timeframe of [TF_SECONDS]. *)
Definition live_ok (liveAssets : list (string * LiveAssetState.t N)) : Prop :=
  map fst liveAssets = map TradingAsset.id ASSETS /\
  Forall (fun kv => map fst (LiveAssetState.candlesByTf (snd kv)) = TF_SECONDS)
    liveAssets.

End AppNotions.

(** The sum of a list of rationals. *)
Definition Qsum (l : list Q) : Q := fold_right Qplus 0%Q l.

(** ** The states of the application *)

(** The states that the application reaches: it starts from
    [createInitialState()] and every dispatched action runs the reducer,
    with some values of [Math.random()]. *)
Inductive app_reachable {N : Type} `{JsNum N} `{JsNeg N} `{JsSqrt N}
  : AppState N -> Prop :=
| app_init (now : nat -> Z) (rand : nat -> N) :
    app_reachable (createInitialState now rand)
| app_step (state state' : AppState N) (action : AppAction N) (rand : nat -> N) :
    app_reachable state ->
    appReducer rand state action = Some state' ->
    app_reachable state'.

(** A full, chained series, and a live asset with a finite positive price
    and such a series on every timeframe. *)
Definition series_inv (s : list (Candle float)) : Prop :=
  length s = 500%nat /\ chained s.

Definition live_inv (l : LiveAssetState.t float) : Prop :=
  PrimFloat.is_finite (LiveAssetState.price l) = true /\
  PrimFloat.ltb 0%float (LiveAssetState.price l) = true /\
  Forall (fun kv => series_inv (snd kv)) (LiveAssetState.candlesByTf l).

(** * Properties of the candle aggregator *)

Section AggregatorFacts.
Context {N : Type} `{JsNum N}.

Lemma last_candle_nil : last_candle (@nil (Candle N)) = None.
Proof. reflexivity. Qed.

Lemma last_candle_snoc (l : list (Candle N)) (c : Candle N) :
  last_candle (l ++ [c]) = Some c.
Proof.
  unfold last_candle. rewrite length_app. simpl.
  replace (length l + 1 - 1)%nat with (length l) by lia.
  rewrite nth_error_app2 by lia. now rewrite Nat.sub_diag.
Qed.

Lemma set_nth_snoc (l : list (Candle N)) (c d : Candle N) :
  set_nth (l ++ [c]) (length (l ++ [c]) - 1) d = l ++ [d].
Proof.
  rewrite length_app. simpl.
  replace (length l + 1 - 1)%nat with (length l) by lia.
  induction l as [|a l IH]; simpl; [reflexivity | now rewrite IH].
Qed.

(** The array after the update, by the shape of the input series. *)
Lemma tick_update_nil (periodSec : Z) (p : N) (now : Z) :
  tick_update [] periodSec p now = [mkCandle (bucket_of periodSec now) p p p p].
Proof. reflexivity. Qed.

Lemma tick_update_same (l : list (Candle N)) (c : Candle N)
  (periodSec : Z) (p : N) (now : Z) :
  time c = bucket_of periodSec now ->
  tick_update (l ++ [c]) periodSec p now =
  l ++ [mkCandle (time c) (open c) (nmax (high c) p) (nmin (low c) p) p].
Proof.
  intros E. unfold tick_update. rewrite last_candle_snoc.
  rewrite <- E, Z.eqb_refl. apply set_nth_snoc.
Qed.

Lemma tick_update_new (l : list (Candle N)) (c : Candle N)
  (periodSec : Z) (p : N) (now : Z) :
  time c <> bucket_of periodSec now ->
  tick_update (l ++ [c]) periodSec p now =
  (l ++ [c]) ++ [mkCandle (bucket_of periodSec now) (close c) p p p].
Proof.
  intros E. unfold tick_update. rewrite last_candle_snoc.
  apply Z.eqb_neq in E. now rewrite E.
Qed.

(** What [tickCandles] returns is a suffix of the updated array. *)
Lemma tickCandles_suffix (candles : list (Candle N)) (periodSec : Z)
  (p : N) (now : Z) :
  let arr := tick_update candles periodSec p now in
  tickCandles candles periodSec p now = skipn (length arr - 500) arr.
Proof.
  intros arr. unfold tickCandles. fold arr.
  destruct (500 <? length arr)%nat eqn:E; [reflexivity|].
  apply Nat.ltb_ge in E.
  replace (length arr - 500)%nat with 0%nat by lia. reflexivity.
Qed.

End AggregatorFacts.

(** Neighbour relations survive dropping a prefix and extend at the end. *)
Lemma adjacent_tail (R : Z -> Z -> Prop) (a : Z) (l : list Z) :
  adjacent R (a :: l) -> adjacent R l.
Proof. destruct l; simpl; tauto. Qed.

Lemma adjacent_skipn (R : Z -> Z -> Prop) (n : nat) (l : list Z) :
  adjacent R l -> adjacent R (skipn n l).
Proof.
  revert l. induction n as [|n IH]; intros l Hl; [exact Hl|].
  destruct l as [|a l]; [exact I|].
  simpl skipn. apply IH. eapply adjacent_tail; eauto.
Qed.

Lemma adjacent_snoc (R : Z -> Z -> Prop) (l : list Z) (a b : Z) :
  adjacent R (l ++ [a]) -> R a b -> adjacent R ((l ++ [a]) ++ [b]).
Proof.
  induction l as [|x l IH]; intros Hl Hab.
  - simpl. auto.
  - destruct l as [|y l].
    + simpl in *. tauto.
    + simpl in Hl. destruct Hl as [Hxy Hl].
      change (R x y /\ adjacent R (((y :: l) ++ [a]) ++ [b])).
      split; [exact Hxy|]. apply IH; assumption.
Qed.

Lemma adjacent_snoc_inv (R : Z -> Z -> Prop) (l : list Z) (a : Z) :
  adjacent R (l ++ [a]) -> adjacent R l.
Proof.
  induction l as [|x l IH]; intros Hl; [exact I|].
  destruct l as [|y l]; [exact I|].
  simpl in Hl. destruct Hl as [Hxy Hl].
  change (R x y /\ adjacent R (y :: l)). split; [exact Hxy|]. apply IH, Hl.
Qed.

Lemma adjacent_last2 (R : Z -> Z -> Prop) (l : list Z) (a b : Z) :
  adjacent R ((l ++ [a]) ++ [b]) -> R a b.
Proof.
  induction l as [|x l IH]; intros Hl.
  - simpl in Hl. tauto.
  - apply IH. eapply adjacent_tail. exact Hl.
Qed.

(** Buckets. *)
Lemma bucket_of_divide (periodSec now : Z) :
  (periodSec * 1000 | bucket_of periodSec now)%Z.
Proof. unfold bucket_of. apply Z.divide_factor_r. Qed.

Lemma bucket_of_mono (periodSec a b : Z) :
  (0 < periodSec)%Z -> (a <= b)%Z ->
  (bucket_of periodSec a <= bucket_of periodSec b)%Z.
Proof.
  intros HT Hab. unfold bucket_of.
  apply Z.mul_le_mono_nonneg_r; [lia|].
  apply Z.div_le_mono; lia.
Qed.

Lemma bucket_of_next (periodSec a b : Z) :
  (0 < periodSec)%Z -> (a <= b)%Z -> (b - a <= periodSec * 1000)%Z ->
  bucket_of periodSec b = bucket_of periodSec a \/
  bucket_of periodSec b = (bucket_of periodSec a + periodSec * 1000)%Z.
Proof.
  intros HT Hab Hd. unfold bucket_of.
  set (m := (periodSec * 1000)%Z) in *.
  assert (Hm : (0 < m)%Z) by (unfold m; lia).
  assert (H1 : (a / m <= b / m)%Z) by (apply Z.div_le_mono; lia).
  assert (H2 : (b / m <= (a + m) / m)%Z) by (apply Z.div_le_mono; lia).
  replace ((a + m) / m)%Z with (a / m + 1)%Z in H2.
  - assert (Hc : (b / m = a / m \/ b / m = a / m + 1)%Z) by lia.
    destruct Hc as [-> | ->]; [left; reflexivity | right; lia].
  - replace (a + m)%Z with (a + 1 * m)%Z by lia.
    rewrite Z.div_add by lia. reflexivity.
Qed.

Section AggregatorTimes.
Context {N : Type} `{JsNum N}.

Lemma times_app (s1 s2 : list (Candle N)) :
  times (s1 ++ s2) = times s1 ++ times s2.
Proof. apply map_app. Qed.

(** The bucket starts after the update: unchanged when the tick falls in
    the bucket of the last candle, one more otherwise. *)
Lemma times_tick_update_same (s : list (Candle N)) (periodSec : Z) (p : N)
  (now : Z) (l : list Z) :
  times s = l ++ [bucket_of periodSec now] ->
  times (tick_update s periodSec p now) = times s.
Proof.
  intros E. destruct s as [|c0 s0] using rev_ind.
  - destruct l; discriminate E.
  - clear IHs0. rewrite times_app in E. simpl in E.
    apply app_inj_tail in E. destruct E as [_ E].
    rewrite tick_update_same by exact E.
    now rewrite !times_app.
Qed.

Lemma times_tick_update_new (s : list (Candle N)) (periodSec : Z) (p : N)
  (now : Z) (l : list Z) (b : Z) :
  times s = l ++ [b] -> b <> bucket_of periodSec now ->
  times (tick_update s periodSec p now) = times s ++ [bucket_of periodSec now].
Proof.
  intros E Hb. destruct s as [|c0 s0] using rev_ind.
  - destruct l; discriminate E.
  - clear IHs0. rewrite times_app in E. simpl in E.
    apply app_inj_tail in E. destruct E as [_ E].
    rewrite tick_update_new by congruence.
    now rewrite !times_app.
Qed.

Lemma times_tickCandles (s : list (Candle N)) (periodSec : Z) (p : N) (now : Z) :
  let arr := tick_update s periodSec p now in
  times (tickCandles s periodSec p now) = skipn (length arr - 500) (times arr).
Proof.
  intros arr. rewrite tickCandles_suffix. fold arr.
  unfold times. now rewrite skipn_map.
Qed.

Lemma skipn_snoc (k : nat) (l : list Z) (x : Z) :
  (k <= length l)%nat -> skipn k (l ++ [x]) = skipn k l ++ [x].
Proof.
  intros Hk. rewrite skipn_app.
  replace (k - length l)%nat with 0%nat by lia. reflexivity.
Qed.

(** One tick that is not older than the tick before it. *)
Lemma tickCandles_times_step (s : list (Candle N)) (periodSec : Z) (p : N)
  (t0 now : Z) (l : list Z) :
  (0 < periodSec)%Z -> (t0 <= now)%Z ->
  times s = l ++ [bucket_of periodSec t0] ->
  exists (k : nat) (l' : list Z),
    times (tickCandles s periodSec p now) = l' ++ [bucket_of periodSec now] /\
    ((bucket_of periodSec now = bucket_of periodSec t0 /\
      times (tickCandles s periodSec p now) = skipn k (times s)) \/
     ((bucket_of periodSec t0 < bucket_of periodSec now)%Z /\
      times (tickCandles s periodSec p now) =
      skipn k (times s ++ [bucket_of periodSec now]))).
Proof.
  intros HT Hle E.
  pose proof (bucket_of_mono periodSec t0 now HT Hle) as Hmono.
  rewrite times_tickCandles.
  destruct (Z.eq_dec (bucket_of periodSec t0) (bucket_of periodSec now)) as [Heq|Hne].
  - rewrite Heq in E.
    rewrite (times_tick_update_same s periodSec p now l E).
    set (k := (length (tick_update s periodSec p now) - 500)%nat).
    assert (Hk : (k <= length l)%nat).
    { unfold k. rewrite <- (length_map time). fold (times (tick_update s periodSec p now)).
      rewrite (times_tick_update_same s periodSec p now l E), E, length_app. simpl. lia. }
    exists k, (skipn k l). split.
    + rewrite E. now apply skipn_snoc.
    + left. split; [now symmetry | reflexivity].
  - rewrite (times_tick_update_new s periodSec p now l _ E Hne).
    set (k := (length (tick_update s periodSec p now) - 500)%nat).
    assert (Hk : (k <= length (times s))%nat).
    { unfold k. rewrite <- (length_map time). fold (times (tick_update s periodSec p now)).
      rewrite (times_tick_update_new s periodSec p now l _ E Hne), length_app. simpl. lia. }
    exists k, (skipn k (times s)). split.
    + now apply skipn_snoc.
    + right. split; [lia | reflexivity].
Qed.

Lemma Forall_skipn_Z (P : Z -> Prop) (k : nat) (l : list Z) :
  Forall P l -> Forall P (skipn k l).
Proof.
  revert l. induction k as [|k IH]; intros l Hl; [exact Hl|].
  destruct l as [|a l]; [constructor|]. simpl. apply IH. now inversion Hl.
Qed.

(** The time invariants, from any series that ends at the bucket of the
    previous tick. *)
Lemma runTicks_times_from (periodSec : Z) (ticks : list (Z * N)) :
  (0 < periodSec)%Z ->
  forall (s : list (Candle N)) (t0 : Z) (l : list Z),
  times s = l ++ [bucket_of periodSec t0] ->
  adjacent Z.lt (times s) ->
  Forall (Z.divide (periodSec * 1000)) (times s) ->
  adjacent Z.le (t0 :: map fst ticks) ->
  let s' := runTicks periodSec s ticks in
  adjacent Z.lt (times s') /\
  Forall (Z.divide (periodSec * 1000)) (times s') /\
  (adjacent (fun a b => b = a + periodSec * 1000)%Z (times s) ->
   adjacent (fun a b => b - a <= periodSec * 1000)%Z (t0 :: map fst ticks) ->
   adjacent (fun a b => b = a + periodSec * 1000)%Z (times s')).
Proof.
  intros HT. induction ticks as [|[now p] ticks IH]; intros s t0 l E Hlt Hdiv Hsorted.
  - simpl. auto.
  - simpl in Hsorted. destruct Hsorted as [Hle Hsorted].
    destruct (tickCandles_times_step s periodSec p t0 now l HT Hle E) as (k & l' & E' & Hcase).
    unfold runTicks. simpl fold_left. fold (runTicks periodSec (tickCandles s periodSec p now) ticks).
    assert (Hlt' : adjacent Z.lt (times (tickCandles s periodSec p now))).
    { destruct Hcase as [[_ ->] | [Hb ->]].
      - now apply adjacent_skipn.
      - apply adjacent_skipn. rewrite E. apply adjacent_snoc; [now rewrite <- E | exact Hb]. }
    assert (Hdiv' : Forall (Z.divide (periodSec * 1000)) (times (tickCandles s periodSec p now))).
    { destruct Hcase as [[_ ->] | [_ ->]]; apply Forall_skipn_Z; [exact Hdiv|].
      apply Forall_app. split; [exact Hdiv|]. constructor; [apply bucket_of_divide | constructor]. }
    destruct (IH _ _ _ E' Hlt' Hdiv' Hsorted) as (R1 & R2 & R3).
    split; [exact R1|]. split; [exact R2|].
    intros Hsp Hdense. simpl in Hdense. destruct Hdense as [Hd Hdense].
    apply R3; [|exact Hdense].
    destruct Hcase as [[_ ->] | [Hb ->]]; apply adjacent_skipn; [exact Hsp|].
    rewrite E. apply adjacent_snoc; [now rewrite <- E|].
    destruct (bucket_of_next periodSec t0 now HT Hle Hd) as [Hn|Hn]; lia.
Qed.

End AggregatorTimes.

Section AggregatorClaims.
Context {N : Type} `{JsNum N}.

Lemma length_tick_update (candles : list (Candle N)) (periodSec : Z) (p : N)
  (now : Z) :
  (length (tick_update candles periodSec p now) <= length candles + 1)%nat.
Proof.
  destruct candles as [|c l _] using rev_ind; [simpl; lia|].
  destruct (Z.eq_dec (time c) (bucket_of periodSec now)) as [E|E].
  - rewrite tick_update_same by exact E. rewrite !length_app. simpl. lia.
  - rewrite tick_update_new by exact E. rewrite !length_app. simpl. lia.
Qed.




End AggregatorClaims.

(** C1 (the code breaks it): on an empty one-minute series, a tick at
    price 100 followed by a tick at price 90 in the next minute gives a
    second candle with open 100 and high = low = close = 90, so its high is
    below max(open, close). *)
Example tickCandles_open_above_high :
  let s := runTicks 60 [] [(0%Z, 100%float); (60000%Z, 90%float)] in
  s = [mkCandle 0 100%float 100%float 100%float 100%float;
       mkCandle 60000 100%float 90%float 90%float 90%float] /\
  map candle_ok s = [true; false].
Proof. vm_compute. split; reflexivity. Qed.







(** * Properties of the tick generator *)

(** binary64 comparisons read on the specification of the number. *)
Lemma is_nan_spec (x : float) :
  PrimFloat.is_nan x = negb (SFeqb (Prim2SF x) (Prim2SF x)).
Proof. unfold PrimFloat.is_nan. now rewrite FloatAxioms.eqb_spec. Qed.

Lemma is_finite_spec (x : float) :
  PrimFloat.is_finite x = true ->
  exists s, Prim2SF x = S754_zero s \/ exists m e, Prim2SF x = S754_finite s m e.
Proof.
  unfold PrimFloat.is_finite, PrimFloat.is_infinity.
  rewrite is_nan_spec, FloatAxioms.eqb_spec, FloatAxioms.abs_spec.
  destruct (Prim2SF x) as [s|s| |s m e]; intros Hfin.
  - exists s. now left.
  - exfalso. revert Hfin. destruct s; vm_compute; discriminate.
  - exfalso. revert Hfin. vm_compute. discriminate.
  - exists s. right. now exists m, e.
Qed.

Lemma finite_not_le_zero_pos (x : float) :
  PrimFloat.is_finite x = true ->
  PrimFloat.leb x PrimFloat.zero = false ->
  PrimFloat.ltb PrimFloat.zero x = true.
Proof.
  intros Hfin Hle. rewrite FloatAxioms.leb_spec in Hle. rewrite FloatAxioms.ltb_spec.
  destruct (is_finite_spec x Hfin) as [s [E | (m & e & E)]]; rewrite E in *.
  - destruct s; vm_compute in Hle; discriminate Hle.
  - destruct s; [vm_compute in Hle; discriminate Hle | reflexivity].
Qed.

(** C7: when the previous price is finite and strictly positive, the price
    of the next step is finite and strictly positive, whatever
    [Math.random()] returned. *)
Theorem nextPrice_finite_positive (prev u : float) :
  PrimFloat.is_finite prev = true ->
  PrimFloat.ltb 0%float prev = true ->
  PrimFloat.is_finite (nextPrice prev u) = true /\
  PrimFloat.ltb 0%float (nextPrice prev u) = true.
Proof.
  intros Hfin Hpos. unfold nextPrice.
  set (x := (prev * (nofZ 1 + (u - nlit (5 # 10)) * nofZ 2 * nlit (8 # 10000)))%js).
  change (nisFinite x) with (PrimFloat.is_finite x).
  change (x <=? nofZ 0)%js with (PrimFloat.leb x PrimFloat.zero).
  destruct (PrimFloat.is_finite x) eqn:Hx; simpl; [|now split].
  destruct (PrimFloat.leb x PrimFloat.zero) eqn:Hle; [now split|].
  split; [exact Hx|]. now apply finite_not_le_zero_pos.
Qed.

Lemma nextPrice_finite_positive_witness :
  PrimFloat.is_finite 64000%float = true /\
  PrimFloat.ltb 0%float 64000%float = true /\
  PrimFloat.ltb 0%float (nextPrice 64000%float 0.75%float) = true.
Proof.
  split; [reflexivity|]. split; [reflexivity|].
  apply (nextPrice_finite_positive 64000%float 0.75%float); reflexivity.
Defined.


(** * Properties of the indicator library *)

Lemma range_incl_length (a b : Z) :
  length (range_incl a b) = Z.to_nat (b - a + 1).
Proof. unfold range_incl. now rewrite length_map, length_seq. Qed.

Lemma range_incl_bounds (a b : Z) :
  Forall (fun i => a <= i <= b)%Z (range_incl a b).
Proof.
  unfold range_incl. apply Forall_forall. intros i Hi.
  apply in_map_iff in Hi. destruct Hi as (k & <- & Hk).
  apply in_seq in Hk. lia.
Qed.

Lemma range_incl_empty (a b : Z) : (b < a)%Z -> range_incl a b = [].
Proof.
  intros Hab. unfold range_incl.
  replace (Z.to_nat (b - a + 1)) with 0%nat by lia. reflexivity.
Qed.

Lemma range_incl_snoc (a b : Z) :
  (a <= b + 1)%Z -> range_incl a (b + 1) = range_incl a b ++ [(b + 1)%Z].
Proof.
  intros Hab. unfold range_incl.
  replace (Z.to_nat (b + 1 - a + 1)) with (Z.to_nat (b - a + 1) + 1)%nat by lia.
  rewrite seq_app, map_app. simpl. f_equal. f_equal. lia.
Qed.

(** A loop whose body pushes one entry to the result array [r st] at each
    index where [Q] holds has pushed one entry per iteration, and the
    pushed entries satisfy [P]. *)
Lemma fold_pushes {S X : Type} (r : S -> list X) (P : X -> Prop)
  (Q : Z -> Prop) (body : Z -> S -> S) :
  (forall i st, Q i -> exists x, r (body i st) = r st ++ [x] /\ P x) ->
  forall (l : list Z) (st : S), Forall Q l ->
  length (r (fold_left (fun s i => body i s) l st)) = (length (r st) + length l)%nat /\
  (Forall P (r st) -> Forall P (r (fold_left (fun s i => body i s) l st))).
Proof.
  intros Hbody. induction l as [|i l IH]; intros st Hl.
  - simpl. split; [lia | tauto].
  - inversion Hl as [|? ? Hi Hl']; subst. simpl fold_left.
    destruct (Hbody i st Hi) as (x & Ex & Px).
    destruct (IH (body i st) Hl') as [IHlen IHall].
    split.
    + rewrite IHlen, Ex, length_app. simpl. lia.
    + intros Hst. apply IHall. rewrite Ex. apply Forall_app. split; [exact Hst|].
      constructor; [exact Px | constructor].
Qed.

Lemma for_loop_pushes {S X : Type} (r : S -> list X) (P : X -> Prop)
  (body : Z -> S -> S) (n : Z) (st : S) :
  (forall i st, (0 <= i <= n - 1)%Z -> exists x, r (body i st) = r st ++ [x] /\ P x) ->
  r st = [] ->
  length (r (for_loop 0 (n - 1) body st)) = Z.to_nat n /\
  Forall P (r (for_loop 0 (n - 1) body st)).
Proof.
  intros Hbody Hst. unfold for_loop.
  destruct (fold_pushes r P (fun i => 0 <= i <= n - 1)%Z body Hbody
              (range_incl 0 (n - 1)) st (range_incl_bounds 0 (n - 1))) as [Hlen Hall].
  split.
  - rewrite Hlen, Hst, range_incl_length. simpl. lia.
  - apply Hall. rewrite Hst. constructor.
Qed.

Section IndicatorShape.
Context {N : Type} `{JsNum N}.

Lemma len_to_nat (data : list N) : Z.to_nat (len data) = length data.
Proof. unfold len. lia. Qed.

Lemma calcSMA_nonpositive_period (data : list N) (period : Z) :
  (period <= 0)%Z ->
  length (calcSMA data period) = length data /\
  Forall is_number (calcSMA data period).
Proof.
  intros Hp. unfold calcSMA. rewrite <- (len_to_nat data).
  apply (for_loop_pushes (fun r : list (option N) => r)); [|reflexivity].
  intros i r Hi.
  destruct (i <? period - 1)%Z eqn:E; [apply Z.ltb_lt in E; lia|].
  eexists. split; [reflexivity | discriminate].
Qed.

Lemma calcEMA_nonpositive_period (data : list N) (period : Z) :
  (period <= 0)%Z ->
  length (calcEMA data period) = length data /\
  Forall is_number (calcEMA data period).
Proof.
  intros Hp. unfold calcEMA. rewrite <- (len_to_nat data).
  apply (for_loop_pushes (@fst (list (option N)) (option N))); [|reflexivity].
  intros i [r ema] Hi.
  destruct (i <? period - 1)%Z eqn:E; [apply Z.ltb_lt in E; lia|].
  eexists. split; [reflexivity | discriminate].
Qed.

Lemma calcRSI_nonpositive_period (data : list N) (period : Z) :
  (period <= 0)%Z ->
  length (calcRSI data period) = length data /\
  Forall is_number (calcRSI data period).
Proof.
  intros Hp. unfold calcRSI.
  destruct (len data <? period + 1)%Z eqn:E.
  - apply Z.ltb_lt in E. destruct data as [|x data]; [split; [reflexivity | constructor]|].
    unfold len in E. simpl length in E. lia.
  - destruct (rsi_seed data period) as [ag al].
    rewrite <- (len_to_nat data).
    apply (for_loop_pushes (fun st : list (option N) * N * N => fst (fst st)));
      [|reflexivity].
    intros i [[r ag'] al'] Hi. unfold rsi_step.
    destruct (i <? period)%Z eqn:E1; [apply Z.ltb_lt in E1; lia|].
    destruct (i =? period)%Z; eexists; (split; [reflexivity | discriminate]).
Qed.

End IndicatorShape.

Lemma entry_of_numbers (r : list (option float)) (i : Z) :
  Forall is_number r -> exists m, entry r i = Some m.
Proof.
  intros Hr. unfold entry. destruct (i <? 0)%Z; [now eexists|].
  destruct (nth_in_or_default (Z.to_nat i) r (Some PrimFloat.nan)) as [Hin | ->];
    [|now eexists].
  rewrite Forall_forall in Hr. specialize (Hr _ Hin).
  destruct (nth (Z.to_nat i) r (Some PrimFloat.nan)) as [m|]; [now eexists|].
  now elim Hr.
Qed.

Lemma calcBollinger_nonpositive_period (data : list float) (period : Z)
  (mult : float) :
  (period <= 0)%Z ->
  let b := calcBollinger data period mult in
  (length (mid b) = length data /\ Forall is_number (mid b)) /\
  (length (upper b) = length data /\ Forall is_number (upper b)) /\
  (length (lower b) = length data /\ Forall is_number (lower b)).
Proof.
  intros Hp b. unfold b, calcBollinger. cbn [mid upper lower].
  pose proof (calcSMA_nonpositive_period data period Hp) as [Hlen Hmid].
  split; [now split|].
  rewrite <- (len_to_nat data).
  split.
  - apply (for_loop_pushes (@fst (list (option float)) (list (option float))));
      [|reflexivity].
    intros i [u l] Hi. destruct (entry_of_numbers _ i Hmid) as [m ->].
    eexists. split; [reflexivity | discriminate].
  - apply (for_loop_pushes (@snd (list (option float)) (list (option float))));
      [|reflexivity].
    intros i [u l] Hi. destruct (entry_of_numbers _ i Hmid) as [m ->].
    eexists. split; [reflexivity | discriminate].
Qed.

(** C6, as amended: with a zero or negative period each indicator function
    returns a series of the same length as the input, and every entry of
    it is a number (possibly NaN), never the sentinel. *)
Theorem indicators_nonpositive_period (data : list float) (period : Z)
  (mult : float) :
  (period <= 0)%Z ->
  (length (calcSMA data period) = length data /\
   Forall is_number (calcSMA data period)) /\
  (length (calcEMA data period) = length data /\
   Forall is_number (calcEMA data period)) /\
  (length (calcRSI data period) = length data /\
   Forall is_number (calcRSI data period)) /\
  let b := calcBollinger data period mult in
  (length (mid b) = length data /\ Forall is_number (mid b)) /\
  (length (upper b) = length data /\ Forall is_number (upper b)) /\
  (length (lower b) = length data /\ Forall is_number (lower b)).
Proof.
  intros Hp.
  split; [now apply calcSMA_nonpositive_period|].
  split; [now apply calcEMA_nonpositive_period|].
  split; [now apply calcRSI_nonpositive_period|].
  now apply calcBollinger_nonpositive_period.
Qed.

Lemma indicators_nonpositive_period_witness :
  (0 <= 0)%Z /\
  length (calcSMA [1; 2; 3]%float 0) = 3%nat /\
  Forall is_number (calcSMA [1; 2; 3]%float 0).
Proof.
  split; [lia|].
  destruct (indicators_nonpositive_period [1; 2; 3]%float 0 2%float) as [HS _];
    [lia | exact HS].
Defined.

(** C6 fails as stated: with period 0 or a negative period the entries
    are numbers (NaN, -0, ...), not the sentinel. *)
Lemma indicators_nonpositive_period_counterexample :
  calcSMA [1; 2; 3]%float 0 = [Some nan; Some nan; Some nan] /\
  calcSMA [1; 2; 3]%float (-2) = [Some (-0)%float; Some (-0)%float; Some (-0)%float] /\
  calcEMA [1; 2; 3]%float 0 = [Some nan; Some nan; Some nan] /\
  calcRSI [1; 2; 3]%float 0 = [Some nan; Some nan; Some nan] /\
  calcRSI [1; 2; 3]%float (-1) =
    [Some (100 - 100 / 101)%float; Some (100 - 100 / 101)%float;
     Some (100 - 100 / 101)%float] /\
  upper (calcBollinger [1; 2; 3]%float 0 2%float) = [Some nan; Some nan; Some nan].
Proof. vm_compute. repeat split. Qed.

(** C5 (the code breaks it): where the smoothed average loss is zero the
    code takes RS = 100 and returns 100 - 100/101 = 99.0099..., not 100;
    so it does on the strictly increasing series 1, 2, 3 with period 2. *)
Theorem calcRSI_zero_loss_value :
  (forall ag al : float,
     PrimFloat.eqb al 0%float = true ->
     rsi_value ag al = (100 - 100 / 101)%float) /\
  calcRSI [1; 2; 3]%float 2 = [None; None; Some (100 - 100 / 101)%float] /\
  PrimFloat.ltb (100 - 100 / 101)%float 100%float = true.
Proof.
  split; [|split; vm_compute; reflexivity].
  intros ag al E. unfold rsi_value.
  change (al === nofZ 0)%js with (PrimFloat.eqb al 0%float). rewrite E.
  vm_compute. reflexivity.
Qed.


(** * Properties of the viewport engine *)

Lemma visibleCount_valid (zoomIndex : nat) :
  (zoomIndex < length ZOOM_LEVELS)%nat ->
  exists vc, visibleCount zoomIndex = Some vc /\ (20 <= vc <= 200)%Z.
Proof.
  intros Hz. unfold visibleCount.
  do 7 (destruct zoomIndex as [|zoomIndex];
        [eexists; split; [reflexivity | lia]|]).
  simpl in Hz. lia.
Qed.

(** [slice(a, b)] for indices in order inside the array. *)
Lemma js_slice_length {A : Type} (arr : list A) (a b : Z) :
  (0 <= a <= b)%Z -> (b <= Z.of_nat (length arr))%Z ->
  Z.of_nat (length (js_slice arr a b)) = (b - a)%Z.
Proof.
  intros Hab Hb. unfold js_slice.
  destruct (a <? 0)%Z eqn:Ea; [apply Z.ltb_lt in Ea; lia|].
  destruct (b <? 0)%Z eqn:Eb; [apply Z.ltb_lt in Eb; lia|].
  rewrite length_firstn, length_skipn. lia.
Qed.

(** The zoom index never leaves the list and the scroll offset never
    becomes negative. *)
Lemma reachable_valid (s : NavState) :
  reachable s ->
  (zoomIndex s < length ZOOM_LEVELS)%nat /\ (0 <= scrollOffset s)%Z.
Proof.
  induction 1 as [|s a total vc Hs [IHz IHs] Hvc].
  - simpl. lia.
  - change (length ZOOM_LEVELS) with 7%nat in *.
    destruct a; unfold nav, scrollBy, maxOffset, handleZoomIn, handleZoomOut;
      cbn [zoomIndex scrollOffset]; change (length ZOOM_LEVELS) with 7%nat; lia.
Qed.

(** C8: for a valid zoom index, a scroll offset that is not negative and a
    series of any length, the effective offset min(scrollOffset, maxOffset)
    is clamp(scrollOffset, 0, maxOffset), lies between 0 and maxOffset, and
    the visible slice has exactly min(visibleCount, totalCandles)
    candles. *)
Theorem viewport_invariant {A : Type} (candles : list A) (zoomIndex : nat)
  (scrollOffset : Z) :
  (zoomIndex < length ZOOM_LEVELS)%nat ->
  (0 <= scrollOffset)%Z ->
  exists vc,
    visibleCount zoomIndex = Some vc /\
    let totalCandles := Z.of_nat (length candles) in
    let mo := maxOffset totalCandles vc in
    let eo := clampedOffset scrollOffset mo in
    eo = Z.max 0 (Z.min scrollOffset mo) /\
    (0 <= eo <= mo)%Z /\
    Z.of_nat (length (displayCandles candles vc eo)) = Z.min vc totalCandles.
Proof.
  intros Hz Hs. destruct (visibleCount_valid zoomIndex Hz) as (vc & Hvc & Hrange).
  exists vc. split; [exact Hvc|]. cbv zeta.
  unfold clampedOffset, maxOffset. split; [lia|]. split; [lia|].
  unfold displayCandles. rewrite js_slice_length; lia.
Qed.

Lemma viewport_invariant_witness :
  (4 < length ZOOM_LEVELS)%nat /\ (0 <= 1000000)%Z /\
  exists vc,
    visibleCount 4 = Some vc /\
    clampedOffset 1000000 (maxOffset 500 vc) = 400%Z /\
    length (displayCandles (repeat tt 500) vc 400) = 100%nat.
Proof.
  split; [simpl; lia|]. split; [lia|].
  destruct (viewport_invariant (repeat tt 500) 4 1000000) as (vc & Hvc & _);
    [simpl; lia | lia |].
  exists vc. split; [exact Hvc|].
  injection Hvc as <-. split; reflexivity.
Defined.




(** * Properties of the price axis *)

(** In exact arithmetic [x || 1] is [x] unless [x] is zero. *)
Lemma or_one_Q (x : Q) : or_one x = if Qeq_bool x 0 then 1%Q else x.
Proof.
  unfold or_one. cbn [nseq nofZ Q_num].
  rewrite (proj2 (Qeq_bool_iff x x) (Qeq_refl x)).
  change (inject_Z 0) with 0%Q. destruct (Qeq_bool x 0); reflexivity.
Qed.




(** With positive prices the degenerate case does not arise: hi is above
    lo. *)
Lemma fold_Qmax_ge (t : list Q) (x : Q) : x <= fold_left Qmax t x.
Proof.
  revert x. induction t as [|y t IH]; intros x; simpl; [lra|].
  eapply Qle_trans; [apply (Q.le_max_l x y) | apply IH].
Qed.

Lemma fold_Qmin_le (t : list Q) (x : Q) : fold_left Qmin t x <= x.
Proof.
  revert x. induction t as [|y t IH]; intros x; simpl; [lra|].
  eapply Qle_trans; [apply IH | apply Q.le_min_l].
Qed.

Lemma fold_Qmin_pos (t : list Q) (x : Q) :
  0 < x -> Forall (fun y => 0 < y) t -> 0 < fold_left Qmin t x.
Proof.
  revert x. induction t as [|y t IH]; intros x Hx Ht; simpl; [exact Hx|].
  inversion Ht as [|? ? Hy Ht']; subst. apply IH; [|exact Ht'].
  apply Q.min_glb_lt; assumption.
Qed.

Lemma price_hi_above_lo (prices : list Q) :
  prices <> [] -> Forall (fun y => 0 < y) prices ->
  price_lo prices < price_hi prices.
Proof.
  intros Hne Hpos. destruct prices as [|x t]; [now elim Hne|].
  inversion Hpos as [|? ? Hx Ht]; subst.
  unfold price_hi, price_lo, max_of, min_of. cbn [nmul nlit nmax nmin Q_num].
  pose proof (fold_Qmax_ge t x) as Hmax.
  pose proof (fold_Qmin_le t x) as Hmin.
  pose proof (fold_Qmin_pos t x Hx Ht) as Hmpos.
  set (hi := fold_left Qmax t x) in *. set (lo := fold_left Qmin t x) in *.
  assert (E1 : lo * (999 # 1000) < lo) by lra.
  assert (E2 : hi <= hi * (1001 # 1000)) by lra.
  lra.
Qed.




(** * Rounding of binary64 operations

    What the bounds on the RSI need of the correctly rounded operations,
    derived from their specification [SpecFloat]: the sign of a result and
    two facts on magnitudes (a value that is at least a power of two is not
    rounded below it, and a value that is at most a number of the format
    is not rounded above it). *)

Section Rounding.
Local Open Scope Z_scope.

Lemma fexp_eq (x : Z) : fexp prec emax x = Z.max (x - 53) (-1074).
Proof. reflexivity. Qed.

Lemma digits2_pos_size (p : positive) : digits2_pos p = Pos.size p.
Proof. induction p as [p IH|p IH|]; simpl; now rewrite ?IH. Qed.

Lemma digits2_pos_bounds (p : positive) :
  2 ^ (Zpos (digits2_pos p) - 1) <= Zpos p < 2 ^ Zpos (digits2_pos p).
Proof.
  rewrite digits2_pos_size.
  pose proof (Pos.size_gt p) as Hgt. pose proof (Pos.size_le p) as Hle.
  apply Pos2Z.pos_lt_pos in Hgt. apply Pos2Z.pos_le_pos in Hle.
  rewrite Pos2Z.inj_pow in Hgt, Hle.
  change (Zpos p~0) with (2 * Zpos p) in Hle.
  replace (Zpos (Pos.size p)) with (Zpos (Pos.size p) - 1 + 1) in Hle at 1 by lia.
  rewrite Z.pow_add_r in Hle by lia. change (2 ^ 1) with 2 in Hle. lia.
Qed.

(** The number of binary digits decides between which powers of two a
    positive integer lies. *)
Lemma Zdigits2_bounds (m : Z) :
  0 < m -> 2 ^ (Zdigits2 m - 1) <= m < 2 ^ Zdigits2 m.
Proof. destruct m as [|p|p]; try lia. intros _. apply digits2_pos_bounds. Qed.

Lemma Zdigits2_pos (m : Z) : 0 < m -> 0 < Zdigits2 m.
Proof. destruct m; simpl; lia. Qed.

Lemma Zdigits2_le_of_lt_pow (m k : Z) : 0 < m -> 0 <= k -> m < 2 ^ k -> Zdigits2 m <= k.
Proof.
  intros Hm Hk Hlt. pose proof (Zdigits2_bounds m Hm) as [Hlo _].
  pose proof (Zdigits2_pos m Hm).
  destruct (Z_le_gt_dec (Zdigits2 m) k) as [|Hgt]; [assumption|].
  assert (2 ^ k <= 2 ^ (Zdigits2 m - 1)) by (apply Z.pow_le_mono_r; lia). lia.
Qed.

Lemma Zdigits2_ge_of_pow_le (m k : Z) : 0 < m -> 0 <= k -> 2 ^ k <= m -> k + 1 <= Zdigits2 m.
Proof.
  intros Hm Hk Hle. pose proof (Zdigits2_bounds m Hm) as [_ Hhi].
  pose proof (Zdigits2_pos m Hm).
  destruct (Z_le_gt_dec (k + 1) (Zdigits2 m)) as [|Hgt]; [assumption|].
  assert (2 ^ Zdigits2 m <= 2 ^ k) by (apply Z.pow_le_mono_r; lia). lia.
Qed.

(** [iter_pos] is iteration. *)
Lemma iter_pos_iter {A : Type} (f : A -> A) (p : positive) (x : A) :
  iter_pos f p x = Pos.iter f x p.
Proof.
  revert x. induction p as [p IH|p IH|]; intros x; simpl.
  - rewrite !IH. now rewrite <- !Pos.iter_swap.
  - now rewrite !IH.
  - reflexivity.
Qed.

(** Shifting a record to the right by one and by [p] bits. *)
Lemma shr_1_m (mrs : shr_record) :
  0 <= shr_m mrs -> shr_m (shr_1 mrs) = shr_m mrs / 2 /\ 0 <= shr_m (shr_1 mrs).
Proof.
  destruct mrs as [m r s]. simpl. intros Hm.
  rewrite <- Z.div2_div.
  destruct m as [|[p|p|]|p]; simpl; lia.
Qed.

Lemma shr_1_exact (mrs : shr_record) :
  0 <= shr_m mrs -> shr_exact mrs -> shr_m mrs mod 2 = 0 -> shr_exact (shr_1 mrs).
Proof.
  destruct mrs as [m r s]. unfold shr_exact. simpl. intros Hm [-> ->] Hev.
  destruct m as [|[p|p|]|p]; simpl; try (split; reflexivity); try lia.
  - exfalso. rewrite Pos2Z.inj_xI in Hev.
    rewrite Z.add_comm, Z.mul_comm, Z.mod_add in Hev by lia. discriminate Hev.
  - discriminate Hev.
Qed.

Lemma shr_iter (mrs : shr_record) (p : positive) :
  0 <= shr_m mrs ->
  let mrs' := iter_pos shr_1 p mrs in
  shr_m mrs' = shr_m mrs / 2 ^ Zpos p /\
  (shr_exact mrs -> shr_m mrs mod 2 ^ Zpos p = 0 -> shr_exact mrs').
Proof.
  intros Hm. cbv zeta. rewrite iter_pos_iter.
  assert (Hgen : 0 <= shr_m (Pos.iter shr_1 mrs p) /\
                 shr_m (Pos.iter shr_1 mrs p) = shr_m mrs / 2 ^ Zpos p /\
                 (shr_exact mrs -> shr_m mrs mod 2 ^ Zpos p = 0 ->
                  shr_exact (Pos.iter shr_1 mrs p))).
  { apply (Pos.iter_ind _ shr_1 mrs
             (fun p a => 0 <= shr_m a /\ shr_m a = shr_m mrs / 2 ^ Zpos p /\
                         (shr_exact mrs -> shr_m mrs mod 2 ^ Zpos p = 0 -> shr_exact a))).
    - destruct (shr_1_m mrs Hm) as [E1 E2]. split; [exact E2|]. split.
      + now rewrite E1.
      + intros Hex Hmod. apply shr_1_exact; assumption.
    - intros q a (Ha & Ea & Hexa).
      destruct (shr_1_m a Ha) as [E1 E2]. split; [exact E2|].
      assert (Hpow : 2 ^ Zpos (Pos.succ q) = 2 ^ Zpos q * 2)
        by (rewrite Pos2Z.inj_succ, Z.pow_succ_r; lia).
      split.
      + rewrite E1, Ea, Hpow. rewrite Z.div_div by lia. reflexivity.
      + intros Hex Hmod. rewrite Hpow in Hmod.
        assert (H2q : 0 < 2 ^ Zpos q) by (apply Z.pow_pos_nonneg; lia).
        apply Z.mod_divide in Hmod; [|lia]. destruct Hmod as [k Hk].
        assert (Hq : shr_m mrs mod 2 ^ Zpos q = 0).
        { apply Z.mod_divide; [lia|]. exists (k * 2). lia. }
        apply shr_1_exact; [exact Ha | now apply Hexa |].
        rewrite Ea, Hk.
        replace (k * (2 ^ Zpos q * 2)) with (k * 2 * 2 ^ Zpos q) by lia.
        rewrite Z.div_mul by lia. apply Z.mod_mul. lia. }
  destruct Hgen as (_ & E & Hex). split; assumption.
Qed.


Lemma loc_of_shr_record_of_loc (m : Z) (l : location) :
  loc_of_shr_record (shr_record_of_loc m l) = l.
Proof. destruct l as [|[]]; reflexivity. Qed.

Lemma shr_m_record_of_loc (m : Z) (l : location) :
  shr_m (shr_record_of_loc m l) = m.
Proof. destruct l as [|[]]; reflexivity. Qed.

Lemma loc_of_shr_exact (mrs : shr_record) :
  shr_exact mrs -> loc_of_shr_record mrs = loc_Exact.
Proof. destruct mrs as [m r s]. intros [Hr Hs]. simpl in *. now subst. Qed.

(** The first step of rounding: the mantissa is cut to the exponent
    [fexp (digits + e)] when that is above [e]. *)
Lemma shr_fexp_spec (m e : Z) (l : location) :
  0 <= m ->
  let n := Z.max 0 (fexp prec emax (Zdigits2 m + e) - e) in
  snd (shr_fexp prec emax m e l) = e + n /\
  shr_m (fst (shr_fexp prec emax m e l)) = m / 2 ^ n /\
  (l = loc_Exact -> m mod 2 ^ n = 0 ->
   loc_of_shr_record (fst (shr_fexp prec emax m e l)) = loc_Exact).
Proof.
  intros Hm n. unfold shr_fexp, shr. subst n.
  destruct (fexp prec emax (Zdigits2 m + e) - e) as [|p|p] eqn:En.
  - change (Z.max 0 0) with 0. rewrite Z.pow_0_r, Z.div_1_r, Z.add_0_r.
    cbn [fst snd]. rewrite shr_m_record_of_loc, loc_of_shr_record_of_loc. auto.
  - replace (Z.max 0 (Zpos p)) with (Zpos p) by lia. cbn [fst snd].
    assert (Hm' : 0 <= shr_m (shr_record_of_loc m l))
      by now rewrite shr_m_record_of_loc.
    destruct (shr_iter (shr_record_of_loc m l) p Hm') as [E Hex].
    rewrite shr_m_record_of_loc in E, Hex.
    split; [reflexivity|]. split; [exact E|].
    intros -> Hmod. apply loc_of_shr_exact. apply Hex; [split; reflexivity | exact Hmod].
  - replace (Z.max 0 (Zneg p)) with 0 by lia.
    rewrite Z.pow_0_r, Z.div_1_r, Z.add_0_r.
    cbn [fst snd]. rewrite shr_m_record_of_loc, loc_of_shr_record_of_loc. auto.
Qed.

Lemma round_nearest_even_bounds (m : Z) (l : location) :
  m <= round_nearest_even m l <= m + 1.
Proof. destruct l as [|[]]; simpl; try destruct (Z.even m); lia. Qed.

(** Rounding a non-negative mantissa: cut, round to nearest, cut again if
    the rounding produced one more digit, check the exponent range. *)
Lemma binary_round_aux_spec (m e : Z) (l : location) :
  0 <= m ->
  let n1 := Z.max 0 (fexp prec emax (Zdigits2 m + e) - e) in
  exists mr : Z,
    m / 2 ^ n1 <= mr <= m / 2 ^ n1 + 1 /\
    (l = loc_Exact -> m mod 2 ^ n1 = 0 -> mr = m / 2 ^ n1) /\
    let n2 := Z.max 0 (fexp prec emax (Zdigits2 mr + (e + n1)) - (e + n1)) in
    binary_round_aux prec emax false m e l =
    match mr / 2 ^ n2 with
    | Z0 => S754_zero false
    | Zpos p =>
        if e + n1 + n2 <=? emax - prec then S754_finite false p (e + n1 + n2)
        else S754_infinity false
    | Zneg _ => S754_nan
    end.
Proof.
  intros Hm n1. unfold binary_round_aux.
  destruct (shr_fexp_spec m e l Hm) as (E1 & M1 & X1). fold n1 in E1, M1, X1.
  destruct (shr_fexp prec emax m e l) as [mrs' e'] eqn:S1. cbn [fst snd] in E1, M1, X1.
  set (mr := round_nearest_even (shr_m mrs') (loc_of_shr_record mrs')).
  pose proof (round_nearest_even_bounds (shr_m mrs') (loc_of_shr_record mrs')) as Hmr.
  fold mr in Hmr. rewrite M1 in Hmr.
  assert (Hdiv : 0 <= m / 2 ^ n1)
    by (apply Z.div_pos; [exact Hm | apply Z.pow_pos_nonneg; lia]).
  assert (Hmr0 : 0 <= mr) by lia.
  exists mr. split; [exact Hmr|]. split.
  - intros Hl Hmod. unfold mr. rewrite (X1 Hl Hmod). simpl. exact M1.
  - cbv zeta. destruct (shr_fexp_spec mr e' loc_Exact Hmr0) as (E2 & M2 & _).
    destruct (shr_fexp prec emax mr e' loc_Exact) as [mrs'' e''] eqn:S2.
    cbn [fst snd] in E2, M2. subst e'. rewrite M2, E2. reflexivity.
Qed.

Lemma scaled_le_base (b m1 e1 m2 e2 : Z) :
  b <= e1 -> b <= e2 ->
  (scaled_le m1 e1 m2 e2 <-> m1 * 2 ^ (e1 - b) <= m2 * 2 ^ (e2 - b)).
Proof.
  intros H1 H2. unfold scaled_le. set (c := Z.min e1 e2).
  assert (Hc : 0 < 2 ^ (c - b)) by (apply Z.pow_pos_nonneg; lia).
  replace (e1 - b) with ((e1 - c) + (c - b)) by lia.
  replace (e2 - b) with ((e2 - c) + (c - b)) by lia.
  rewrite !Z.pow_add_r by lia. rewrite !Z.mul_assoc.
  split; intros Hle.
  - apply Z.mul_le_mono_nonneg_r; lia.
  - apply Z.mul_le_mono_pos_r in Hle; lia.
Qed.

Lemma scaled_le_at (b m1 e1 m2 e2 : Z) :
  b <= e1 -> b <= e2 -> scaled_le m1 e1 m2 e2 ->
  m1 * 2 ^ (e1 - b) <= m2 * 2 ^ (e2 - b).
Proof. intros H1 H2. now apply scaled_le_base. Qed.

Lemma scaled_le_from (b m1 e1 m2 e2 : Z) :
  b <= e1 -> b <= e2 -> m1 * 2 ^ (e1 - b) <= m2 * 2 ^ (e2 - b) ->
  scaled_le m1 e1 m2 e2.
Proof. intros H1 H2. now apply scaled_le_base. Qed.

Lemma scaled_le_trans (m1 e1 m2 e2 m3 e3 : Z) :
  scaled_le m1 e1 m2 e2 -> scaled_le m2 e2 m3 e3 -> scaled_le m1 e1 m3 e3.
Proof.
  intros H12 H23. set (b := Z.min e1 (Z.min e2 e3)).
  apply (scaled_le_at b) in H12; [|lia|lia].
  apply (scaled_le_at b) in H23; [|lia|lia].
  apply (scaled_le_from b); lia.
Qed.

Lemma pow2_pos (n : Z) : 0 <= n -> 0 < 2 ^ n.
Proof. intros Hn. apply Z.pow_pos_nonneg; lia. Qed.

Lemma pow2_split (a b : Z) : 0 <= a -> 0 <= b -> 2 ^ (a + b) = 2 ^ a * 2 ^ b.
Proof. intros Ha Hb. apply Z.pow_add_r; assumption. Qed.

Lemma div_pow2_lower (x j n : Z) :
  0 <= n <= j -> 2 ^ j <= x -> 2 ^ (j - n) <= x / 2 ^ n.
Proof.
  intros Hn Hx. apply Z.div_le_lower_bound; [apply pow2_pos; lia|].
  rewrite <- pow2_split by lia. now replace (n + (j - n)) with j by lia.
Qed.

Lemma div_pow2_upper (x c n : Z) :
  0 <= n -> x <= c * 2 ^ n -> x / 2 ^ n <= c.
Proof.
  intros Hn Hx. pose proof (pow2_pos n Hn) as Hp.
  apply Z.div_le_upper_bound; [exact Hp|]. lia.
Qed.

(** The cut exponent stays below the exponent [E] of a bound [G * 2^E]
    with [G] of at most 53 digits. *)
Lemma fexp_below_bound (m e G E : Z) :
  0 <= m -> e <= E -> -1074 <= E -> 0 < G < 2 ^ 53 ->
  m <= G * 2 ^ (E - e) ->
  e + Z.max 0 (fexp prec emax (Zdigits2 m + e) - e) <= E.
Proof.
  intros Hm HeE HE HG Hle. rewrite fexp_eq.
  destruct (Z.eq_dec m 0) as [->|Hm0]; [simpl; lia|].
  assert (Hlt : m < 2 ^ (53 + (E - e))).
  { rewrite pow2_split by lia. pose proof (pow2_pos (E - e)). nia. }
  pose proof (Zdigits2_le_of_lt_pow m (53 + (E - e))). lia.
Qed.

(** Rounding does not take a value above a number of the format that
    bounds it from above. *)
Lemma binary_round_aux_upper (m e : Z) (l : location) (G E : Z) :
  0 <= m -> e <= E -> -1074 <= E <= 971 -> 0 < G < 2 ^ 53 ->
  (l = loc_Exact -> m <= G * 2 ^ (E - e)) ->
  (l <> loc_Exact -> m < G * 2 ^ (E - e)) ->
  binary_round_aux prec emax false m e l = S754_zero false \/
  exists p e2,
    binary_round_aux prec emax false m e l = S754_finite false p e2 /\
    scaled_le (Zpos p) e2 G E.
Proof.
  intros Hm HeE HE HG Hex Hin.
  assert (Hle : m <= G * 2 ^ (E - e)).
  { destruct l as [|c]; [now apply Hex | apply Z.lt_le_incl, Hin; discriminate]. }
  destruct (binary_round_aux_spec m e l Hm) as (mr & Hmr & Hmrx & Eq).
  cbv zeta in Eq. rewrite Eq. clear Eq.
  pose proof (fexp_below_bound m e G E Hm HeE (proj1 HE) HG Hle) as H1.
  set (n1 := Z.max 0 (fexp prec emax (Zdigits2 m + e) - e)) in *.
  assert (Hn1 : 0 <= n1) by (unfold n1; lia).
  pose proof (pow2_pos n1 Hn1) as Hp1.
  set (G' := G * 2 ^ (E - e - n1)).
  assert (HB : G * 2 ^ (E - e) = G' * 2 ^ n1).
  { unfold G'. rewrite <- Z.mul_assoc, <- pow2_split by lia.
    now replace (E - e - n1 + n1) with (E - e) by lia. }
  assert (Hdiv : m / 2 ^ n1 <= G') by (apply div_pow2_upper; lia).
  assert (Hmul : 2 ^ n1 * (m / 2 ^ n1) <= m) by (apply Z.mul_div_le; lia).
  assert (Hmod : m = 2 ^ n1 * (m / 2 ^ n1) + m mod 2 ^ n1)
    by (apply Z.div_mod; lia).
  assert (HmrG : mr <= G').
  { destruct (Z.eq_dec (m / 2 ^ n1) G') as [Heq|Hne]; [|lia].
    assert (Hm' : m = G * 2 ^ (E - e)) by (rewrite Heq in Hmul; lia).
    destruct l as [|c]; [|exfalso; assert (m < G * 2 ^ (E - e)) by (apply Hin; discriminate); lia].
    rewrite Hmrx; [lia | reflexivity |].
    rewrite Heq in Hmod. lia. }
  assert (Hmr0 : 0 <= mr).
  { assert (0 <= m / 2 ^ n1) by (apply Z.div_pos; lia). lia. }
  assert (HG'pos : 0 < 2 ^ (E - (e + n1))) by (apply pow2_pos; lia).
  assert (HmrG2 : mr <= G * 2 ^ (E - (e + n1))).
  { unfold G' in HmrG. now replace (E - (e + n1)) with (E - e - n1) by lia. }
  pose proof (fexp_below_bound mr (e + n1) G E Hmr0 H1 (proj1 HE) HG HmrG2) as H2.
  set (n2 := Z.max 0 (fexp prec emax (Zdigits2 mr + (e + n1)) - (e + n1))) in *.
  assert (Hn2 : 0 <= n2) by (unfold n2; lia).
  pose proof (pow2_pos n2 Hn2) as Hp2.
  assert (Hmul2 : 2 ^ n2 * (mr / 2 ^ n2) <= mr) by (apply Z.mul_div_le; lia).
  assert (Hm2 : 0 <= mr / 2 ^ n2) by (apply Z.div_pos; lia).
  destruct (mr / 2 ^ n2) as [|p|p] eqn:Em2; [now left | | lia].
  right. exists p, (e + n1 + n2). split.
  - assert (Hleb : (e + n1 + n2 <=? emax - prec) = true)
      by (apply Z.leb_le; change (emax - prec) with 971; lia).
    now rewrite Hleb.
  - apply (scaled_le_from e); [lia | lia |].
    replace (e + n1 + n2 - e) with (n2 + n1) by lia.
    rewrite pow2_split by lia. rewrite HB. nia.
Qed.

(** Rounding does not take a value below a power of two (of the normal or
    subnormal range) that bounds it from below. *)
Lemma binary_round_aux_lower (m e : Z) (l : location) (k : Z) :
  0 < m -> -1074 <= k -> scaled_le 1 k m e ->
  binary_round_aux prec emax false m e l = S754_infinity false \/
  exists p e2,
    binary_round_aux prec emax false m e l = S754_finite false p e2 /\
    scaled_le 1 k (Zpos p) e2.
Proof.
  intros Hm Hk Hle.
  pose proof (Zdigits2_bounds m Hm) as [Hlo Hhi].
  pose proof (Zdigits2_pos m Hm) as Hd. set (d := Zdigits2 m) in *.
  (* it suffices to reach 2^(d + e - 1) *)
  assert (HkD : k <= d + e - 1).
  { destruct (Z_le_gt_dec k (d + e - 1)) as [|Hgt]; [assumption|exfalso].
    apply (scaled_le_at (Z.min k e)) in Hle; [|lia|lia].
    rewrite Z.mul_1_l in Hle.
    destruct (Z_le_gt_dec e k) as [Hek|Hek].
    - replace (Z.min k e) with e in Hle by lia.
      rewrite Z.sub_diag, Z.pow_0_r, Z.mul_1_r in Hle.
      assert (2 ^ d <= 2 ^ (k - e)) by (apply Z.pow_le_mono_r; lia). lia.
    - replace (Z.min k e) with k in Hle by lia.
      rewrite Z.sub_diag, Z.pow_0_r in Hle.
      assert (Hx : 2 ^ d * 2 ^ (e - k) <= 2 ^ 0).
      { rewrite <- pow2_split by lia. apply Z.pow_le_mono_r; lia. }
      change (2 ^ 0) with 1 in Hx. pose proof (pow2_pos (e - k)). nia. }
  destruct (binary_round_aux_spec m e l (Z.lt_le_incl _ _ Hm)) as (mr & Hmr & _ & Eq).
  cbv zeta in Eq. rewrite Eq. clear Eq. fold d in Hmr |- *.
  rewrite !fexp_eq in *.
  set (n1 := Z.max 0 (Z.max (d + e - 53) (-1074) - e)) in *.
  assert (Hn1 : 0 <= n1 <= d - 1) by (unfold n1; lia).
  pose proof (pow2_pos n1 (proj1 Hn1)) as Hp1.
  assert (Hm1 : 2 ^ (d - 1 - n1) <= m / 2 ^ n1) by (apply div_pow2_lower; lia).
  assert (Hmr1 : 2 ^ (d - 1 - n1) <= mr) by lia.
  assert (Hmrpos : 0 < mr) by (pose proof (pow2_pos (d - 1 - n1)); lia).
  pose proof (Zdigits2_ge_of_pow_le mr (d - 1 - n1) Hmrpos) as Hdr.
  pose proof (Zdigits2_bounds mr Hmrpos) as [Hrlo _].
  set (dr := Zdigits2 mr) in *.
  set (n2 := Z.max 0 (Z.max (dr + (e + n1) - 53) (-1074) - (e + n1))) in *.
  assert (He1 : -1074 <= e + n1) by (unfold n1; lia).
  assert (Hn2 : 0 <= n2 <= dr - 1) by (unfold n2; lia).
  pose proof (pow2_pos n2 (proj1 Hn2)) as Hp2.
  assert (Hm2 : 2 ^ (dr - 1 - n2) <= mr / 2 ^ n2) by (apply div_pow2_lower; lia).
  pose proof (pow2_pos (dr - 1 - n2)) as Hp3.
  destruct (mr / 2 ^ n2) as [|p|p] eqn:Em2; [lia | | lia].
  destruct (e + n1 + n2 <=? emax - prec); [right | now left].
  exists p, (e + n1 + n2). split; [reflexivity|].
  apply (scaled_le_trans 1 k 1 (d + e - 1)).
  - apply (scaled_le_from k); [lia | lia |].
    rewrite Z.sub_diag, Z.pow_0_r, !Z.mul_1_l.
    pose proof (pow2_pos (d + e - 1 - k)). lia.
  - apply (scaled_le_from e); [lia | lia |]. rewrite Z.mul_1_l.
    replace (d + e - 1 - e) with (d - 1) by lia.
    replace (e + n1 + n2 - e) with (n2 + n1) by lia.
    rewrite pow2_split by lia.
    assert (Ha : 2 ^ (dr - 1) <= Zpos p * 2 ^ n2).
    { replace (dr - 1) with (dr - 1 - n2 + n2) by lia.
      rewrite pow2_split by lia. nia. }
    assert (Hb : 2 ^ (d - 1 - n1) <= 2 ^ (dr - 1))
      by (apply Z.pow_le_mono_r; lia).
    replace (d - 1) with (d - 1 - n1 + n1) by lia.
    rewrite pow2_split by lia. nia.
Qed.


(** Aligning a mantissa to a smaller exponent keeps the value. *)
Lemma iter_xO_pow (m d : positive) :
  Zpos (Pos.iter xO m d) = Zpos m * 2 ^ Zpos d.
Proof.
  apply (Pos.iter_ind _ xO m (fun p a => Zpos a = Zpos m * 2 ^ Zpos p)).
  - rewrite Pos2Z.inj_xO. change (2 ^ 1) with 2. lia.
  - intros p a Ha. rewrite Pos2Z.inj_xO, Ha, Pos2Z.inj_succ, Z.pow_succ_r; lia.
Qed.

Lemma shl_align_spec (mx : positive) (ex ex' : Z) :
  snd (shl_align mx ex ex') = Z.min ex ex' /\
  Zpos (fst (shl_align mx ex ex')) = Zpos mx * 2 ^ (ex - Z.min ex ex').
Proof.
  unfold shl_align. destruct (ex' - ex) as [|d|d] eqn:Ed; cbn [fst snd].
  - replace (Z.min ex ex') with ex by lia. rewrite Z.sub_diag. simpl. lia.
  - replace (Z.min ex ex') with ex by lia. rewrite Z.sub_diag. simpl. lia.
  - replace (Z.min ex ex') with ex' by lia. split; [reflexivity|].
    rewrite iter_xO_pow. f_equal. f_equal. lia.
Qed.

Lemma binary_round_upper (mx : positive) (ex G E : Z) :
  ex <= E -> -1074 <= E <= 971 -> 0 < G < 2 ^ 53 ->
  scaled_le (Zpos mx) ex G E ->
  binary_round prec emax false mx ex = S754_zero false \/
  exists p e2,
    binary_round prec emax false mx ex = S754_finite false p e2 /\
    scaled_le (Zpos p) e2 G E.
Proof.
  intros HeE HE HG Hle. unfold binary_round.
  destruct (shl_align_spec mx ex (fexp prec emax (Zpos (digits2_pos mx) + ex)))
    as [Es Em].
  destruct (shl_align mx ex (fexp prec emax (Zpos (digits2_pos mx) + ex)))
    as [mz ez]. cbn [fst snd] in Es, Em.
  assert (Hez : ez <= ex) by lia. rewrite <- Es in Em.
  apply (scaled_le_at ez) in Hle; [|lia|lia].
  apply binary_round_aux_upper; try lia.
  intros Hne. now elim Hne.
Qed.

Lemma binary_round_lower (mx : positive) (ex k : Z) :
  -1074 <= k -> scaled_le 1 k (Zpos mx) ex ->
  binary_round prec emax false mx ex = S754_infinity false \/
  exists p e2,
    binary_round prec emax false mx ex = S754_finite false p e2 /\
    scaled_le 1 k (Zpos p) e2.
Proof.
  intros Hk Hle. unfold binary_round.
  destruct (shl_align_spec mx ex (fexp prec emax (Zpos (digits2_pos mx) + ex)))
    as [Es Em].
  destruct (shl_align mx ex (fexp prec emax (Zpos (digits2_pos mx) + ex)))
    as [mz ez]. cbn [fst snd] in Es, Em.
  assert (Hez : ez <= ex) by lia. rewrite <- Es in Em.
  apply binary_round_aux_lower; [lia | exact Hk |].
  apply (scaled_le_trans 1 k (Zpos mx) ex); [exact Hle|].
  apply (scaled_le_from ez); [lia | lia |].
  rewrite Z.sub_diag, Z.pow_0_r. lia.
Qed.

(** Numbers of the format. *)
Lemma valid_finite (s : bool) (m : positive) (e : Z) :
  valid_binary (S754_finite s m e) = true ->
  Zpos (digits2_pos m) <= 53 /\ -1074 <= e <= 971 /\
  (Zpos (digits2_pos m) = 53 \/ e = -1074).
Proof.
  unfold valid_binary, bounded, canonical_mantissa. rewrite fexp_eq.
  intros Hv. apply andb_prop in Hv. destruct Hv as [Hc Hb].
  apply Z.eqb_eq in Hc. apply Z.leb_le in Hb.
  change (emax - prec) with 971 in Hb. lia.
Qed.

(** On numbers of the format the comparison of the specification is the
    comparison of the values. *)
Lemma SFleb_scaled_le (m1 : positive) (e1 : Z) (m2 : positive) (e2 : Z) :
  valid_binary (S754_finite false m1 e1) = true ->
  valid_binary (S754_finite false m2 e2) = true ->
  scaled_le (Zpos m1) e1 (Zpos m2) e2 ->
  SFleb (S754_finite false m1 e1) (S754_finite false m2 e2) = true.
Proof.
  intros V1 V2 Hle. apply valid_finite in V1, V2.
  pose proof (digits2_pos_bounds m1) as [L1 U1].
  pose proof (digits2_pos_bounds m2) as [L2 U2].
  unfold SFleb, SFcompare.
  destruct (Z.compare_spec e1 e2) as [Heq|Hlt|Hgt]; [|reflexivity|exfalso].
  - subst e2. apply (scaled_le_at e1) in Hle; [|lia|lia].
    rewrite Z.sub_diag, Z.pow_0_r, !Z.mul_1_r in Hle.
    change (Pos.compare_cont Eq m1 m2) with (Pos.compare m1 m2).
    destruct (Pos.compare_spec m1 m2) as [?|?|Hc]; try reflexivity.
    exfalso. apply Pos2Z.pos_lt_pos in Hc. lia.
  - apply (scaled_le_at e2) in Hle; [|lia|lia].
    rewrite Z.sub_diag, Z.pow_0_r, Z.mul_1_r in Hle.
    assert (Hd1 : Zpos (digits2_pos m1) = 53) by lia.
    rewrite Hd1 in L1. change (2 ^ (53 - 1)) with 4503599627370496 in L1.
    assert (Hd2 : 2 ^ Zpos (digits2_pos m2) <= 2 ^ 53)
      by (apply Z.pow_le_mono_r; lia).
    change (2 ^ 53) with 9007199254740992 in Hd2.
    assert (Hp : 2 ^ 1 <= 2 ^ (e1 - e2)) by (apply Z.pow_le_mono_r; lia).
    change (2 ^ 1) with 2 in Hp. nia.
Qed.

(** When a number of the format is at most one of the same format whose
    mantissa has 53 digits, its exponent is not larger. *)
Lemma scaled_le_exponent (m : positive) (e G E : Z) :
  valid_binary (S754_finite false m e) = true ->
  0 < G < 2 ^ 53 -> -1074 <= E ->
  scaled_le (Zpos m) e G E -> e <= E.
Proof.
  intros V HG HE Hle. apply valid_finite in V.
  pose proof (digits2_pos_bounds m) as [L U].
  destruct (Z_le_gt_dec e E) as [|Hgt]; [assumption|exfalso].
  apply (scaled_le_at E) in Hle; [|lia|lia].
  rewrite Z.sub_diag, Z.pow_0_r, Z.mul_1_r in Hle.
  assert (Hd : Zpos (digits2_pos m) = 53) by lia.
  rewrite Hd in L. change (2 ^ (53 - 1)) with 4503599627370496 in L.
  change (2 ^ 53) with 9007199254740992 in HG.
  assert (Hp : 2 ^ 1 <= 2 ^ (e - E)) by (apply Z.pow_le_mono_r; lia).
  change (2 ^ 1) with 2 in Hp. nia.
Qed.


(** *** Signs *)

Lemma sf_unsigned_nonneg (x : spec_float) : sf_unsigned x -> sf_nonneg x.
Proof. destruct x; simpl; auto. Qed.

Lemma binary_round_aux_sign (sx : bool) (m e : Z) (l : location) :
  match binary_round_aux prec emax sx m e l with
  | S754_nan => True
  | S754_zero s | S754_infinity s | S754_finite s _ _ => s = sx
  end.
Proof.
  unfold binary_round_aux.
  destruct (shr_fexp prec emax m e l) as [mrs' e'].
  destruct (shr_fexp prec emax _ e' loc_Exact) as [mrs'' e''].
  destruct (shr_m mrs''); [reflexivity | | exact I].
  destruct (e'' <=? emax - prec); reflexivity.
Qed.

Lemma binary_round_aux_unsigned (m e : Z) (l : location) :
  sf_unsigned (binary_round_aux prec emax false m e l).
Proof.
  pose proof (binary_round_aux_sign false m e l) as Hs.
  destruct (binary_round_aux prec emax false m e l); simpl; auto.
Qed.

Lemma binary_round_unsigned (m : positive) (e : Z) :
  sf_unsigned (binary_round prec emax false m e).
Proof.
  unfold binary_round. destruct (shl_align m e _) as [mz ez].
  apply binary_round_aux_unsigned.
Qed.

Lemma binary_normalize_unsigned (m e : Z) :
  0 <= m -> sf_unsigned (binary_normalize prec emax m e false).
Proof.
  intros Hm. destruct m as [|p|p]; simpl; [reflexivity | | lia].
  apply binary_round_unsigned.
Qed.

Lemma SFadd_nonneg (x y : spec_float) :
  sf_nonneg x -> sf_nonneg y -> sf_nonneg (SF64add x y).
Proof.
  destruct x as [sx|sx| |sx mx ex], y as [sy|sy| |sy my ey]; simpl;
    intros Hx Hy; subst; try exact I; try reflexivity.
  - destruct sx, sy; exact I.
  - apply sf_unsigned_nonneg, binary_round_unsigned.
Qed.

Lemma SFmul_nonneg (x y : spec_float) :
  sf_nonneg x -> sf_unsigned y -> sf_nonneg (SF64mul x y).
Proof.
  destruct x as [sx|sx| |sx mx ex], y as [sy|sy| |sy my ey]; simpl;
    intros Hx Hy; subst; try exact I; try reflexivity.
  apply sf_unsigned_nonneg, binary_round_aux_unsigned.
Qed.

Lemma SFdiv_nonneg (x y : spec_float) :
  sf_nonneg x -> sf_unsigned y -> sf_nonneg (SF64div x y).
Proof.
  destruct x as [sx|sx| |sx mx ex], y as [sy|sy| |sy my ey]; simpl;
    intros Hx Hy; subst; try exact I; try reflexivity.
  destruct (SFdiv_core_binary prec emax (Zpos mx) ex (Zpos my) ey) as [[mz ez] lz].
  apply sf_unsigned_nonneg, binary_round_aux_unsigned.
Qed.

Lemma SFabs_nonneg (x : spec_float) : sf_nonneg (SFabs x).
Proof. destruct x; simpl; auto. Qed.

Lemma SFltb_zero_nonneg (x : spec_float) :
  SFltb (S754_zero false) x = true -> sf_nonneg x.
Proof.
  destruct x as [s|s| |s m e]; simpl; intros Hlt; try exact I;
    destruct s; solve [reflexivity | discriminate Hlt].
Qed.

Lemma SFeqb_zero_unsigned (x : spec_float) :
  sf_nonneg x -> SFeqb x (S754_zero false) = false -> sf_unsigned x.
Proof. destruct x as [s|s| |s m e]; simpl; auto. discriminate. Qed.


(** *** The three operations of 100 - 100 / (1 + rs) *)

(** 1 + rs is at least 1 when rs is not negative. *)
Lemma SFadd_one_ge (x : spec_float) :
  sf_nonneg x -> sf_ge_one (SF64add sf_one x).
Proof.
  unfold sf_ge_one. destruct x as [s|s| |s m e]; simpl; intros Hx; subst.
  - right. right. exists 4503599627370496%positive, (-52). split; [reflexivity|].
    apply (scaled_le_from (-52)); [lia | lia | simpl; lia].
  - right. left. reflexivity.
  - left. reflexivity.
  - right. unfold SF64add, SFadd, sf_one. cbn [cond_Zopp].
    set (ez := Z.min (-52) e).
    destruct (shl_align_spec 4503599627370496 (-52) ez) as [_ Ea].
    destruct (shl_align_spec m e ez) as [_ Eb].
    replace (Z.min (-52) ez) with ez in Ea by lia.
    replace (Z.min e ez) with ez in Eb by lia.
    set (a := fst (shl_align 4503599627370496 (-52) ez)) in *.
    set (b := fst (shl_align m e ez)) in *.
    change (Zpos a + Zpos b) with (Zpos (a + b)). cbn [binary_normalize].
    destruct (binary_round_lower (a + b) ez 0) as [Hinf | (p & e2 & Er & Hle)].
    + lia.
    + apply (scaled_le_from ez); [lia | lia |].
      rewrite Z.sub_diag, Z.pow_0_r, Z.mul_1_l, Z.mul_1_r.
      rewrite Pos2Z.inj_add, Ea.
      change 4503599627370496 with (2 ^ 52). rewrite <- pow2_split by lia.
      replace (52 + (-52 - ez)) with (0 - ez) by lia. lia.
    + left. exact Hinf.
    + right. exists p, e2. split; assumption.
Qed.

(** The integer quotient and the location that the division hands to the
    rounding. *)
Lemma new_location_exact (nb k : Z) :
  new_location nb k = loc_Exact <-> k = 0.
Proof.
  unfold new_location, new_location_even, new_location_odd.
  destruct (Z.even nb); destruct (Z.eqb_spec k 0) as [E|E];
    split; intros Hk; try assumption; try reflexivity; try discriminate Hk;
    contradiction.
Qed.

Lemma SFdiv_core_binary_spec (m1 : positive) (e1 : Z) (m2 : positive) (e2 : Z) :
  exists (q r s e' : Z) (l : location),
    SFdiv_core_binary prec emax (Zpos m1) e1 (Zpos m2) e2 = (q, e', l) /\
    0 <= s /\ e' = e1 - e2 - s /\
    e' <= fexp prec emax (Zpos (digits2_pos m1) + e1 - (Zpos (digits2_pos m2) + e2)) /\
    Zpos m1 * 2 ^ s = Zpos m2 * q + r /\ 0 <= r < Zpos m2 /\ 0 <= q /\
    (l = loc_Exact <-> r = 0).
Proof.
  unfold SFdiv_core_binary. cbn [Zdigits2].
  set (e' := Z.min (fexp prec emax (Zpos (digits2_pos m1) + e1 -
                                    (Zpos (digits2_pos m2) + e2))) (e1 - e2)).
  set (s := e1 - e2 - e').
  assert (Hs : 0 <= s) by (unfold s, e'; lia).
  set (m' := match s with Zpos _ => Z.shiftl (Zpos m1) s | Z0 => Zpos m1 | Zneg _ => 0 end).
  assert (Em' : m' = Zpos m1 * 2 ^ s).
  { unfold m'. destruct s as [|p|p] eqn:Es; [simpl; lia | | lia].
    apply Z.shiftl_mul_pow2. lia. }
  pose proof (Z_div_mod m' (Zpos m2) (eq_refl : Zpos m2 > 0)) as Hdm.
  destruct (Z.div_eucl m' (Zpos m2)) as [q r]. destruct Hdm as [Hdm Hr].
  exists q, r, s, e', (new_location (Zpos m2) r).
  split; [reflexivity|]. split; [exact Hs|]. split; [unfold s; lia|].
  split; [unfold e'; lia|]. split; [lia|]. split; [lia|]. split.
  - pose proof (pow2_pos s Hs). nia.
  - apply new_location_exact.
Qed.

(** 100 / y is at most 100 when y is at least 1. *)
Lemma SFdiv_hundred_le (y : spec_float) :
  sf_ge_one y -> sf_le_hundred (SF64div sf_hundred y).
Proof.
  unfold sf_le_hundred. intros [-> | [-> | (m & e & -> & Hy)]].
  - left. reflexivity.
  - right. left. reflexivity.
  - unfold SF64div, SFdiv, sf_hundred. cbn [xorb].
    destruct (SFdiv_core_binary_spec 7036874417766400 (-46) m e)
      as (q & r & s & e' & l & Eq & Hs & Ee' & Hfexp & Hdiv & Hr & Hq & Hl).
    rewrite Eq. rewrite fexp_eq in Hfexp.
    change (Zpos (digits2_pos 7036874417766400)) with 53 in Hfexp.
    pose proof (digits2_pos_bounds m) as [_ Hhi].
    (* y >= 1 gives digits + e >= 1 *)
    assert (Hde : 1 <= Zpos (digits2_pos m) + e).
    { destruct (Z_le_gt_dec 1 (Zpos (digits2_pos m) + e)) as [|Hgt]; [assumption|exfalso].
      apply (scaled_le_at e) in Hy; [|lia|lia].
      rewrite Z.sub_diag, Z.pow_0_r, Z.mul_1_l, Z.mul_1_r in Hy.
      assert (2 ^ Zpos (digits2_pos m) <= 2 ^ (0 - e)) by (apply Z.pow_le_mono_r; lia).
      lia. }
    assert (He' : e' <= -47) by lia.
    pose proof (pow2_pos s Hs) as Hps.
    assert (Hbound : q <= 7036874417766400 * 2 ^ (-46 - e') /\
                     (r <> 0 -> q < 7036874417766400 * 2 ^ (-46 - e'))).
    { replace (-46 - e') with (s + e) by lia.
      destruct (Z_le_gt_dec 0 e) as [He|He].
      - rewrite pow2_split by lia. pose proof (pow2_pos e He). nia.
      - apply (scaled_le_at e) in Hy; [|lia|lia].
        rewrite Z.sub_diag, Z.pow_0_r, Z.mul_1_l, Z.mul_1_r in Hy.
        assert (Hsplit : 2 ^ s = 2 ^ (s + e) * 2 ^ (0 - e)).
        { rewrite <- pow2_split by lia. f_equal. lia. }
        pose proof (pow2_pos (s + e)). pose proof (pow2_pos (0 - e)). nia. }
    destruct Hbound as [Hb1 Hb2].
    destruct (binary_round_aux_upper q e' l 7036874417766400 (-46))
      as [Hz | (p & e2 & Er & Hle)]; try lia.
    + intros Hne. apply Hb2. intros Hr0. apply Hne, Hl, Hr0.
    + right. left. exact Hz.
    + right. right. exists p, e2. split; assumption.
Qed.

(** 100 - q is between +0 and 100 when q is between +0 and 100. *)
Lemma SFsub_hundred_range (q : spec_float) :
  valid_binary q = true -> sf_le_hundred q ->
  sf_le_hundred (SF64sub sf_hundred q).
Proof.
  unfold sf_le_hundred. intros V [-> | [-> | (m & e & -> & Hq)]].
  - left. reflexivity.
  - right. right. exists 7036874417766400%positive, (-46). split; [reflexivity|].
    apply (scaled_le_from (-46)); lia.
  - assert (He : e <= -46).
    { apply (scaled_le_exponent m e 7036874417766400 (-46)); try assumption; lia. }
    unfold SF64sub, SFsub, sf_hundred. cbn [cond_Zopp].
    replace (Z.min (-46) e) with e by lia.
    destruct (shl_align_spec 7036874417766400 (-46) e) as [_ Ea].
    destruct (shl_align_spec m e e) as [_ Eb].
    replace (Z.min (-46) e) with e in Ea by lia.
    rewrite Z.min_id, Z.sub_diag, Z.pow_0_r, Z.mul_1_r in Eb.
    set (a := fst (shl_align 7036874417766400 (-46) e)) in *.
    set (b := fst (shl_align m e e)) in *.
    apply (scaled_le_at e) in Hq; [|lia|lia].
    rewrite Z.sub_diag, Z.pow_0_r, Z.mul_1_r in Hq.
    destruct (Zpos a - Zpos b) as [|d|d] eqn:Ed; cbn [binary_normalize].
    + right. left. reflexivity.
    + destruct (binary_round_upper d e 7036874417766400 (-46))
        as [Hz | (p & e2 & Er & Hle)]; try lia.
      * apply (scaled_le_from e); [lia | lia |].
        rewrite Z.sub_diag, Z.pow_0_r, Z.mul_1_r. lia.
      * right. left. exact Hz.
      * right. right. exists p, e2. split; assumption.
    + exfalso. lia.
Qed.

End Rounding.


(** * The range of the RSI *)

Lemma for_loop_invariant {S : Type} (Inv : S -> Prop) (body : Z -> S -> S)
  (a b : Z) (s : S) :
  Inv s -> (forall i s, Inv s -> Inv (body i s)) -> Inv (for_loop a b body s).
Proof.
  intros Hs Hbody. unfold for_loop. revert s Hs.
  induction (range_incl a b) as [|i l IH]; intros s Hs; [exact Hs|].
  simpl. apply IH, Hbody, Hs.
Qed.

Lemma of_Z_unsigned (z : Z) : (0 <= z)%Z -> sf_unsigned (Prim2SF (F64.of_Z z)).
Proof.
  intros Hz. destruct z as [|p|p]; [reflexivity | | lia].
  unfold F64.of_Z. rewrite FloatAxioms.of_uint63_spec.
  apply binary_normalize_unsigned.
  pose proof (Uint63.to_Z_bounded (Uint63.of_Z (Zpos p))). lia.
Qed.

Lemma nonneg_zero : nonneg (F64.of_Z 0).
Proof. exact I. Qed.

Lemma nonneg_add (x y : float) : nonneg x -> nonneg y -> nonneg (x + y)%float.
Proof. unfold nonneg. rewrite FloatAxioms.add_spec. apply SFadd_nonneg. Qed.

Lemma nonneg_abs (x : float) : nonneg (PrimFloat.abs x).
Proof. unfold nonneg. rewrite FloatAxioms.abs_spec. apply SFabs_nonneg. Qed.

Lemma nonneg_of_pos (x : float) : PrimFloat.ltb (F64.of_Z 0) x = true -> nonneg x.
Proof.
  unfold nonneg. rewrite FloatAxioms.ltb_spec. apply SFltb_zero_nonneg.
Qed.

(** One smoothing step [(a * (period - 1) + g) / period]. *)
Lemma nonneg_smooth (a g : float) (period : Z) :
  (1 <= period)%Z -> nonneg a -> nonneg g ->
  nonneg ((a * F64.of_Z (period - 1) + g) / F64.of_Z period)%float.
Proof.
  intros Hp Ha Hg. unfold nonneg. rewrite FloatAxioms.div_spec, FloatAxioms.add_spec, FloatAxioms.mul_spec.
  apply SFdiv_nonneg; [|apply of_Z_unsigned; lia].
  apply SFadd_nonneg; [|exact Hg].
  apply SFmul_nonneg; [exact Ha | apply of_Z_unsigned; lia].
Qed.

Lemma sf_le_hundred_in_range (v : float) :
  sf_le_hundred (Prim2SF v) -> rsi_in_range v.
Proof.
  intros [E | [E | (m & e & E & Hle)]]; unfold rsi_in_range.
  - left. rewrite is_nan_spec, E. reflexivity.
  - right. rewrite !FloatAxioms.leb_spec, E. split; reflexivity.
  - right. rewrite !FloatAxioms.leb_spec, E. split; [reflexivity|].
    apply SFleb_scaled_le; [|reflexivity | exact Hle].
    rewrite <- E. apply Prim2SF_valid.
Qed.

(** The value 100 - 100 / (1 + rs) for averages that are not negative. *)
Lemma rsi_value_in_range (ag al : float) :
  nonneg ag -> nonneg al -> rsi_in_range (rsi_value ag al).
Proof.
  intros Hag Hal. apply sf_le_hundred_in_range. unfold rsi_value.
  cbn [nsub ndiv nadd nseq nofZ float_num].
  set (rs := if PrimFloat.eqb al (F64.of_Z 0) then F64.of_Z 100 else (ag / al)%float).
  assert (Hrs : nonneg rs).
  { unfold rs. destruct (PrimFloat.eqb al (F64.of_Z 0)) eqn:E; [reflexivity|].
    unfold nonneg. rewrite FloatAxioms.div_spec. apply SFdiv_nonneg; [exact Hag|].
    rewrite FloatAxioms.eqb_spec in E. now apply SFeqb_zero_unsigned. }
  pose proof (Prim2SF_valid (F64.of_Z 100 / (F64.of_Z 1 + rs))%float) as V.
  rewrite FloatAxioms.div_spec, FloatAxioms.add_spec in V.
  rewrite FloatAxioms.sub_spec, FloatAxioms.div_spec, FloatAxioms.add_spec.
  change (Prim2SF (F64.of_Z 100)) with sf_hundred in *.
  change (Prim2SF (F64.of_Z 1)) with sf_one in *.
  apply SFsub_hundred_range; [exact V|].
  apply SFdiv_hundred_le, SFadd_one_ge, Hrs.
Qed.

Lemma rsi_seed_nonneg (data : list float) (period : Z) :
  (1 <= period)%Z ->
  nonneg (fst (rsi_seed data period)) /\ nonneg (snd (rsi_seed data period)).
Proof.
  intros Hp. unfold rsi_seed.
  set (body := fun (i : Z) (st : float * float) =>
                 let (ag, al) := st in
                 let d := (get data i - get data (i - 1))%js in
                 if (nofZ 0 <? d)%js then ((ag + d)%js, al) else (ag, (al + nabs d)%js)).
  assert (Hinv : nonneg (fst (for_loop 1 period body (nofZ 0, nofZ 0))) /\
                 nonneg (snd (for_loop 1 period body (nofZ 0, nofZ 0)))).
  { apply (for_loop_invariant (fun st : float * float => nonneg (fst st) /\ nonneg (snd st))).
    - split; exact I.
    - intros i [ag al] [Hag Hal]. unfold body. cbn [fst snd] in *.
      cbn [nsub nadd nlt nabs nofZ float_num].
      destruct (PrimFloat.ltb (F64.of_Z 0) (get data i - get data (i - 1))%float) eqn:E;
        cbn [fst snd]; split; try assumption.
      + apply nonneg_add; [exact Hag | now apply nonneg_of_pos].
      + apply nonneg_add; [exact Hal | apply nonneg_abs]. }
  destruct (for_loop 1 period body (nofZ 0, nofZ 0)) as [ag al].
  cbn [fst snd] in *. destruct Hinv as [Hag Hal].
  cbn [ndiv nofZ float_num]. unfold nonneg. rewrite !FloatAxioms.div_spec.
  split; (apply SFdiv_nonneg; [assumption | apply of_Z_unsigned; lia]).
Qed.

Lemma rsi_step_invariant (data : list float) (period i : Z)
  (st : list (option float) * float * float) :
  (1 <= period)%Z ->
  (Forall rsi_entry_ok (fst (fst st)) /\ nonneg (snd (fst st)) /\ nonneg (snd st)) ->
  let st' := rsi_step data period i st in
  Forall rsi_entry_ok (fst (fst st')) /\ nonneg (snd (fst st')) /\ nonneg (snd st').
Proof.
  intros Hp. destruct st as [[r ag] al]. cbn [fst snd]. intros (Hr & Hag & Hal).
  unfold rsi_step.
  destruct (i <? period)%Z.
  { cbn [fst snd]. split; [|now split].
    apply Forall_app. split; [exact Hr | repeat constructor]. }
  destruct (i =? period)%Z.
  { cbn [fst snd]. split; [|now split].
    apply Forall_app. split; [exact Hr|]. constructor; [|constructor].
    now apply rsi_value_in_range. }
  cbv zeta. cbn [nsub nadd nmul ndiv nlt nabs nofZ float_num].
  set (d := (get data i - get data (i - 1))%float).
  set (g := if PrimFloat.ltb (F64.of_Z 0) d then d else F64.of_Z 0).
  set (l := if PrimFloat.ltb d (F64.of_Z 0) then PrimFloat.abs d else F64.of_Z 0).
  assert (Hg : nonneg g).
  { unfold g. destruct (PrimFloat.ltb (F64.of_Z 0) d) eqn:E;
      [now apply nonneg_of_pos | exact I]. }
  assert (Hl : nonneg l).
  { unfold l. destruct (PrimFloat.ltb d (F64.of_Z 0)); [apply nonneg_abs | exact I]. }
  pose proof (nonneg_smooth ag g period Hp Hag Hg) as Hag'.
  pose proof (nonneg_smooth al l period Hp Hal Hl) as Hal'.
  cbn [fst snd]. split; [|now split].
  apply Forall_app. split; [exact Hr|]. constructor; [|constructor].
  now apply rsi_value_in_range.
Qed.

(** C10, as amended: for every close-price series and every period >= 1,
    every defined value that [calcRSI] returns is NaN or lies in the
    closed interval from 0 to 100. *)
Theorem calcRSI_range (data : list float) (period : Z) :
  (1 <= period)%Z ->
  Forall rsi_entry_ok (calcRSI data period).
Proof.
  intros Hp. unfold calcRSI.
  destruct (len data <? period + 1)%Z.
  - apply Forall_forall. intros o Ho. apply in_map_iff in Ho.
    destruct Ho as (x & <- & _). exact I.
  - pose proof (rsi_seed_nonneg data period Hp) as [Hag Hal].
    destruct (rsi_seed data period) as [ag al]. cbn [fst snd] in Hag, Hal.
    apply (for_loop_invariant
             (fun st : list (option float) * float * float =>
                Forall rsi_entry_ok (fst (fst st)) /\
                nonneg (snd (fst st)) /\ nonneg (snd st))).
    + cbn [fst snd]. split; [constructor | now split].
    + intros i st Hst. now apply rsi_step_invariant.
Qed.

Lemma calcRSI_range_witness :
  (1 <= 2)%Z /\
  Forall rsi_entry_ok (calcRSI [1; 0; 0x1p+60]%float 2).
Proof.
  split; [lia|]. apply (calcRSI_range [1; 0; 0x1p+60]%float 2). lia.
Defined.

(** C10 fails as stated: after a loss of 1 and a gain of 2^60 the RSI of
    period 2 is rounded to exactly 100; and finite closes whose differences
    overflow give NaN. *)
Lemma calcRSI_range_counterexample :
  calcRSI [1; 0; 0x1p+60]%float 2 = [None; None; Some 100%float] /\
  PrimFloat.ltb 100%float 100%float = false /\
  PrimFloat.is_finite 0x1p+1023%float = true /\
  calcRSI [0x1p+1023; (-0x1p+1023); 0x1p+1023]%float 2 = [None; None; Some nan].
Proof. vm_compute. repeat split. Qed.


(** * The RSI in exact arithmetic

    Without rounding the bound 100 is strict: the value is
    100 * rs / (1 + rs) for an rs that is not negative. *)

Section ExactRSI.
Local Open Scope Q_scope.

Lemma rsi_value_exact (ag al : Q) :
  0 <= ag -> 0 <= al -> 0 <= rsi_value ag al /\ rsi_value ag al < 100.
Proof.
  intros Hag Hal. unfold rsi_value. cbn [nsub ndiv nadd nseq nofZ Q_num].
  change (inject_Z 100) with 100. change (inject_Z 1) with 1.
  change (inject_Z 0) with 0.
  set (rs := if Qeq_bool al 0 then 100 else ag / al).
  assert (Hrs : 0 <= rs).
  { unfold rs. destruct (Qeq_bool al 0) eqn:E; [discriminate|].
    apply Qeq_bool_neq in E.
    apply Qle_shift_div_l; [|lra].
    destruct (Qlt_le_dec 0 al) as [|Hle]; [assumption|].
    exfalso. apply E. lra. }
  assert (Hq : 0 < 100 / (1 + rs) /\ 100 / (1 + rs) <= 100).
  { split.
    - apply Qlt_shift_div_l; lra.
    - apply Qle_shift_div_r; lra. }
  lra.
Qed.

Lemma inject_Z_pos (z : Z) : (1 <= z)%Z -> 0 < inject_Z z.
Proof. intros Hz. change 0 with (inject_Z 0). rewrite <- Zlt_Qlt. lia. Qed.

Lemma inject_Z_nonneg (z : Z) : (0 <= z)%Z -> 0 <= inject_Z z.
Proof. intros Hz. change 0 with (inject_Z 0). rewrite <- Zle_Qle. lia. Qed.

Lemma smooth_exact (a g : Q) (period : Z) :
  (1 <= period)%Z -> 0 <= a -> 0 <= g ->
  0 <= (a * inject_Z (period - 1) + g) / inject_Z period.
Proof.
  intros Hp Ha Hg. pose proof (inject_Z_pos period Hp).
  assert (0 <= inject_Z (period - 1)) by (apply inject_Z_nonneg; lia).
  apply Qle_shift_div_l; [assumption|].
  assert (0 <= a * inject_Z (period - 1)) by (apply Qmult_le_0_compat; assumption).
  lra.
Qed.

Lemma Q_gain_nonneg (d : Q) : 0 <= (if negb (Qle_bool d 0) then d else 0).
Proof.
  destruct (Qle_bool d 0) eqn:E; simpl; [lra|].
  destruct (Qlt_le_dec 0 d) as [|Hle]; [lra|].
  apply Qle_bool_iff in Hle. congruence.
Qed.

Lemma Q_loss_nonneg (d : Q) : 0 <= (if negb (Qle_bool 0 d) then Qabs d else 0).
Proof. destruct (Qle_bool 0 d); simpl; [lra | apply Qabs_nonneg]. Qed.

Lemma rsi_seed_exact (data : list Q) (period : Z) :
  (1 <= period)%Z ->
  0 <= fst (rsi_seed data period) /\ 0 <= snd (rsi_seed data period).
Proof.
  intros Hp. unfold rsi_seed.
  set (body := fun (i : Z) (st : Q * Q) =>
                 let (ag, al) := st in
                 let d := (get data i - get data (i - 1))%js in
                 if (nofZ 0 <? d)%js then ((ag + d)%js, al) else (ag, (al + nabs d)%js)).
  assert (Hinv : 0 <= fst (for_loop 1 period body (nofZ 0, nofZ 0)) /\
                 0 <= snd (for_loop 1 period body (nofZ 0, nofZ 0))).
  { apply (for_loop_invariant (fun st : Q * Q => 0 <= fst st /\ 0 <= snd st)).
    - cbn [fst snd nofZ Q_num]. change (inject_Z 0) with 0. split; lra.
    - intros i [ag al] [Hag Hal]. unfold body. cbn [fst snd] in *.
      cbn [nsub nadd nlt nabs nofZ Q_num]. change (inject_Z 0) with 0.
      set (d := get data i - get data (i - 1)).
      pose proof (Q_gain_nonneg d) as Hg. pose proof (Qabs_nonneg d) as Ha.
      destruct (Qle_bool d 0); cbn [negb fst snd] in *; split; lra. }
  destruct (for_loop 1 period body (nofZ 0, nofZ 0)) as [ag al].
  cbn [fst snd] in *. destruct Hinv as [Hag Hal].
  cbn [ndiv nofZ Q_num]. pose proof (inject_Z_pos period Hp).
  split; apply Qle_shift_div_l; lra.
Qed.



End ExactRSI.


(** * Shape and values of the indicator series *)

Lemma for_loop_snoc {S : Type} (body : Z -> S -> S) (a b : Z) (s : S) :
  (a <= b + 1)%Z ->
  for_loop a (b + 1) body s = body (b + 1)%Z (for_loop a b body s).
Proof.
  intros Hab. unfold for_loop. rewrite range_incl_snoc by exact Hab.
  rewrite fold_left_app. reflexivity.
Qed.

Lemma for_loop_empty {S : Type} (body : Z -> S -> S) (a b : Z) (s : S) :
  (b < a)%Z -> for_loop a b body s = s.
Proof. intros Hab. unfold for_loop. now rewrite range_incl_empty. Qed.

(** An invariant that the body keeps at the indices of the loop. *)
Lemma for_loop_invariant_at {St : Type} (Inv : St -> Prop) (body : Z -> St -> St)
  (a b : Z) (s : St) :
  Inv s -> (forall i s, (a <= i <= b)%Z -> Inv s -> Inv (body i s)) ->
  Inv (for_loop a b body s).
Proof.
  intros Hs Hbody. unfold for_loop.
  pose proof (range_incl_bounds a b) as Hr. revert s Hs.
  induction (range_incl a b) as [|i l IH]; intros s Hs; [exact Hs|].
  inversion Hr as [|? ? Hi Hl]; subst. simpl. apply IH; [exact Hl|].
  now apply Hbody.
Qed.

(** A loop from 0 that keeps [Inv] and pushes at index [i] one entry that
    satisfies [P i]: the result has one entry per index, the entry at
    position [k] satisfies [P k], and [Inv] holds at the end. *)
Lemma for_loop_pushes_at {St X : Type} (r : St -> list X) (Inv : St -> Prop)
  (P : Z -> X -> Prop) (body : Z -> St -> St) (st : St) :
  Inv st -> r st = [] ->
  forall n : nat,
  (forall i s, (0 <= i < Z.of_nat n)%Z -> Inv s -> length (r s) = Z.to_nat i ->
     Inv (body i s) /\ exists x, r (body i s) = r s ++ [x] /\ P i x) ->
  let out := for_loop 0 (Z.of_nat n - 1) body st in
  Inv out /\ length (r out) = n /\
  forall k x, nth_error (r out) k = Some x -> P (Z.of_nat k) x.
Proof.
  intros Hinv Hr. induction n as [|n IH]; intros Hbody.
  - cbv zeta. rewrite for_loop_empty by lia. rewrite Hr. repeat split; auto.
    intros k x Hk. destruct k; discriminate Hk.
  - cbv zeta. replace (Z.of_nat (S n) - 1)%Z with (Z.of_nat n - 1 + 1)%Z by lia.
    rewrite for_loop_snoc by lia.
    destruct IH as (Hi & Hl & Hp); [intros i s Hi; apply Hbody; lia|].
    set (s := for_loop 0 (Z.of_nat n - 1) body st) in *.
    replace (Z.of_nat n - 1 + 1)%Z with (Z.of_nat n) by lia.
    destruct (Hbody (Z.of_nat n) s) as (Hi' & x & Ex & Px); [lia | exact Hi | lia |].
    split; [exact Hi'|]. rewrite Ex. split; [rewrite length_app; simpl; lia|].
    intros k y Hk. destruct (Nat.lt_ge_cases k n) as [Hlt|Hge].
    + rewrite nth_error_app1 in Hk by lia. now apply Hp.
    + rewrite nth_error_app2 in Hk by lia. rewrite Hl in Hk.
      destruct (k - n)%nat as [|j] eqn:Ej; [|destruct j; discriminate Hk].
      injection Hk as <-. replace k with n by lia. exact Px.
Qed.

Section IndicatorAlignment.
Context {N : Type} `{JsNum N}.

(** X4: [calcSMA] returns one entry per close, and the entry at index i is
    the sentinel exactly when i < period - 1. *)
Theorem calcSMA_alignment (data : list N) (period : Z) :
  length (calcSMA data period) = length data /\
  forall i x, nth_error (calcSMA data period) i = Some x ->
    (x = None <-> (Z.of_nat i < period - 1)%Z).
Proof.
  unfold calcSMA, len.
  destruct (for_loop_pushes_at (fun r : list (option N) => r) (fun _ => True)
              (fun i x => x = None <-> (i < period - 1)%Z)
              (fun i r =>
                 if (i <? period - 1)%Z then r ++ [None]
                 else r ++ [Some (window_sum data period i / nofZ period)%js])
              [] I eq_refl (length data)) as (_ & Hl & Hp).
  - intros i s Hi _ _. split; [exact I|].
    destruct (Z.ltb_spec i (period - 1)); eexists; (split; [reflexivity|]).
    + tauto.
    + split; [discriminate | lia].
  - split; assumption.
Qed.

(** X5: [calcEMA] has the same alignment: one entry per close, the
    sentinel exactly at the indices below period - 1. *)
Theorem calcEMA_alignment (data : list N) (period : Z) :
  length (calcEMA data period) = length data /\
  forall i x, nth_error (calcEMA data period) i = Some x ->
    (x = None <-> (Z.of_nat i < period - 1)%Z).
Proof.
  unfold calcEMA, len.
  match goal with
  | |- context [for_loop 0 _ ?body ?st] =>
      destruct (for_loop_pushes_at (@fst (list (option N)) (option N)) (fun _ => True)
                  (fun i x => x = None <-> (i < period - 1)%Z)
                  body st I eq_refl (length data)) as (_ & Hl & Hp)
  end.
  - intros i [r ema] Hi _ _. split; [exact I|]. cbn [fst].
    destruct (Z.ltb_spec i (period - 1)); eexists; (split; [reflexivity|]).
    + tauto.
    + split; [discriminate | lia].
  - split; assumption.
Qed.

(** X6: [calcRSI] returns one entry per close; when the series has fewer
    than period + 1 closes every entry is the sentinel, and otherwise the
    entry at index i is the sentinel exactly when i < period. *)
Theorem calcRSI_alignment (data : list N) (period : Z) :
  length (calcRSI data period) = length data /\
  forall i x, nth_error (calcRSI data period) i = Some x ->
    (x = None <-> (len data < period + 1 \/ Z.of_nat i < period)%Z).
Proof.
  unfold calcRSI. destruct (Z.ltb_spec (len data) (period + 1)) as [Hshort|Hlong].
  - split; [apply length_map|].
    intros i x Hx. rewrite nth_error_map in Hx.
    destruct (nth_error data i); [|discriminate Hx]. injection Hx as <-. tauto.
  - destruct (rsi_seed data period) as [ag al]. unfold len.
    destruct (for_loop_pushes_at (fun st : list (option N) * N * N => fst (fst st))
                (fun _ => True)
                (fun i x => x = None <-> (i < period)%Z)
                (rsi_step data period) ([], ag, al) I eq_refl (length data))
      as (_ & Hl & Hp).
    + intros i [[r a] l] Hi _ _. split; [exact I|]. unfold rsi_step. cbn [fst].
      destruct (Z.ltb_spec i period).
      { eexists. split; [reflexivity | tauto]. }
      destruct (i =? period)%Z; eexists;
        (split; [reflexivity | split; [discriminate | lia]]).
    + split; [exact Hl|]. intros i x Hx. rewrite (Hp i x Hx).
      unfold len in *. lia.
Qed.

End IndicatorAlignment.

Lemma entry_nth_error (r : list (option float)) (i : nat) (x : option float) :
  nth_error r i = Some x -> entry r (Z.of_nat i) = x.
Proof.
  intros Hx. unfold entry.
  destruct (Z.ltb_spec (Z.of_nat i) 0); [lia|].
  rewrite Nat2Z.id. now apply nth_error_nth.
Qed.

(** X7: the three series of [calcBollinger] have one entry per close, the
    middle band is the SMA, and an upper or lower entry is the sentinel
    exactly where the SMA is: at the indices below period - 1. *)
Theorem calcBollinger_alignment (data : list float) (period : Z) (mult : float) :
  let b := calcBollinger data period mult in
  mid b = calcSMA data period /\
  length (upper b) = length data /\ length (lower b) = length data /\
  forall i, (i < length data)%nat ->
    (nth_error (upper b) i = Some None <-> (Z.of_nat i < period - 1)%Z) /\
    (nth_error (lower b) i = Some None <-> (Z.of_nat i < period - 1)%Z).
Proof.
  cbv zeta. unfold calcBollinger. cbn [mid upper lower].
  assert (Hsma : length (calcSMA data period) = length data /\
                 forall i x, nth_error (calcSMA data period) i = Some x ->
                   (x = None <-> (Z.of_nat i < period - 1)%Z)).
  {
    unfold calcSMA, len.
    destruct (for_loop_pushes_at (fun r : list (option float) => r) (fun _ => True)
                (fun i x => x = None <-> (i < period - 1)%Z)
                (fun i r =>
                   if (i <? period - 1)%Z then r ++ [None]
                   else r ++ [Some (window_sum data period i / nofZ period)%js])
                [] I eq_refl (length data)) as (_ & Hl & Hp).
    - intros i s Hi _ _. split; [exact I|].
      destruct (Z.ltb_spec i (period - 1)); eexists; (split; [reflexivity|]).
      + tauto.
      + split; [discriminate | lia].
    - split; assumption.
  }
  destruct Hsma as [Hlen Hmid].
  split; [reflexivity|]. unfold len.
  assert (Hentry : forall i, (0 <= i < Z.of_nat (length data))%Z ->
            exists m, entry (calcSMA data period) i = m /\
                      (m = None <-> (i < period - 1)%Z)).
  { intros i Hi.
    assert (Hin : (Z.to_nat i < length (calcSMA data period))%nat) by lia.
    destruct (nth_error (calcSMA data period) (Z.to_nat i)) as [m|] eqn:Em;
      [|apply nth_error_None in Em; lia].
    pose proof (Hmid _ _ Em) as Hm. rewrite Z2Nat.id in Hm by lia.
    apply entry_nth_error in Em. rewrite Z2Nat.id in Em by lia.
    exists m. split; assumption. }
  match goal with
  | |- context [for_loop 0 _ ?body ?st] =>
      destruct (for_loop_pushes_at
                  (@fst (list (option float)) (list (option float)))
                  (fun _ => True) (fun i x => x = None <-> (i < period - 1)%Z)
                  body st I eq_refl (length data)) as (_ & Hlu & Hpu);
      [|destruct (for_loop_pushes_at
                  (@snd (list (option float)) (list (option float)))
                  (fun _ => True) (fun i x => x = None <-> (i < period - 1)%Z)
                  body st I eq_refl (length data)) as (_ & Hll & Hpl)]
  end.
  - intros i [u l] Hi _ _. split; [exact I|].
    destruct (Hentry i Hi) as (m & -> & Hm). destruct m as [m|]; cbn [fst].
    + eexists. split; [reflexivity|]. split; [discriminate|].
      intros Hlt. apply Hm in Hlt. discriminate Hlt.
    + eexists. split; [reflexivity|]. split; [intros _; now apply Hm | reflexivity].
  - intros i [u l] Hi _ _. split; [exact I|].
    destruct (Hentry i Hi) as (m & -> & Hm). destruct m as [m|]; cbn [snd].
    + eexists. split; [reflexivity|]. split; [discriminate|].
      intros Hlt. apply Hm in Hlt. discriminate Hlt.
    + eexists. split; [reflexivity|]. split; [intros _; now apply Hm | reflexivity].
  - set (bands := for_loop 0 (Z.of_nat (length data) - 1) _ _) in *.
    split; [exact Hlu|]. split; [exact Hll|]. intros i Hi.
    destruct (nth_error (fst bands) i) as [u|] eqn:Eu; [|apply nth_error_None in Eu; lia].
    destruct (nth_error (snd bands) i) as [l|] eqn:El; [|apply nth_error_None in El; lia].
    pose proof (Hpu _ _ Eu) as Hu. pose proof (Hpl _ _ El) as Hlo.
    split; (split; [intros E; injection E as ->; tauto | intros Hlt; f_equal; tauto]).
Qed.


(** * Indicator values in exact arithmetic *)

Section ExactIndicators.
Local Open Scope Q_scope.

Lemma get_in_range (data : list Q) (j : Z) :
  (0 <= j < len data)%Z -> In (get data j) data.
Proof.
  intros Hj. unfold get, len in *.
  destruct (Z.ltb_spec j 0); [lia|]. apply nth_In. lia.
Qed.

Lemma get_of_constant (data : list Q) (v : Q) (j : Z) :
  Forall (fun x => x == v) data -> (0 <= j < len data)%Z -> get data j == v.
Proof.
  intros Hall Hj. rewrite Forall_forall in Hall. now apply Hall, get_in_range.
Qed.

(** The sum of [m] closes that all equal [v]. *)
Lemma sum_of_constant (data : list Q) (v : Q) (a : Z) (m : nat) :
  (forall j, (a <= j <= a + Z.of_nat m - 1)%Z -> get data j == v) ->
  for_loop a (a + Z.of_nat m - 1) (fun j s => (s + get data j)%js) (nofZ 0)
  == inject_Z (Z.of_nat m) * v.
Proof.
  induction m as [|m IH]; intros Hv.
  - rewrite for_loop_empty by lia. cbn [nofZ Q_num]. simpl. ring.
  - replace (a + Z.of_nat (S m) - 1)%Z with (a + Z.of_nat m - 1 + 1)%Z by lia.
    rewrite for_loop_snoc by lia. cbn [nadd Q_num].
    rewrite IH by (intros j Hj; apply Hv; lia).
    rewrite (Hv (a + Z.of_nat m - 1 + 1)%Z) by lia.
    rewrite Nat2Z.inj_succ. unfold Z.succ. rewrite inject_Z_plus. ring.
Qed.

Lemma window_mean_of_constant (data : list Q) (v : Q) (period i : Z) :
  (1 <= period)%Z -> (period - 1 <= i < len data)%Z ->
  Forall (fun x => x == v) data ->
  (window_sum data period i / nofZ period)%js == v.
Proof.
  intros Hp Hi Hall. unfold window_sum. cbn [ndiv nofZ Q_num].
  pose proof (sum_of_constant data v (i - period + 1) (Z.to_nat period)) as Hs.
  replace (i - period + 1 + Z.of_nat (Z.to_nat period) - 1)%Z with i in Hs by lia.
  rewrite Hs by (intros j Hj; apply get_of_constant; [exact Hall | lia]).
  rewrite Z2Nat.id by lia.
  assert (Hpos : 0 < inject_Z period) by (apply inject_Z_pos; lia).
  field. lra.
Qed.




(** The RSI value when the average gain is 0 and the average loss is not. *)
Lemma rsi_value_no_gain (ag al : Q) :
  ag == 0 -> 0 < al -> rsi_value ag al == 0.
Proof.
  intros Hag Hal. unfold rsi_value. cbn [nsub ndiv nadd nseq nofZ Q_num].
  change (inject_Z 100) with 100. change (inject_Z 1) with 1.
  change (inject_Z 0) with 0.
  destruct (Qeq_bool al 0) eqn:E; [apply Qeq_bool_iff in E; lra|].
  rewrite Hag. field. lra.
Qed.

Lemma loss_step (d : Q) :
  d < 0 ->
  (if negb (Qle_bool d 0) then d else 0) == 0 /\
  0 < (if negb (Qle_bool 0 d) then Qabs d else 0).
Proof.
  intros Hd.
  assert (E1 : Qle_bool d 0 = true) by (apply Qle_bool_iff; lra).
  assert (E2 : Qle_bool 0 d = false).
  { destruct (Qle_bool 0 d) eqn:E; [apply Qle_bool_iff in E; lra | reflexivity]. }
  rewrite E1, E2. cbn [negb]. split; [reflexivity|].
  rewrite Qabs_neg by lra. lra.
Qed.

Lemma rsi_seed_decreasing (data : list Q) (period : Z) :
  (1 <= period)%Z -> (period + 1 <= len data)%Z ->
  (forall j, (1 <= j < len data)%Z -> get data j < get data (j - 1)) ->
  fst (rsi_seed data period) == 0 /\ 0 < snd (rsi_seed data period).
Proof.
  intros Hp Hlen Hdec. unfold rsi_seed.
  set (body := fun (i : Z) (st : Q * Q) =>
                 let (ag, al) := st in
                 let d := (get data i - get data (i - 1))%js in
                 if (nofZ 0 <? d)%js then ((ag + d)%js, al) else (ag, (al + nabs d)%js)).
  assert (Hstep : forall i ag al, (1 <= i < len data)%Z -> ag == 0 -> 0 <= al ->
            fst (body i (ag, al)) == 0 /\ 0 < snd (body i (ag, al))).
  { intros i ag al Hi Hag Hal. unfold body.
    cbn [nsub nadd nlt nabs nofZ Q_num]. change (inject_Z 0) with 0.
    pose proof (Hdec i Hi) as Hd.
    set (d := get data i - get data (i - 1)) in *.
    assert (Hd0 : d < 0) by (unfold d; lra).
    assert (E1 : Qle_bool d 0 = true) by (apply Qle_bool_iff; lra).
    rewrite E1. cbn [negb fst snd]. split; [exact Hag|].
    rewrite Qabs_neg by lra. lra. }
  assert (Hinv : let st := for_loop 1 (period - 1) body (nofZ 0, nofZ 0) in
                 fst st == 0 /\ 0 <= snd st).
  { apply (for_loop_invariant_at (fun st : Q * Q => fst st == 0 /\ 0 <= snd st)).
    - cbn [fst snd nofZ Q_num]. change (inject_Z 0) with 0. split; [reflexivity | lra].
    - intros i [ag al] Hi [Hag Hal]. cbn [fst snd] in *.
      destruct (Hstep i ag al) as [Hag' Hal']; [lia | exact Hag | exact Hal |].
      split; [exact Hag' | lra]. }
  pose proof (for_loop_snoc body 1 (period - 1) (nofZ 0, nofZ 0)) as Eloop.
  replace (period - 1 + 1)%Z with period in Eloop by lia.
  rewrite Eloop by lia. clear Eloop.
  destruct (for_loop 1 (period - 1) body (nofZ 0, nofZ 0)) as [ag al].
  cbv zeta in Hinv. cbn [fst snd] in Hinv. destruct Hinv as [Hag Hal].
  destruct (Hstep period ag al) as [Hag' Hal']; [lia | exact Hag | exact Hal |].
  destruct (body period (ag, al)) as [ag' al']. cbn [fst snd] in *.
  cbn [ndiv nofZ Q_num].
  assert (Hpos : 0 < inject_Z period) by (apply inject_Z_pos; lia).
  split.
  - rewrite Hag'. field. lra.
  - apply Qlt_shift_div_l; lra.
Qed.



End ExactIndicators.


(** * The visible window, the minimap and the crosshair *)

Lemma map_nth_error_seq {A : Type} (l : list A) (a n : nat) :
  (a + n <= length l)%nat ->
  map (fun k => nth_error l (a + k)) (seq 0 n) =
  map Some (firstn n (skipn a l)).
Proof.
  intros Hlen. apply nth_error_ext. intros k.
  rewrite !nth_error_map.
  destruct (Nat.lt_ge_cases k n) as [Hk | Hk].
  - rewrite nth_error_firstn.
    destruct (Nat.ltb_spec k n) as [_ | ?]; [|lia].
    rewrite nth_error_skipn.
    assert (Hs : nth_error (seq 0 n) k = Some k).
    { rewrite nth_error_seq. destruct (Nat.ltb_spec k n); [reflexivity | lia]. }
    rewrite Hs. simpl.
    destruct (nth_error l (a + k)) eqn:E; [reflexivity|].
    apply nth_error_None in E. lia.
  - assert (Hs : nth_error (seq 0 n) k = None).
    { apply nth_error_None. rewrite length_seq. lia. }
    rewrite Hs.
    assert (Hf : nth_error (firstn n (skipn a l)) k = None).
    { apply nth_error_None. rewrite length_firstn. lia. }
    rewrite Hf. reflexivity.
Qed.

Lemma js_slice_inside {A : Type} (arr : list A) (a b : Z) :
  (0 <= a)%Z -> (0 <= b <= Z.of_nat (length arr))%Z ->
  js_slice arr a b = firstn (Z.to_nat (b - a)) (skipn (Z.to_nat a) arr).
Proof.
  intros Ha Hb. unfold js_slice.
  destruct (Z.ltb_spec a 0) as [? | _]; [lia|].
  destruct (Z.ltb_spec b 0) as [? | _]; [lia|].
  destruct (Z.le_gt_cases a (Z.of_nat (length arr))) as [Hle | Hgt].
  - rewrite (Z.min_l a) by lia. rewrite (Z.min_l b) by lia.
    f_equal. lia.
  - rewrite (Z.min_r a) by lia. rewrite (Z.min_l b) by lia.
    rewrite !skipn_all2 by lia. now rewrite !firstn_nil.
Qed.

(** X10: the visible slice is a window of the series: the series is some
    older candles, then the visible slice, then exactly clampedOffset
    newer candles.  So at offset 0 the slice ends with the newest candle,
    and at the largest offset it starts with the oldest one. *)
Theorem displayCandles_window {A : Type} (candles : list A)
  (vc scrollOffset : Z) :
  (0 <= vc)%Z -> (0 <= scrollOffset)%Z ->
  let totalCandles := Z.of_nat (length candles) in
  let mo := maxOffset totalCandles vc in
  let eo := clampedOffset scrollOffset mo in
  exists before after,
    candles = before ++ displayCandles candles vc eo ++ after /\
    Z.of_nat (length after) = eo /\
    Z.of_nat (length before) = (mo - eo)%Z /\
    (scrollOffset = 0%Z -> after = []) /\
    ((mo <= scrollOffset)%Z -> before = []).
Proof.
  intros Hvc Hso. cbv zeta.
  set (n := Z.of_nat (length candles)).
  set (mo := maxOffset n vc). set (eo := clampedOffset scrollOffset mo).
  assert (Hmo : (0 <= mo <= n)%Z) by (subst mo; unfold maxOffset; lia).
  assert (Heo : (0 <= eo <= mo)%Z) by (subst eo; unfold clampedOffset; lia).
  assert (Hstart : Z.max 0 (n - eo - vc) = (mo - eo)%Z)
    by (subst eo mo; unfold clampedOffset, maxOffset; lia).
  unfold displayCandles. fold n. rewrite Hstart.
  rewrite js_slice_inside by (fold n; lia). fold n.
  exists (firstn (Z.to_nat (mo - eo)) candles).
  exists (skipn (Z.to_nat (n - eo - (mo - eo)))
            (skipn (Z.to_nat (mo - eo)) candles)).
  split; [|split; [|split; [|split]]].
  - now rewrite !firstn_skipn.
  - rewrite !length_skipn. subst n. lia.
  - rewrite length_firstn. subst n. lia.
  - intros H0. apply length_zero_iff_nil. rewrite !length_skipn.
    subst eo. unfold clampedOffset in *. subst n. lia.
  - intros Hle. apply length_zero_iff_nil. rewrite length_firstn.
    subst eo. unfold clampedOffset in *. lia.
Qed.

Lemma displayCandles_window_witness :
  exists before after : list Z,
    [1; 2; 3; 4; 5]%Z =
      before ++ displayCandles [1; 2; 3; 4; 5]%Z 2
                  (clampedOffset 1 (maxOffset 5 2)) ++ after /\
    Z.of_nat (length after) = 1%Z /\ Z.of_nat (length before) = 2%Z.
Proof.
  destruct (displayCandles_window [1; 2; 3; 4; 5]%Z 2 1 ltac:(lia) ltac:(lia))
    as (before & after & H1 & H2 & H3 & _).
  exists before, after. split; [exact H1|]. split; [exact H2 | exact H3].
Defined.

(** X11: the candles highlighted on the minimap are exactly the candles of
    the visible slice, in the same order, whenever the effective offset
    does not exceed the length of the series. *)
Theorem minimapView_displayCandles {A : Type} (candles : list A)
  (vc eo : Z) :
  (eo <= Z.of_nat (length candles))%Z ->
  minimapView candles vc eo = map Some (displayCandles candles vc eo).
Proof.
  intros Heo. unfold minimapView, displayCandles. cbv zeta.
  set (n := Z.of_nat (length candles)).
  unfold range_incl. rewrite map_map.
  destruct (Z.le_gt_cases 0 eo) as [Hpos | Hneg].
  - rewrite js_slice_inside by (fold n; lia).
    rewrite (Z.min_r n) by lia.
    set (a := Z.max 0 (n - eo - vc)).
    replace (Z.to_nat (n - eo - 1 - a + 1)) with (Z.to_nat (n - eo - a)) by lia.
    destruct (Z.le_gt_cases a (n - eo)) as [Ha | Ha].
    + rewrite <- (map_nth_error_seq candles (Z.to_nat a) (Z.to_nat (n - eo - a)))
        by (subst n a; lia).
      apply map_ext_in. intros k Hk. apply in_seq in Hk.
      f_equal. subst a. lia.
    + replace (Z.to_nat (n - eo - a)) with 0%nat by lia. reflexivity.
  - rewrite (Z.min_l n) by lia.
    set (a := Z.max 0 (n - eo - vc)).
    unfold js_slice. fold n.
    destruct (Z.ltb_spec a 0) as [? | _]; [subst a; lia|].
    destruct (Z.ltb_spec (n - eo) 0) as [? | _]; [lia|].
    rewrite (Z.min_r (n - eo)) by lia.
    replace (Z.to_nat (n - 1 - a + 1)) with (Z.to_nat (n - a)) by lia.
    destruct (Z.le_gt_cases a n) as [Ha | Ha].
    + rewrite (Z.min_l a) by lia. rewrite (Z.max_l (n - a)) by lia.
      rewrite <- (map_nth_error_seq candles (Z.to_nat a) (Z.to_nat (n - a)))
        by (subst n; lia).
      apply map_ext_in. intros k Hk. apply in_seq in Hk.
      f_equal. lia.
    + rewrite (Z.min_r a) by lia.
      replace (Z.to_nat (n - a)) with 0%nat by lia.
      replace (Z.to_nat (Z.max (n - n) 0)) with 0%nat by lia. reflexivity.
Qed.

Lemma minimapView_displayCandles_witness :
  minimapView [1; 2; 3; 4; 5]%Z 2 1 = [Some 3; Some 4]%Z /\
  displayCandles [1; 2; 3; 4; 5]%Z 2 1 = [3; 4]%Z.
Proof.
  rewrite (minimapView_displayCandles [1; 2; 3; 4; 5]%Z 2 1 ltac:(simpl; lia)).
  split; reflexivity.
Defined.


(** * The plot in exact arithmetic: price axis, layout and crosshair *)

Section ExactPlot.
Local Open Scope Q_scope.

Lemma fold_Qmax_ge_in (t : list Q) (x p : Q) :
  In p (x :: t) -> p <= fold_left Qmax t x.
Proof.
  revert x. induction t as [|y t IH]; intros x [<- | Hin]; simpl.
  - lra.
  - destruct Hin.
  - eapply Qle_trans; [apply (Q.le_max_l x y) | apply fold_Qmax_ge].
  - destruct Hin as [<- | Hin].
    + eapply Qle_trans; [apply (Q.le_max_r x y) | apply fold_Qmax_ge].
    + apply IH. now right.
Qed.

Lemma fold_Qmin_le_in (t : list Q) (x p : Q) :
  In p (x :: t) -> fold_left Qmin t x <= p.
Proof.
  revert x. induction t as [|y t IH]; intros x [<- | Hin]; simpl.
  - lra.
  - destruct Hin.
  - eapply Qle_trans; [apply fold_Qmin_le | apply Q.le_min_l].
  - destruct Hin as [<- | Hin].
    + eapply Qle_trans; [apply fold_Qmin_le | apply Q.le_min_r].
    + apply IH. now right.
Qed.



(** The widths of the layout. *)
Lemma candleWidth_ge (W : Q) (n : Z) : 2 <= candleWidth W n.
Proof. unfold candleWidth. cbn [nmax nofZ Q_num]. apply Q.le_max_l. Qed.

Lemma candleGap_bounds (cw : Q) : 2 <= cw -> 1 <= candleGap cw <= cw.
Proof.
  intros Hcw. unfold candleGap. cbn [nmax nofZ nmul nlit Q_num]. split.
  - apply Q.le_max_l.
  - apply Q.max_lub; [change (inject_Z 1) with 1; lra | lra].
Qed.

Lemma fullWidth_bounds (W : Q) (n : Z) :
  let cw := candleWidth W n in
  let fw := fullWidth W n in
  2 <= cw /\ cw + 1 <= fw /\ fw <= 2 * cw.
Proof.
  cbv zeta. pose proof (candleWidth_ge W n) as Hcw.
  pose proof (candleGap_bounds _ Hcw) as Hgap.
  unfold fullWidth. cbn [nadd Q_num]. lra.
Qed.

Lemma Qfloor_eq_iff (x : Q) (i : Z) :
  Qfloor x = i <-> inject_Z i <= x < inject_Z i + 1.
Proof.
  split.
  - intros <-. split; [apply Qfloor_le|].
    pose proof (Qlt_floor x) as Hlt. rewrite inject_Z_plus in Hlt. exact Hlt.
  - intros [Hlo Hhi].
    pose proof (Qfloor_resp_le _ _ Hlo) as H1. rewrite Qfloor_Z in H1.
    pose proof (Qfloor_le x) as H2.
    assert (H3 : inject_Z (Qfloor x) < inject_Z (i + 1)).
    { rewrite inject_Z_plus. change (inject_Z 1) with 1. lra. }
    rewrite <- Zlt_Qlt in H3. lia.
Qed.




End ExactPlot.


(** * Seeding and the series it starts *)

Lemma rev_range_incl_succ (n : nat) :
  rev (range_incl 1 (Z.of_nat (S n))) =
  Z.of_nat (S n) :: rev (range_incl 1 (Z.of_nat n)).
Proof.
  replace (Z.of_nat (S n)) with (Z.of_nat n + 1)%Z by lia.
  rewrite range_incl_snoc by lia. rewrite rev_app_distr. reflexivity.
Qed.

Lemma range_incl_to_nat (count : Z) :
  range_incl 1 count = range_incl 1 (Z.of_nat (Z.to_nat count)).
Proof.
  destruct (Z.le_gt_cases 0 count) as [Hc | Hc].
  - now rewrite Z2Nat.id.
  - rewrite !range_incl_empty by lia. reflexivity.
Qed.

Lemma adjacent_seed_times (B pMs : Z) (n : nat) :
  adjacent (fun a b => b = a + pMs)%Z
    (map (fun i => B - i * pMs)%Z (rev (range_incl 1 (Z.of_nat n)))).
Proof.
  induction n as [|n IH]; [exact I|].
  rewrite rev_range_incl_succ. cbn [map].
  destruct n as [|n].
  - exact I.
  - rewrite rev_range_incl_succ in *. cbn [map] in *.
    split; [lia | exact IH].
Qed.

Lemma last_candle_map_time {N : Type} (s : list (Candle N)) (l : list Z) (b : Z) :
  times s = l ++ [b] -> option_map time (last_candle s) = Some b.
Proof.
  intros E. destruct s as [|c s _] using rev_ind.
  - destruct l; discriminate E.
  - rewrite times_app in E. simpl in E. apply app_inj_tail in E.
    destruct E as [_ E]. rewrite last_candle_snoc. simpl. now f_equal.
Qed.

Section SeedProperties.
Context {N : Type} `{JsNum N} `{JsSqrt N}.

Lemma seed_fold_times (basePrice : N) (periodSec now : Z) (rand : nat -> N)
  (l : list Z) (st : list (Candle N) * N * nat) :
  times (fst (fst (fold_left
                     (fun st i => seed_step basePrice periodSec now rand i st)
                     l st))) =
  times (fst (fst st)) ++
  map (fun i => ((now - i * (periodSec * 1000)) / (periodSec * 1000) *
                 (periodSec * 1000))%Z) l.
Proof.
  revert st. induction l as [|i l IH]; intros [[cs pr] k].
  - simpl. now rewrite app_nil_r.
  - cbn [fold_left]. rewrite IH. unfold seed_step. cbn [fst].
    rewrite times_app. cbn [times map time]. now rewrite <- app_assoc.
Qed.

Lemma seed_time (periodSec now i : Z) :
  periodSec <> 0%Z ->
  ((now - i * (periodSec * 1000)) / (periodSec * 1000) * (periodSec * 1000))%Z
  = (bucket_of periodSec now - i * (periodSec * 1000))%Z.
Proof.
  intros Hp. unfold bucket_of. cbv zeta.
  replace (now - i * (periodSec * 1000))%Z
    with (now + (- i) * (periodSec * 1000))%Z by lia.
  rewrite Z.div_add by lia. lia.
Qed.

Lemma seedCandles_times_eq (basePrice : N) (periodSec count now : Z)
  (rand : nat -> N) :
  periodSec <> 0%Z ->
  times (seedCandles basePrice periodSec count now rand) =
  map (fun i => bucket_of periodSec now - i * (periodSec * 1000))%Z
    (rev (range_incl 1 count)).
Proof.
  intros Hp. unfold seedCandles. rewrite seed_fold_times. cbn [fst times map app].
  apply map_ext. intros i. now apply seed_time.
Qed.

Lemma seedCandles_times_last (basePrice : N) (periodSec count now : Z)
  (rand : nat -> N) :
  periodSec <> 0%Z -> (1 <= count)%Z ->
  exists l,
    times (seedCandles basePrice periodSec count now rand) =
    l ++ [(bucket_of periodSec now - periodSec * 1000)%Z].
Proof.
  intros Hp Hc.
  pose proof (seedCandles_times_eq basePrice periodSec count now rand Hp) as E.
  rewrite range_incl_to_nat in E.
  destruct (Z.to_nat count) as [|n] eqn:En; [lia|].
  replace (Z.of_nat (S n)) with (Z.of_nat n + 1)%Z in E by lia.
  assert (Hr : range_incl 1 (Z.of_nat n + 1) = 1%Z :: range_incl 2 (Z.of_nat n + 1)).
  { unfold range_incl.
    replace (Z.to_nat (Z.of_nat n + 1 - 1 + 1)) with (S (Z.to_nat (Z.of_nat n + 1 - 2 + 1))) by lia.
    cbn [seq map]. f_equal. rewrite <- seq_shift, map_map.
    apply map_ext. intros a. lia. }
  rewrite Hr in E. cbn [rev] in E. rewrite map_app in E. cbn [map] in E.
  eexists. rewrite E. f_equal. f_equal. lia.
Qed.

Lemma chained_snoc (cs : list (Candle N)) (c : Candle N) :
  chained cs ->
  match last_candle cs with Some l => open c = close l | None => True end ->
  chained (cs ++ [c]).
Proof.
  induction cs as [|a cs IH]; intros Hch Hl; [exact I|].
  destruct cs as [|b cs].
  - simpl. split; [exact Hl | exact I].
  - cbn [app chained] in *. destruct Hch as [E Hch]. split; [exact E|].
    apply IH; [exact Hch|].
    unfold last_candle in *. cbn [length] in *.
    replace (S (S (length cs)) - 1)%nat with (S (S (length cs) - 1)) in Hl by lia.
    exact Hl.
Qed.

Lemma chained_skipn (k : nat) (cs : list (Candle N)) :
  chained cs -> chained (skipn k cs).
Proof.
  revert cs. induction k as [|k IH]; intros cs Hch; [exact Hch|].
  destruct cs as [|a cs]; [exact I|]. simpl. apply IH.
  destruct cs as [|b cs]; [exact I|]. now destruct Hch.
Qed.

Lemma chained_app_inv (cs : list (Candle N)) (c : Candle N) :
  chained (cs ++ [c]) ->
  chained cs /\
  match last_candle cs with Some l => open c = close l | None => True end.
Proof.
  induction cs as [|a cs IH]; intros Hch; [split; exact I|].
  destruct cs as [|b cs].
  - simpl in Hch. destruct Hch as [E _]. split; [exact I | exact E].
  - cbn [app chained] in Hch. destruct Hch as [E Hch].
    destruct (IH Hch) as [H1 H2]. split.
    + cbn [chained]. split; [exact E | exact H1].
    + unfold last_candle in *. cbn [length] in *.
      replace (S (S (length cs)) - 1)%nat with (S (S (length cs) - 1)) by lia.
      exact H2.
Qed.

Lemma seed_fold_chained (basePrice : N) (periodSec now : Z) (rand : nat -> N)
  (l : list Z) (st : list (Candle N) * N * nat) :
  chained (fst (fst st)) -> ends_at (fst (fst st)) (snd (fst st)) ->
  chained (fst (fst (fold_left
                       (fun st i => seed_step basePrice periodSec now rand i st)
                       l st))).
Proof.
  revert st. induction l as [|i l IH]; intros [[cs pr] k] Hch Hend; [exact Hch|].
  cbn [fold_left]. apply IH.
  - unfold seed_step. cbn [fst]. apply chained_snoc; [exact Hch|].
    cbn [fst snd] in Hend. unfold ends_at in Hend.
    destruct (last_candle cs); [now symmetry | exact I].
  - unfold seed_step, ends_at. cbn [fst snd]. rewrite last_candle_snoc.
    reflexivity.
Qed.

Lemma seed_fold_first (basePrice : N) (periodSec now : Z) (rand : nat -> N)
  (l : list Z) (st : list (Candle N) * N * nat) :
  hd_error (fst (fst (fold_left
                        (fun st i => seed_step basePrice periodSec now rand i st)
                        l st))) =
  match fst (fst st), l with
  | c :: _, _ => Some c
  | [], [] => None
  | [], i :: _ => hd_error (fst (fst (seed_step basePrice periodSec now rand i st)))
  end.
Proof.
  revert st. induction l as [|i l IH]; intros [[cs pr] k].
  - simpl. now destruct cs.
  - cbn [fold_left]. rewrite IH. unfold seed_step at 2 3. cbn [fst].
    destruct cs as [|c cs]; reflexivity.
Qed.

Lemma seedCandles_length (basePrice : N) (periodSec count now : Z)
  (rand : nat -> N) :
  length (seedCandles basePrice periodSec count now rand) = Z.to_nat count.
Proof.
  unfold seedCandles.
  assert (Hlen : forall l st,
    length (fst (fst (fold_left
       (fun st i => seed_step basePrice periodSec now rand i st) l st))) =
    (length (fst (fst st)) + length l)%nat).
  { induction l as [|i l IH]; intros [[cs pr] k]; [simpl; lia|].
    cbn [fold_left]. rewrite IH. unfold seed_step. cbn [fst].
    rewrite length_app. simpl. lia. }
  rewrite Hlen. cbn [fst length]. rewrite length_rev, range_incl_length.
  f_equal. lia.
Qed.

Lemma seedCandles_spaced (basePrice : N) (periodSec count now : Z)
  (rand : nat -> N) :
  periodSec <> 0%Z ->
  adjacent (fun a b => b = a + periodSec * 1000)%Z
    (times (seedCandles basePrice periodSec count now rand)).
Proof.
  intros Hp. rewrite seedCandles_times_eq by exact Hp.
  rewrite range_incl_to_nat. apply adjacent_seed_times.
Qed.

Lemma seedCandles_aligned (basePrice : N) (periodSec count now : Z)
  (rand : nat -> N) :
  periodSec <> 0%Z ->
  Forall (Z.divide (periodSec * 1000))
    (times (seedCandles basePrice periodSec count now rand)).
Proof.
  intros Hp. rewrite seedCandles_times_eq by exact Hp.
  apply Forall_forall. intros t Ht.
  apply in_map_iff in Ht. destruct Ht as (i & <- & _).
  apply Z.divide_sub_r.
  - apply bucket_of_divide.
  - apply Z.divide_factor_r.
Qed.

Lemma seed_chained (basePrice : N) (periodSec count now : Z) (rand : nat -> N) :
  chained (seedCandles basePrice periodSec count now rand).
Proof. unfold seedCandles. apply seed_fold_chained; exact I. Qed.


(** X17: the seeded series is chained, every candle opening at the close
    of the candle before it, and its first candle opens at the base
    price. *)
Theorem seedCandles_chained (basePrice : N) (periodSec count now : Z)
  (rand : nat -> N) :
  let s := seedCandles basePrice periodSec count now rand in
  chained s /\
  (forall c, hd_error s = Some c -> open c = basePrice).
Proof.
  cbv zeta. split; [apply seed_chained|].
  intros c Hc. unfold seedCandles in Hc. rewrite seed_fold_first in Hc.
  cbn [fst] in Hc. destruct (rev (range_incl 1 count)) as [|i l]; [discriminate Hc|].
  unfold seed_step in Hc. cbn [fst app hd_error] in Hc.
  injection Hc as <-. reflexivity.
Qed.

End SeedProperties.

Section ChainedTicks.
Context {N : Type} `{JsNum N}.

Lemma tick_update_chained (s : list (Candle N)) (periodSec : Z) (p : N) (now : Z) :
  chained s -> chained (tick_update s periodSec p now).
Proof.
  intros Hch. destruct s as [|c l _] using rev_ind.
  - rewrite tick_update_nil. exact I.
  - destruct (chained_app_inv l c Hch) as [Hl Hc].
    destruct (Z.eq_dec (time c) (bucket_of periodSec now)) as [E|E].
    + rewrite tick_update_same by exact E.
      apply chained_snoc; [exact Hl | exact Hc].
    + rewrite tick_update_new by exact E.
      apply chained_snoc; [exact Hch|].
      rewrite last_candle_snoc. reflexivity.
Qed.

Lemma tickCandles_chained (s : list (Candle N)) (periodSec : Z) (p : N) (now : Z) :
  chained s -> chained (tickCandles s periodSec p now).
Proof.
  intros Hch. rewrite tickCandles_suffix. apply chained_skipn.
  now apply tick_update_chained.
Qed.

Lemma runTicks_chained (periodSec : Z) (ticks : list (Z * N)) (s : list (Candle N)) :
  chained s -> chained (runTicks periodSec s ticks).
Proof.
  revert s. induction ticks as [|[now p] ticks IH]; intros s Hch; [exact Hch|].
  unfold runTicks. cbn [fold_left fst snd].
  apply IH. now apply tickCandles_chained.
Qed.

Lemma tickCandles_length (s : list (Candle N)) (periodSec : Z) (p : N) (now : Z) :
  (length (tickCandles s periodSec p now) <= 500)%nat.
Proof.
  rewrite tickCandles_suffix. rewrite length_skipn. lia.
Qed.

End ChainedTicks.



(** * The order of binary64 numbers *)

Lemma SFcompare_antisym (x y : spec_float) :
  SFcompare y x = option_map CompOpp (SFcompare x y).
Proof.
  destruct x as [sx|sx| |sx mx ex], y as [sy|sy| |sy my ey]; simpl;
    try reflexivity;
    try (destruct sx; reflexivity); try (destruct sy; reflexivity);
    try (destruct sx, sy; reflexivity).
  destruct sx, sy; simpl; try reflexivity.
  - rewrite (Z.compare_antisym ex ey).
    destruct (ex ?= ey)%Z; simpl; try reflexivity.
    f_equal. f_equal. rewrite Pos.compare_cont_antisym. reflexivity.
  - rewrite (Z.compare_antisym ex ey).
    destruct (ex ?= ey)%Z; simpl; try reflexivity.
    f_equal. rewrite Pos.compare_cont_antisym. reflexivity.
Qed.

Lemma SFcompare_defined (x y : spec_float) :
  x <> S754_nan -> y <> S754_nan -> exists c, SFcompare x y = Some c.
Proof.
  destruct x as [sx|sx| |sx mx ex], y as [sy|sy| |sy my ey]; simpl;
    intros Hx Hy; try congruence; eexists; reflexivity.
Qed.

Lemma SFcompare_refl (x : spec_float) :
  x <> S754_nan -> SFcompare x x = Some Eq.
Proof.
  destruct x as [s|s| |s m e]; simpl; intros Hx; try congruence.
  - destruct s; reflexivity.
  - rewrite Z.compare_refl.
    change (Pos.compare_cont Eq m m) with (Pos.compare m m).
    rewrite Pos.compare_refl. destruct s; reflexivity.
Qed.

Lemma not_nan_spec (x : float) :
  PrimFloat.is_nan x = false <-> Prim2SF x <> S754_nan.
Proof.
  rewrite is_nan_spec. unfold SFeqb. split.
  - intros Hn E. rewrite E in Hn. discriminate Hn.
  - intros Hx. now rewrite SFcompare_refl.
Qed.

Lemma ltb_leb (a b : float) :
  PrimFloat.ltb a b = true -> PrimFloat.leb a b = true.
Proof.
  rewrite FloatAxioms.ltb_spec, FloatAxioms.leb_spec. unfold SFltb, SFleb.
  destruct (SFcompare (Prim2SF a) (Prim2SF b)) as [[| |]|]; congruence.
Qed.

Lemma leb_refl (a : float) :
  PrimFloat.is_nan a = false -> PrimFloat.leb a a = true.
Proof.
  intros Ha. apply not_nan_spec in Ha.
  rewrite FloatAxioms.leb_spec. unfold SFleb. now rewrite SFcompare_refl.
Qed.

Lemma not_ltb_leb (a b : float) :
  PrimFloat.is_nan a = false -> PrimFloat.is_nan b = false ->
  PrimFloat.ltb a b = false -> PrimFloat.leb b a = true.
Proof.
  intros Ha Hb. apply not_nan_spec in Ha, Hb.
  rewrite FloatAxioms.ltb_spec, FloatAxioms.leb_spec. unfold SFltb, SFleb.
  rewrite (SFcompare_antisym (Prim2SF a) (Prim2SF b)).
  destruct (SFcompare_defined _ _ Ha Hb) as [c ->].
  destruct c; simpl; congruence.
Qed.

Lemma leb_not_nan (a b : float) :
  PrimFloat.leb a b = true ->
  PrimFloat.is_nan a = false /\ PrimFloat.is_nan b = false.
Proof.
  rewrite FloatAxioms.leb_spec. unfold SFleb. intros Hle.
  split; apply not_nan_spec; intros E; rewrite E in Hle.
  - discriminate Hle.
  - destruct (Prim2SF a); discriminate Hle.
Qed.

Lemma leb_not_ltb (a b : float) :
  PrimFloat.leb a b = true -> PrimFloat.ltb b a = false.
Proof.
  rewrite FloatAxioms.ltb_spec, FloatAxioms.leb_spec. unfold SFltb, SFleb.
  rewrite (SFcompare_antisym (Prim2SF a) (Prim2SF b)).
  destruct (SFcompare (Prim2SF a) (Prim2SF b)) as [[| |]|]; simpl; congruence.
Qed.

Lemma finite_not_nan (a : float) :
  PrimFloat.is_finite a = true -> PrimFloat.is_nan a = false.
Proof.
  unfold PrimFloat.is_finite. destruct (PrimFloat.is_nan a); [|reflexivity].
  simpl. discriminate.
Qed.

(** [Math.max] and [Math.min] when the result is a number. *)
Lemma F64_max_cases (a b : float) :
  PrimFloat.is_nan (F64.max a b) = false ->
  PrimFloat.is_nan a = false /\ PrimFloat.is_nan b = false /\
  (F64.max a b = a \/ F64.max a b = b) /\
  PrimFloat.leb a (F64.max a b) = true /\
  PrimFloat.leb b (F64.max a b) = true.
Proof.
  unfold F64.max.
  destruct (PrimFloat.is_nan a) eqn:Ha;
    [intros Hn; vm_compute in Hn; discriminate Hn|].
  destruct (PrimFloat.is_nan b) eqn:Hb;
    [intros Hn; vm_compute in Hn; discriminate Hn|].
  cbn [orb]. intros _. split; [reflexivity|]. split; [reflexivity|].
  destruct (PrimFloat.ltb a b) eqn:Hab.
  - split; [now right|]. split; [now apply ltb_leb | now apply leb_refl].
  - destruct (PrimFloat.ltb b a) eqn:Hba.
    + split; [now left|]. split; [now apply leb_refl | now apply ltb_leb].
    + destruct (PrimFloat.get_sign a).
      * split; [now right|]. split; [now apply not_ltb_leb | now apply leb_refl].
      * split; [now left|]. split; [now apply leb_refl | now apply not_ltb_leb].
Qed.

Lemma F64_min_cases (a b : float) :
  PrimFloat.is_nan (F64.min a b) = false ->
  PrimFloat.is_nan a = false /\ PrimFloat.is_nan b = false /\
  (F64.min a b = a \/ F64.min a b = b) /\
  PrimFloat.leb (F64.min a b) a = true /\
  PrimFloat.leb (F64.min a b) b = true.
Proof.
  unfold F64.min.
  destruct (PrimFloat.is_nan a) eqn:Ha;
    [intros Hn; vm_compute in Hn; discriminate Hn|].
  destruct (PrimFloat.is_nan b) eqn:Hb;
    [intros Hn; vm_compute in Hn; discriminate Hn|].
  cbn [orb]. intros _. split; [reflexivity|]. split; [reflexivity|].
  destruct (PrimFloat.ltb a b) eqn:Hab.
  - split; [now left|]. split; [now apply leb_refl | now apply ltb_leb].
  - destruct (PrimFloat.ltb b a) eqn:Hba.
    + split; [now right|]. split; [now apply ltb_leb | now apply leb_refl].
    + destruct (PrimFloat.get_sign a).
      * split; [now left|]. split; [now apply leb_refl | now apply not_ltb_leb].
      * split; [now right|]. split; [now apply not_ltb_leb | now apply leb_refl].
Qed.

Lemma F64_max_not_nan (a b : float) :
  PrimFloat.is_nan a = false -> PrimFloat.is_nan b = false ->
  PrimFloat.is_nan (F64.max a b) = false.
Proof.
  intros Ha Hb. unfold F64.max. rewrite Ha, Hb. cbn [orb].
  destruct (PrimFloat.ltb a b); [exact Hb|].
  destruct (PrimFloat.ltb b a); [exact Ha|].
  destruct (PrimFloat.get_sign a); assumption.
Qed.

Lemma F64_min_not_nan (a b : float) :
  PrimFloat.is_nan a = false -> PrimFloat.is_nan b = false ->
  PrimFloat.is_nan (F64.min a b) = false.
Proof.
  intros Ha Hb. unfold F64.min. rewrite Ha, Hb. cbn [orb].
  destruct (PrimFloat.ltb a b); [exact Ha|].
  destruct (PrimFloat.ltb b a); [exact Hb|].
  destruct (PrimFloat.get_sign a); assumption.
Qed.


(** * The series from seeding through the ticks *)

Section SeriesFromSeed.
Context {N : Type} `{JsNum N}.

Lemma tick_update_snoc (s : list (Candle N)) (periodSec : Z) (p : N) (now : Z) :
  exists l c,
    tick_update s periodSec p now = l ++ [c] /\
    time c = bucket_of periodSec now /\ close c = p /\
    (length l <= length s)%nat.
Proof.
  destruct s as [|c0 l _] using rev_ind.
  - exists [], (mkCandle (bucket_of periodSec now) p p p p).
    rewrite tick_update_nil. repeat split. simpl. lia.
  - destruct (Z.eq_dec (time c0) (bucket_of periodSec now)) as [E|E].
    + rewrite tick_update_same by exact E. eexists l, _.
      split; [reflexivity|]. split; [exact E|]. split; [reflexivity|].
      rewrite length_app. simpl. lia.
    + rewrite tick_update_new by exact E. eexists (l ++ [c0]), _.
      split; [reflexivity|]. split; [reflexivity|]. split; [reflexivity|]. lia.
Qed.

Lemma tickCandles_last (s : list (Candle N)) (periodSec : Z) (p : N) (now : Z) :
  exists c,
    last_candle (tickCandles s periodSec p now) = Some c /\
    time c = bucket_of periodSec now /\ close c = p.
Proof.
  destruct (tick_update_snoc s periodSec p now) as (l & c & E & Ht & Hc & _).
  exists c. split; [|split; assumption].
  rewrite tickCandles_suffix. cbv zeta. rewrite E.
  rewrite skipn_app, length_app. simpl.
  replace (length l + 1 - 500 - length l)%nat with 0%nat by lia.
  simpl. apply last_candle_snoc.
Qed.

Lemma runTicks_snoc (periodSec : Z) (s : list (Candle N)) (ticks : list (Z * N))
  (now : Z) (p : N) :
  runTicks periodSec s (ticks ++ [(now, p)]) =
  tickCandles (runTicks periodSec s ticks) periodSec p now.
Proof. unfold runTicks. rewrite fold_left_app. reflexivity. Qed.

Lemma runTicks_length (periodSec : Z) (ticks : list (Z * N)) (s : list (Candle N)) :
  (length s <= 500)%nat -> (length (runTicks periodSec s ticks) <= 500)%nat.
Proof.
  revert s. induction ticks as [|[now p] ticks IH]; intros s Hs; [exact Hs|].
  unfold runTicks. cbn [fold_left fst snd]. apply IH. apply tickCandles_length.
Qed.


End SeriesFromSeed.

Lemma bucket_of_before (periodSec now : Z) :
  (0 < periodSec)%Z ->
  bucket_of periodSec (bucket_of periodSec now - 1) =
  (bucket_of periodSec now - periodSec * 1000)%Z.
Proof.
  intros Hp. unfold bucket_of. cbv zeta.
  set (pMs := (periodSec * 1000)%Z). set (q := (now / pMs)%Z).
  assert (HpMs : (0 < pMs)%Z) by (subst pMs; lia).
  assert (E : ((q * pMs - 1) / pMs = q - 1)%Z).
  { symmetry. apply (Z.div_unique _ _ _ (pMs - 1)); lia. }
  rewrite E. lia.
Qed.

Lemma bucket_of_le (periodSec now : Z) :
  (0 < periodSec)%Z -> (bucket_of periodSec now <= now)%Z.
Proof.
  intros Hp. unfold bucket_of. cbv zeta.
  rewrite Z.mul_comm. apply Z.mul_div_le. lia.
Qed.

Lemma bucket_of_lt_next (periodSec now : Z) :
  (0 < periodSec)%Z -> (now < bucket_of periodSec now + periodSec * 1000)%Z.
Proof.
  intros Hp. unfold bucket_of. cbv zeta.
  set (pMs := (periodSec * 1000)%Z).
  assert (HpMs : (0 < pMs)%Z) by (subst pMs; lia).
  pose proof (Z.mul_succ_div_gt now pMs HpMs). lia.
Qed.

Section SeedThenTicks.
Context {N : Type} `{JsNum N} `{JsSqrt N}.

(** X19: the live series of a timeframe: the seeded series followed by any
    run of ticks stays chained, every candle opening at the close of the
    candle before it, and when at most 500 candles are seeded it never has
    more than 500 candles. *)
Theorem seeded_series_chained (basePrice : N) (periodSec count now : Z)
  (rand : nat -> N) (ticks : list (Z * N)) :
  (count <= 500)%Z ->
  let s := runTicks periodSec
             (seedCandles basePrice periodSec count now rand) ticks in
  chained s /\ (length s <= 500)%nat.
Proof.
  intros Hc. cbv zeta. split.
  - apply runTicks_chained. apply seed_chained.
  - apply runTicks_length. rewrite seedCandles_length. lia.
Qed.


End SeedThenTicks.

Lemma seeded_series_chained_witness :
  (3 <= 500)%Z /\
  chained (runTicks 60 (seedCandles 100%float 60 3 1000000 (fun _ => 0.25%float))
             [(1000800%Z, 101%float); (1020800%Z, 102%float)]).
Proof.
  split; [lia|].
  destruct (seeded_series_chained 100%float 60 3 1000000 (fun _ => 0.25%float)
              [(1000800%Z, 101%float); (1020800%Z, 102%float)] ltac:(lia))
    as [Hch _].
  exact Hch.
Defined.


(** ** The close of every candle lies between its low and its high *)

Section CloseInRange.

Lemma close_in_range_fresh (t : Z) (o p : float) :
  PrimFloat.is_nan p = false ->
  close_in_range (mkCandle t o p p p) = true.
Proof.
  intros Hp. unfold close_in_range. cbn [low close high nle float_num].
  now rewrite leb_refl.
Qed.

Lemma close_in_range_update (c : Candle float) (p : float) :
  close_in_range c = true -> PrimFloat.is_nan p = false ->
  close_in_range
    (mkCandle (time c) (open c) (nmax (high c) p) (nmin (low c) p) p) = true.
Proof.
  unfold close_in_range. cbn [low close high nle nmax nmin float_num].
  intros Hc Hp. apply andb_prop in Hc. destruct Hc as [Hl Hh].
  apply leb_not_nan in Hl, Hh. destruct Hl as [Hlow _], Hh as [_ Hhigh].
  destruct (F64_min_cases (low c) p (F64_min_not_nan _ _ Hlow Hp))
    as (_ & _ & _ & _ & Hmin).
  destruct (F64_max_cases (high c) p (F64_max_not_nan _ _ Hhigh Hp))
    as (_ & _ & _ & _ & Hmax).
  now rewrite Hmin, Hmax.
Qed.

Lemma Forall_skipn_candles {A : Type} (P : A -> Prop) (k : nat) (l : list A) :
  Forall P l -> Forall P (skipn k l).
Proof.
  revert l. induction k as [|k IH]; intros l Hl; [exact Hl|].
  destruct l as [|a l]; [constructor|]. simpl. apply IH. now inversion Hl.
Qed.

Lemma tickCandles_close_in_range (s : list (Candle float)) (periodSec : Z)
  (p : float) (now : Z) :
  PrimFloat.is_nan p = false ->
  Forall (fun c => close_in_range c = true) s ->
  Forall (fun c => close_in_range c = true) (tickCandles s periodSec p now).
Proof.
  intros Hp Hs. rewrite tickCandles_suffix. cbv zeta.
  apply Forall_skipn_candles.
  destruct s as [|c l _] using rev_ind.
  - rewrite tick_update_nil. constructor; [|constructor].
    now apply close_in_range_fresh.
  - apply Forall_app in Hs. destruct Hs as [Hl Hc].
    inversion Hc as [|? ? Hc0 _]; subst.
    destruct (Z.eq_dec (time c) (bucket_of periodSec now)) as [E|E].
    + rewrite tick_update_same by exact E. apply Forall_app. split; [exact Hl|].
      constructor; [|constructor]. now apply close_in_range_update.
    + rewrite tick_update_new by exact E. apply Forall_app. split.
      * apply Forall_app. split; [exact Hl | exact Hc].
      * constructor; [|constructor]. now apply close_in_range_fresh.
Qed.

(** X21: on binary64 numbers, when no tick price is NaN, a run of ticks
    keeps every close between the low and the high of its candle: if that
    holds on the series before, it holds on the series after (so it holds
    for every series built from the empty one). *)
Theorem runTicks_close_in_range (periodSec : Z) (ticks : list (Z * float))
  (s : list (Candle float)) :
  Forall (fun t => PrimFloat.is_nan (snd t) = false) ticks ->
  Forall (fun c => close_in_range c = true) s ->
  Forall (fun c => close_in_range c = true) (runTicks periodSec s ticks).
Proof.
  revert s. induction ticks as [|[now p] ticks IH]; intros s Ht Hs; [exact Hs|].
  inversion Ht as [|? ? Hp Ht']; subst.
  unfold runTicks. cbn [fold_left fst snd]. apply IH; [exact Ht'|].
  now apply tickCandles_close_in_range.
Qed.

End CloseInRange.

Lemma runTicks_close_in_range_witness :
  Forall (fun t : Z * float => PrimFloat.is_nan (snd t) = false)
    [(0%Z, 100%float); (60000%Z, 90%float)] /\
  Forall (fun c : Candle float => close_in_range c = true)
    (runTicks 60 [] [(0%Z, 100%float); (60000%Z, 90%float)]).
Proof.
  assert (Ht : Forall (fun t : Z * float => PrimFloat.is_nan (snd t) = false)
                 [(0%Z, 100%float); (60000%Z, 90%float)])
    by (repeat constructor).
  split; [exact Ht|].
  exact (runTicks_close_in_range 60 _ [] Ht (Forall_nil _)).
Defined.


(** * The settlement of trades in the TICK case *)

Lemma filter_partition_length {A : Type} (f : A -> bool) (l : list A) :
  length l = (length (filter (fun t => negb (f t)) l) + length (filter f l))%nat.
Proof.
  induction l as [|t l IH]; [reflexivity|].
  cbn [filter length]. destruct (f t); cbn [negb length]; lia.
Qed.

Section SettlementFacts.
Context {N : Type} `{JsNum N} `{JsNeg N}.
Variable exitPrice : OpenTrade.t N -> N.
Variable now : Z.

Lemma settle_trade_due (s : Settlement N) (t : OpenTrade.t N) :
  due now t = true ->
  settle_trade exitPrice now s t =
  mkSettlement
    (match credit exitPrice t with
     | Some c => (newBalance s + c)%js
     | None => newBalance s
     end)
    (remaining s) (closed s ++ [closed_record exitPrice t])
    (Some (if isWin (OpenTrade.direction t) (exitPrice t) (OpenTrade.entryPrice t)
           then WIN else LOSS,
           TradeRecord.payout (closed_record exitPrice t))).
Proof.
  unfold due, expiryTime, settle_trade, credit, closed_record. cbv zeta.
  intros ->. cbn [TradeRecord.payout].
  destruct (isWin _ _ _); reflexivity.
Qed.

Lemma settle_trade_not_due (s : Settlement N) (t : OpenTrade.t N) :
  due now t = false ->
  settle_trade exitPrice now s t =
  mkSettlement (newBalance s) (remaining s ++ [t]) (closed s) (lastResult' s).
Proof.
  unfold due, expiryTime, settle_trade. cbv zeta. now intros ->.
Qed.

Lemma settle_fold_spec (trades : list (OpenTrade.t N)) (s0 : Settlement N) :
  let s := fold_left (settle_trade exitPrice now) trades s0 in
  remaining s = remaining s0 ++ filter (fun t => negb (due now t)) trades /\
  closed s = closed s0 ++ map (closed_record exitPrice) (filter (due now) trades).
Proof.
  revert s0. induction trades as [|t trades IH]; intros s0; cbn [fold_left filter map].
  - now rewrite !app_nil_r.
  - destruct (IH (settle_trade exitPrice now s0 t)) as [IHr IHc].
    cbv zeta in *. rewrite IHr, IHc.
    destruct (due now t) eqn:Ed; cbn [negb].
    + rewrite settle_trade_due by exact Ed. cbn [remaining closed map].
      now rewrite <- app_assoc.
    + rewrite settle_trade_not_due by exact Ed. cbn [remaining closed].
      now rewrite <- app_assoc.
Qed.

Lemma settled_eq (state : AppState N) :
  settled exitPrice now state =
  map (closed_record exitPrice) (filter (due now) (openTrades state)).
Proof.
  unfold settled.
  destruct (settle_fold_spec (openTrades state)
              (mkSettlement (balance state) [] [] (lastResult state))) as [_ E].
  cbv zeta in E. rewrite E. reflexivity.
Qed.

(** X22: what the TICK case does to the trades: the trades that stay open
    are the trades that are not due, in their order; one record is pushed
    for each due trade, in their order, closed at its expiry time, which
    is not after the tick; the history is the old history followed by
    these records, cut to its last 50, so it never has more than 50
    records; and no trade is lost or settled twice. *)
Theorem settle_partition (state : AppState N) :
  let s := settle exitPrice now state in
  let news := settled exitPrice now state in
  let all := closedTrades state ++ news in
  remaining s = filter (fun t => negb (due now t)) (openTrades state) /\
  news = map (closed_record exitPrice) (filter (due now) (openTrades state)) /\
  Forall (fun r => (TradeRecord.closedAt r <= now)%Z) news /\
  closed s = skipn (length all - 50) all /\
  (length (closed s) <= 50)%nat /\
  length (openTrades state) = (length (remaining s) + length news)%nat.
Proof.
  cbv zeta. pose proof (settled_eq state) as En.
  destruct (settle_fold_spec (openTrades state)
              (mkSettlement (balance state) [] (closedTrades state)
                 (lastResult state))) as [Er Ec].
  cbv zeta in Er, Ec. cbn [remaining closed app] in Er, Ec.
  rewrite <- En in Ec.
  assert (Hs : remaining (settle exitPrice now state) =
               filter (fun t => negb (due now t)) (openTrades state) /\
               closed (settle exitPrice now state) =
               skipn (length (closedTrades state ++ settled exitPrice now state) - 50)
                 (closedTrades state ++ settled exitPrice now state)).
  { unfold settle. cbv zeta. rewrite Ec.
    destruct (50 <? length (closedTrades state ++ settled exitPrice now state))%nat eqn:E.
    - cbn [remaining closed]. split; [exact Er | reflexivity].
    - apply Nat.ltb_ge in E. split; [exact Er|]. rewrite Ec.
      replace (length (closedTrades state ++ settled exitPrice now state) - 50)%nat
        with 0%nat by lia.
      reflexivity. }
  destruct Hs as [Hr Hc].
  split; [exact Hr|]. split; [exact En|]. split; [|split; [exact Hc|split]].
  - rewrite En. apply Forall_forall. intros r Hr'.
    apply in_map_iff in Hr'. destruct Hr' as (t & <- & Ht).
    apply filter_In in Ht. destruct Ht as [_ Hd].
    unfold closed_record. cbn [TradeRecord.closedAt].
    unfold due in Hd. now apply Z.leb_le in Hd.
  - rewrite Hc, length_skipn. lia.
  - rewrite Hr, En, length_map.
    apply filter_partition_length.
Qed.

End SettlementFacts.

(** ** The balance in exact arithmetic *)

Section ExactSettlement.
Local Open Scope Q_scope.
Variable exitPrice : OpenTrade.t Q -> Q.
Variable now : Z.

Lemma settle_fold_balance (trades : list (OpenTrade.t Q)) (s0 : Settlement Q) :
  newBalance (fold_left (settle_trade exitPrice now) trades s0) ==
  newBalance s0 +
  Qsum (map (fun r => TradeRecord.amount r + TradeRecord.payout r)
          (map (closed_record exitPrice) (filter (due now) trades))).
Proof.
  revert s0. induction trades as [|t trades IH]; intros s0; cbn [fold_left filter map].
  - unfold Qsum. simpl. ring.
  - rewrite IH. destruct (due now t) eqn:Ed.
    + rewrite settle_trade_due by exact Ed. cbn [newBalance map].
      unfold Qsum. cbn [fold_right]. fold (Qsum
        (map (fun r => TradeRecord.amount r + TradeRecord.payout r)
           (map (closed_record exitPrice) (filter (due now) trades)))).
      unfold credit, closed_record.
      cbn [TradeRecord.amount TradeRecord.payout nadd nmul nneg Q_num Q_neg].
      destruct (isWin _ _ _); ring.
    + rewrite settle_trade_not_due by exact Ed. cbn [newBalance]. reflexivity.
Qed.

Lemma Qsum_nonneg (l : list Q) : Forall (fun x => 0 <= x) l -> 0 <= Qsum l.
Proof.
  induction 1 as [|x l Hx _ IH]; unfold Qsum; simpl; [lra|].
  fold (Qsum l). lra.
Qed.


End ExactSettlement.



(** * The handlers *)

Section SubtractionSign.
Local Open Scope Z_scope.

(** The converse of [SFleb_scaled_le]. *)
Lemma SFleb_scaled_le_inv (m1 : positive) (e1 : Z) (m2 : positive) (e2 : Z) :
  valid_binary (S754_finite false m1 e1) = true ->
  valid_binary (S754_finite false m2 e2) = true ->
  SFleb (S754_finite false m1 e1) (S754_finite false m2 e2) = true ->
  scaled_le (Zpos m1) e1 (Zpos m2) e2.
Proof.
  intros V1 V2. apply valid_finite in V1, V2.
  pose proof (digits2_pos_bounds m1) as [L1 U1].
  pose proof (digits2_pos_bounds m2) as [L2 U2].
  unfold SFleb, SFcompare.
  destruct (Z.compare_spec e1 e2) as [Heq|Hlt|Hgt]; intros Hle.
  - subst e2. apply (scaled_le_from e1); [lia | lia |].
    rewrite Z.sub_diag, Z.pow_0_r, !Z.mul_1_r.
    change (Pos.compare_cont Eq m1 m2) with (Pos.compare m1 m2) in Hle.
    destruct (Pos.compare_spec m1 m2) as [E|Hc|Hc]; try discriminate Hle.
    + subst. lia.
    + apply Pos2Z.pos_lt_pos in Hc. lia.
  - apply (scaled_le_from e1); [lia | lia |].
    rewrite Z.sub_diag, Z.pow_0_r, Z.mul_1_r.
    assert (Hd2 : Zpos (digits2_pos m2) = 53) by lia.
    rewrite Hd2 in L2. change (2 ^ (53 - 1)) with 4503599627370496 in L2.
    assert (Hd1 : 2 ^ Zpos (digits2_pos m1) <= 2 ^ 53)
      by (apply Z.pow_le_mono_r; lia).
    change (2 ^ 53) with 9007199254740992 in Hd1.
    assert (Hp : 2 ^ 1 <= 2 ^ (e2 - e1)) by (apply Z.pow_le_mono_r; lia).
    change (2 ^ 1) with 2 in Hp. nia.
  - discriminate Hle.
Qed.

(** Subtracting a positive number from one that is not smaller gives a
    number that is not negative. *)
Lemma SFsub_nonneg_of_le (x : spec_float) (my : positive) (ey : Z) :
  valid_binary x = true ->
  valid_binary (S754_finite false my ey) = true ->
  SFleb (S754_finite false my ey) x = true ->
  sf_nonneg (SF64sub x (S754_finite false my ey)).
Proof.
  intros Vx Vy Hle.
  destruct x as [sx|sx| |sx mx ex].
  - discriminate Hle.
  - destruct sx; [discriminate Hle | reflexivity].
  - exact I.
  - destruct sx; [discriminate Hle|].
    pose proof (SFleb_scaled_le_inv my ey mx ex Vy Vx Hle) as Hs.
    unfold SF64sub, SFsub. cbn [cond_Zopp].
    set (ez := Z.min ex ey).
    destruct (shl_align_spec mx ex ez) as [_ Ea].
    destruct (shl_align_spec my ey ez) as [_ Eb].
    replace (Z.min ex ez) with ez in Ea by lia.
    replace (Z.min ey ez) with ez in Eb by lia.
    apply sf_unsigned_nonneg, binary_normalize_unsigned.
    rewrite Ea, Eb.
    apply (scaled_le_at ez) in Hs; lia.
Qed.

Lemma sub_not_negative (x y : float) :
  PrimFloat.ltb 0%float y = true -> PrimFloat.is_finite y = true ->
  PrimFloat.leb y x = true ->
  PrimFloat.ltb (x - y)%float 0%float = false.
Proof.
  intros Hpos Hfin Hle.
  rewrite FloatAxioms.ltb_spec in *. rewrite FloatAxioms.leb_spec in Hle.
  rewrite FloatAxioms.sub_spec.
  pose proof (FloatAxioms.Prim2SF_valid x) as Vx.
  pose proof (FloatAxioms.Prim2SF_valid y) as Vy.
  destruct (is_finite_spec y Hfin) as [s [E | (m & e & E)]]; rewrite E in *.
  - destruct s; discriminate Hpos.
  - destruct s; [discriminate Hpos|].
    pose proof (SFsub_nonneg_of_le _ m e Vx Vy Hle) as Hn.
    change (Prim2SF 0%float) with (S754_zero false).
    destruct (SF64sub (Prim2SF x) (S754_finite false m e)) as [s'|s'| |s' m' e'];
      simpl in Hn; subst; reflexivity.
Qed.

End SubtractionSign.

Lemma ltb_irrefl (a : float) : PrimFloat.ltb a a = false.
Proof.
  rewrite FloatAxioms.ltb_spec. unfold SFltb.
  destruct (Prim2SF a) as [s|s| |s m e] eqn:E.
  - reflexivity.
  - now destruct s.
  - reflexivity.
  - rewrite SFcompare_refl by discriminate. reflexivity.
Qed.

Lemma eqb_not_ltb (a b : float) :
  PrimFloat.eqb a b = true ->
  PrimFloat.ltb a b = false /\ PrimFloat.ltb b a = false.
Proof.
  rewrite FloatAxioms.eqb_spec, !FloatAxioms.ltb_spec. unfold SFeqb, SFltb.
  rewrite (SFcompare_antisym (Prim2SF a) (Prim2SF b)).
  destruct (SFcompare (Prim2SF a) (Prim2SF b)) as [[| |]|]; simpl;
    intros E; try discriminate E; split; reflexivity.
Qed.

Lemma one_le_positive (a : float) :
  PrimFloat.leb 1%float a = true -> PrimFloat.ltb 0%float a = true.
Proof.
  rewrite FloatAxioms.leb_spec, FloatAxioms.ltb_spec.
  change (Prim2SF 1%float) with sf_one. change (Prim2SF 0%float) with (S754_zero false).
  destruct (Prim2SF a) as [s|s| |s m e]; simpl; intros Hle; try discriminate Hle.
  - now destruct s.
  - now destruct s.
Qed.

Lemma stake_bounds (amount balance inv : float) :
  handlePlaceTrade_stake amount balance = Some inv ->
  PrimFloat.is_finite inv = true /\
  PrimFloat.leb 1%float inv = true /\
  PrimFloat.leb inv balance = true /\
  (inv = amount \/ inv = 1%float \/ inv = balance) /\
  PrimFloat.ltb (balance - inv)%float 0%float = false.
Proof.
  unfold handlePlaceTrade_stake. cbv zeta.
  cbn [nmax nmin nisFinite nle nlt nofZ float_num].
  change (F64.of_Z 1) with 1%float. change (F64.of_Z 0) with 0%float.
  remember (F64.min amount balance) as m eqn:Em.
  remember (F64.max 1%float m) as v eqn:Ev.
  destruct (PrimFloat.is_finite v) eqn:Hfin; [|discriminate].
  destruct (PrimFloat.leb v 0%float) eqn:Hle0; [discriminate|].
  destruct (PrimFloat.ltb balance v) eqn:Hlt; [discriminate|].
  cbn [negb orb]. intros E. injection E as <-.
  pose proof (finite_not_nan v Hfin) as Hv.
  pose proof Hv as Hv'. rewrite Ev in Hv'.
  destruct (F64_max_cases 1%float m Hv') as (_ & Hm & Hvcase & H1 & _).
  rewrite <- Ev in Hvcase, H1.
  pose proof Hm as Hm'. rewrite Em in Hm'.
  destruct (F64_min_cases amount balance Hm') as (Ha & Hb & Hmcase & _ & _).
  rewrite <- Em in Hmcase.
  assert (Hvb : PrimFloat.leb v balance = true) by now apply not_ltb_leb.
  split; [exact Hfin|]. split; [exact H1|]. split; [exact Hvb|]. split.
  - destruct Hvcase as [-> | ->]; [now right; left|].
    destruct Hmcase as [-> | ->]; [now left | now right; right].
  - apply sub_not_negative; [now apply one_le_positive | exact Hfin | exact Hvb].
Qed.

(** X24: a trade that [handlePlaceTrade] dispatches, on binary64 numbers:
    it is on the active asset and opens at the time of the call; its stake
    is finite, at least 1 and at most the balance, and it is the requested
    amount, or 1, or the balance; and PLACE_TRADE then appends the trade to
    the open trades and leaves a balance that is not negative. *)
Theorem handlePlaceTrade_stake_bounds (state : AppState float)
  (activeAssetId : string) (amount : float) (expirySeconds : Z)
  (tradeId : string) (now : Z) (direction : Direction)
  (action : AppAction float) :
  handlePlaceTrade state activeAssetId amount expirySeconds tradeId now direction
    = Some action ->
  exists trade,
    action = PLACE_TRADE trade /\
    OpenTrade.assetId trade = activeAssetId /\
    OpenTrade.openTime trade = now /\
    OpenTrade.expirySeconds trade = expirySeconds /\
    PrimFloat.is_finite (OpenTrade.amount trade) = true /\
    PrimFloat.leb 1%float (OpenTrade.amount trade) = true /\
    PrimFloat.leb (OpenTrade.amount trade) (balance state) = true /\
    (OpenTrade.amount trade = amount \/ OpenTrade.amount trade = 1%float \/
     OpenTrade.amount trade = balance state) /\
    forall rand, exists state',
      appReducer rand state action = Some state' /\
      openTrades state' = openTrades state ++ [trade] /\
      PrimFloat.ltb (balance state') 0%float = false.
Proof.
  unfold handlePlaceTrade. cbv zeta.
  destruct (match find _ ASSETS with Some a => Some a | None => nth_error ASSETS 0 end)
    as [activeAsset|]; [|discriminate].
  destruct (handlePlaceTrade_stake amount (balance state)) as [inv|] eqn:Es;
    [|discriminate].
  intros E. injection E as <-.
  destruct (stake_bounds amount (balance state) inv Es) as (Hf & H1 & Hb & Hc & Hn).
  eexists. split; [reflexivity|].
  cbn [OpenTrade.assetId OpenTrade.openTime OpenTrade.expirySeconds OpenTrade.amount].
  repeat (split; [first [reflexivity | assumption]|]).
  intros rand. eexists. split; [reflexivity|].
  cbn [openTrades balance OpenTrade.amount nsub float_num].
  split; [reflexivity | exact Hn].
Qed.

Lemma handlePlaceTrade_stake_bounds_witness :
  let state := mkAppState 1000%float [] [] [] None NOT_STARTED
                 0%float 0%float 0%float [] [] in
  let trade := OpenTrade.mk "t1" "btcusd" CALL 25%float (nlit (82 # 100))
                 64000%float 0 60 in
  handlePlaceTrade state "btcusd" 25%float 60 "t1" 0 CALL
    = Some (PLACE_TRADE trade) /\
  PrimFloat.leb 1%float (OpenTrade.amount trade) = true.
Proof.
  cbv zeta.
  assert (E : handlePlaceTrade
                (mkAppState 1000%float [] [] [] None NOT_STARTED
                   0%float 0%float 0%float [] [])
                "btcusd" 25%float 60 "t1" 0 CALL
              = Some (PLACE_TRADE
                        (OpenTrade.mk "t1" "btcusd" CALL 25%float
                           (nlit (82 # 100)) 64000%float 0 60)))
    by (vm_compute; reflexivity).
  split; [exact E|].
  destruct (handlePlaceTrade_stake_bounds _ _ _ _ _ _ _ _ E)
    as (trade & Et & _ & _ & _ & _ & H1 & _).
  injection Et as <-. exact H1.
Defined.

(** X25: what [handleWithdraw] lets through, on binary64 numbers: when
    the amount and the balance are numbers, a withdrawal is dispatched
    exactly when 0 < amount <= balance, and then the balance it leaves is
    not negative when the amount is finite; but an amount that is NaN is
    not rejected, nor is any positive amount when the balance is NaN.  The
    net amount of a dispatched record is never negative. *)
Theorem handleWithdraw_guard (state : AppState float) (withdrawAmount : float)
  (coin network toAddress recordId : string) (now : Z) :
  let dispatched :=
    handleWithdraw state withdrawAmount coin network toAddress recordId now in
  (PrimFloat.is_nan withdrawAmount = false ->
   PrimFloat.is_nan (balance state) = false ->
   (dispatched <> None <->
    PrimFloat.ltb 0%float withdrawAmount = true /\
    PrimFloat.leb withdrawAmount (balance state) = true)) /\
  (PrimFloat.is_nan withdrawAmount = true -> dispatched <> None) /\
  (PrimFloat.is_nan (balance state) = true ->
   PrimFloat.ltb 0%float withdrawAmount = true -> dispatched <> None) /\
  (forall record, dispatched = Some (ADD_WITHDRAW record) ->
     WithdrawRecord.amount record = withdrawAmount /\
     PrimFloat.ltb (WithdrawRecord.netAmount record) 0%float = false /\
     (PrimFloat.is_finite withdrawAmount = true ->
      PrimFloat.is_nan (balance state) = false ->
      PrimFloat.ltb (balance state - withdrawAmount)%float 0%float = false)).
Proof.
  cbv zeta. unfold handleWithdraw. cbv zeta.
  cbn [nle nlt nofZ nmax nsub float_num].
  change (F64.of_Z 0) with 0%float.
  split; [|split; [|split]].
  - intros Hw Hb.
    assert (H0 : PrimFloat.is_nan 0%float = false) by reflexivity.
    destruct (PrimFloat.leb withdrawAmount 0%float) eqn:Hle0;
    destruct (PrimFloat.ltb (balance state) withdrawAmount) eqn:Hlt; cbn [orb].
    + split; [congruence|]. intros [Hpos _].
      apply leb_not_ltb in Hle0. congruence.
    + split; [congruence|]. intros [Hpos _].
      apply leb_not_ltb in Hle0. congruence.
    + split; [congruence|]. intros [_ Hle].
      apply leb_not_ltb in Hle. congruence.
    + split; [|discriminate]. intros _. split.
      * destruct (PrimFloat.ltb 0%float withdrawAmount) eqn:Hpos; [reflexivity|].
        apply (not_ltb_leb _ _ H0 Hw) in Hpos. congruence.
      * now apply not_ltb_leb.
  - intros Hw. apply not_false_iff_true in Hw.
    assert (Hle0 : PrimFloat.leb withdrawAmount 0%float = false).
    { destruct (PrimFloat.leb withdrawAmount 0%float) eqn:E; [|reflexivity].
      apply leb_not_nan in E. destruct E as [E _]. congruence. }
    assert (Hlt : PrimFloat.ltb (balance state) withdrawAmount = false).
    { destruct (PrimFloat.ltb (balance state) withdrawAmount) eqn:E; [|reflexivity].
      apply ltb_leb, leb_not_nan in E. destruct E as [_ E]. congruence. }
    rewrite Hle0, Hlt. discriminate.
  - intros Hb Hpos. apply not_false_iff_true in Hb.
    assert (Hle0 : PrimFloat.leb withdrawAmount 0%float = false).
    { destruct (PrimFloat.leb withdrawAmount 0%float) eqn:E; [|reflexivity].
      apply leb_not_ltb in E. congruence. }
    assert (Hlt : PrimFloat.ltb (balance state) withdrawAmount = false).
    { destruct (PrimFloat.ltb (balance state) withdrawAmount) eqn:E; [|reflexivity].
      apply ltb_leb, leb_not_nan in E. destruct E as [E _]. congruence. }
    rewrite Hle0, Hlt. discriminate.
  - intros record.
    destruct (PrimFloat.leb withdrawAmount 0%float) eqn:Hle0; [discriminate|].
    destruct (PrimFloat.ltb (balance state) withdrawAmount) eqn:Hlt; [discriminate|].
    cbn [orb]. intros E. injection E as <-.
    cbn [WithdrawRecord.amount WithdrawRecord.netAmount].
    split; [reflexivity|]. split.
    + set (x := (withdrawAmount - withdraw_fee coin)%float).
      destruct (PrimFloat.is_nan (F64.max 0%float x)) eqn:Hn.
      * destruct (PrimFloat.ltb (F64.max 0%float x) 0%float) eqn:E; [|reflexivity].
        apply ltb_leb, leb_not_nan in E. destruct E as [E _]. congruence.
      * destruct (F64_max_cases 0%float x Hn) as (_ & _ & _ & H0 & _).
        now apply leb_not_ltb.
    + intros Hfin Hb.
      pose proof (finite_not_nan _ Hfin) as Hw.
      apply sub_not_negative; [|exact Hfin | now apply not_ltb_leb].
      assert (H0 : PrimFloat.is_nan 0%float = false) by reflexivity.
      destruct (PrimFloat.ltb 0%float withdrawAmount) eqn:Hpos; [reflexivity|].
      apply (not_ltb_leb _ _ H0 Hw) in Hpos. congruence.
Qed.


(** * Ties, the statistics bar and the countdown *)

(** X26: on binary64 numbers, a due trade whose exit price equals its
    entry price is settled as a loss, whatever its direction: the balance
    is not credited and the recorded payout is minus the stake. *)
Theorem settle_tie_is_loss (exitPrice : OpenTrade.t float -> float) (now : Z)
  (s : Settlement float) (trade : OpenTrade.t float) :
  due now trade = true ->
  PrimFloat.eqb (exitPrice trade) (OpenTrade.entryPrice trade) = true ->
  let s' := settle_trade exitPrice now s trade in
  newBalance s' = newBalance s /\
  remaining s' = remaining s /\
  lastResult' s' = Some (LOSS, PrimFloat.opp (OpenTrade.amount trade)) /\
  exists r, closed s' = closed s ++ [r] /\
            TradeRecord.payout r = PrimFloat.opp (OpenTrade.amount trade).
Proof.
  intros Hdue Heq. cbv zeta. rewrite settle_trade_due by exact Hdue.
  destruct (eqb_not_ltb _ _ Heq) as [H1 H2].
  assert (Hw : isWin (OpenTrade.direction trade) (exitPrice trade)
                 (OpenTrade.entryPrice trade) = false).
  { unfold isWin. cbn [nlt float_num]. destruct (OpenTrade.direction trade); assumption. }
  unfold credit, closed_record. rewrite Hw.
  cbn [newBalance remaining lastResult' closed TradeRecord.payout nneg float_neg].
  repeat split. eexists. split; reflexivity.
Qed.

Lemma settle_tie_is_loss_witness :
  let trade := OpenTrade.mk "t1" "btcusd" CALL 25%float 0.75%float 64000%float 0 60 in
  let s := mkSettlement 975%float [] [] (Some (PENDING, 0%float)) in
  due 60000 trade = true /\
  lastResult' (settle_trade (fun _ => 64000%float) 60000 s trade) =
    Some (LOSS, (-25)%float).
Proof.
  cbv zeta. split; [reflexivity|].
  destruct (settle_tie_is_loss (fun _ => 64000%float) 60000
              (mkSettlement 975%float [] [] (Some (PENDING, 0%float)))
              (OpenTrade.mk "t1" "btcusd" CALL 25%float 0.75%float 64000%float 0 60)
              eq_refl eq_refl) as (_ & _ & E & _).
  exact E.
Defined.

Section ExactStats.
Local Open Scope Q_scope.

Lemma wins_le_length (closedTrades : list (TradeRecord.t Q)) :
  (wins closedTrades <= length closedTrades)%nat.
Proof. unfold wins. apply filter_length_le. Qed.


Lemma elapsed_seconds (now openTime total : Z) :
  inject_Z total <= inject_Z (now - openTime) / inject_Z 1000 <->
  (openTime + total * 1000 <= now)%Z.
Proof.
  assert (H1000 : 0 < inject_Z 1000) by reflexivity.
  split.
  - intros Hle.
    assert (Hm : inject_Z total * inject_Z 1000 <= inject_Z (now - openTime)).
    { apply (Qmult_le_compat_r _ _ (inject_Z 1000)) in Hle; [|lra].
      assert (E : inject_Z (now - openTime) / inject_Z 1000 * inject_Z 1000
                  == inject_Z (now - openTime)) by (field; lra).
      now rewrite E in Hle. }
    rewrite <- inject_Z_mult in Hm. rewrite <- Zle_Qle in Hm. lia.
  - intros Hle. apply Qle_shift_div_l; [exact H1000|].
    rewrite <- inject_Z_mult. rewrite <- Zle_Qle. lia.
Qed.


End ExactStats.


Section ActiveTrade.
Context {N : Type} `{JsNum N} `{JsNeg N}.

Lemma latest_fold (trades : list (OpenTrade.t N)) (a : OpenTrade.t N) :
  let r := fold_left
             (fun a b => if (OpenTrade.openTime a <? OpenTrade.openTime b)%Z
                         then b else a) trades a in
  In r (a :: trades) /\
  Forall (fun t => (OpenTrade.openTime t <= OpenTrade.openTime r)%Z) (a :: trades).
Proof.
  revert a. induction trades as [|b trades IH]; intros a; cbn [fold_left].
  - split; [now left|]. constructor; [lia | constructor].
  - destruct (Z.ltb_spec (OpenTrade.openTime a) (OpenTrade.openTime b)) as [Hlt|Hge].
    + destruct (IH b) as [Hin Hall]. cbv zeta in Hin, Hall. split.
      * right. exact Hin.
      * inversion Hall as [|? ? Hb Hrest]; subst.
        constructor; [lia|]. constructor; assumption.
    + destruct (IH a) as [Hin Hall]. cbv zeta in Hin, Hall. split.
      * destruct Hin as [<- | Hin]; [now left | right; now right].
      * inversion Hall as [|? ? Ha Hrest]; subst.
        constructor; [exact Ha|]. constructor; [lia | exact Hrest].
Qed.

(** X29: the trade shown on the chart: there is one exactly when a trade
    is open on the active asset, and it is then an open trade on that
    asset whose open time is the latest among them. *)
Theorem activeOpenTrade_latest (openTrades : list (OpenTrade.t N))
  (activeAssetId : string) :
  let on_asset t := String.eqb (OpenTrade.assetId t) activeAssetId in
  match activeOpenTrade openTrades activeAssetId with
  | None => forall t, In t openTrades -> on_asset t = false
  | Some r =>
      In r openTrades /\ on_asset r = true /\
      forall t, In t openTrades -> on_asset t = true ->
                (OpenTrade.openTime t <= OpenTrade.openTime r)%Z
  end.
Proof.
  cbv zeta. unfold activeOpenTrade.
  set (f := fun t : OpenTrade.t N => String.eqb (OpenTrade.assetId t) activeAssetId).
  destruct (filter f openTrades) as [|a trades] eqn:Ef.
  - intros t Ht. destruct (f t) eqn:E; [|exact E].
    assert (Hin : In t (filter f openTrades)) by (apply filter_In; now split).
    rewrite Ef in Hin. destruct Hin.
  - destruct (latest_fold trades a) as [Hin Hall]. cbv zeta in Hin, Hall.
    rewrite <- Ef in Hin, Hall. apply filter_In in Hin. destruct Hin as [Hin Hf].
    split; [exact Hin|]. split; [exact Hf|].
    intros t Ht Hft. rewrite Forall_forall in Hall. apply Hall.
    apply filter_In. now split.
Qed.

End ActiveTrade.


(** * The reducer on the states the application reaches *)

Section ReducerFacts.
Context {N : Type} `{JsNum N} `{JsNeg N}.

Lemma tickCandles_full (s : list (Candle N)) (periodSec : Z) (p : N) (now : Z) :
  length s = 500%nat -> length (tickCandles s periodSec p now) = 500%nat.
Proof.
  intros Hs. rewrite tickCandles_suffix. cbv zeta. rewrite length_skipn.
  destruct s as [|c l _] using rev_ind; [discriminate Hs|].
  rewrite length_app in Hs. simpl in Hs.
  destruct (Z.eq_dec (time c) (bucket_of periodSec now)) as [E|E].
  - rewrite tick_update_same by exact E. rewrite length_app. simpl. lia.
  - rewrite tick_update_new by exact E. rewrite !length_app. simpl. lia.
Qed.

Lemma tickAsset_shape (prev : LiveAssetState.t N) (id : string) (u : N) (now : Z) :
  map fst (LiveAssetState.candlesByTf prev) = TF_SECONDS ->
  tickAsset prev id u now = Some (ticked prev id u now).
Proof.
  destruct prev as [pid pr cs]. cbn [LiveAssetState.candlesByTf]. intros E.
  destruct cs as [|[k1 c1] [|[k2 c2] [|[k3 c3] [|[k4 c4] [|]]]]];
    try discriminate E.
  injection E as -> -> -> ->. reflexivity.
Qed.

Lemma tickAssets_shape (liveAssets : list (string * LiveAssetState.t N))
  (rand : nat -> N) (now : Z) :
  live_ok liveAssets ->
  exists us : list N,
    length us = length liveAssets /\
    tickAssets liveAssets rand now =
    Some (map (fun x => (fst (fst x), ticked (snd (fst x)) (fst (fst x)) (snd x) now))
            (combine liveAssets us)).
Proof.
  intros [Hk Hs].
  destruct liveAssets as [|[k1 l1] [|[k2 l2] [|[k3 l3] [|[k4 l4] [|[k5 l5] [|[k6 l6] [|]]]]]]];
    try discriminate Hk.
  cbn in Hk. injection Hk as -> -> -> -> -> ->.
  repeat match goal with
         | H : Forall _ (_ :: _) |- _ => inversion H; clear H; subst
         end.
  cbn [snd] in *.
  exists [rand 0%nat; rand 1%nat; rand 2%nat; rand 3%nat; rand 4%nat; rand 5%nat].
  split; [reflexivity|].
  unfold tickAssets, ASSETS. cbn [fold_left TradingAsset.id].
  repeat (cbn -[tickAsset ticked];
          rewrite tickAsset_shape by assumption).
  reflexivity.
Qed.

End ReducerFacts.

Section ReducerInvariants.
Context {N : Type} `{JsNum N} `{JsNeg N}.

Lemma live_ok_ticked (liveAssets : list (string * LiveAssetState.t N))
  (us : list N) (now : Z) :
  length us = length liveAssets -> live_ok liveAssets ->
  live_ok (map (fun x => (fst (fst x), ticked (snd (fst x)) (fst (fst x)) (snd x) now))
             (combine liveAssets us)).
Proof.
  intros Hlen [Hk Hs]. split.
  - rewrite <- Hk. clear Hk Hs. revert us Hlen.
    induction liveAssets as [|kv l IH]; intros [|u us] Hlen; try discriminate Hlen;
      [reflexivity|].
    cbn [combine map fst]. f_equal. apply IH. now injection Hlen.
  - clear Hk. revert us Hlen.
    induction liveAssets as [|kv l IH]; intros [|u us] Hlen; try discriminate Hlen;
      [constructor|].
    inversion Hs as [|? ? Hkv Hl]; subst.
    cbn [combine map]. constructor.
    + cbn [snd fst ticked LiveAssetState.candlesByTf]. unfold ticked.
      cbn [LiveAssetState.candlesByTf]. rewrite map_map. cbn [fst]. exact Hkv.
    + apply IH; [exact Hl | now injection Hlen].
Qed.

Lemma settle_closed_length (exitPrice : OpenTrade.t N -> N) (now : Z)
  (state : AppState N) :
  (length (closed (settle exitPrice now state)) <= 50)%nat.
Proof.
  unfold settle. cbv zeta.
  match goal with |- context [if ?b then _ else _] => destruct b eqn:E end.
  - cbn [closed]. rewrite length_skipn. lia.
  - apply Nat.ltb_ge in E. exact E.
Qed.

(** What the reducer keeps or sets of the live assets and of the
    history. *)
Lemma appReducer_fields (rand : nat -> N) (state state' : AppState N)
  (action : AppAction N) :
  live_ok (liveAssets state) ->
  appReducer rand state action = Some state' ->
  (liveAssets state' = liveAssets state /\
   closedTrades state' = closedTrades state) \/
  (exists now us,
     action = TICK now /\
     length us = length (liveAssets state) /\
     liveAssets state' =
       map (fun x => (fst (fst x), ticked (snd (fst x)) (fst (fst x)) (snd x) now))
         (combine (liveAssets state) us) /\
     (length (closedTrades state') <= 50)%nat).
Proof.
  intros Hok. destruct action; cbn [appReducer]; intros E;
    try (injection E as <-; left; split; reflexivity).
  destruct (tickAssets_shape (liveAssets state) rand now Hok) as (us & Hlen & Et).
  rewrite Et in E. injection E as <-. right. exists now, us.
  cbn [liveAssets closedTrades]. repeat split; try assumption.
  apply settle_closed_length.
Qed.

Lemma appReducer_total (rand : nat -> N) (state : AppState N)
  (action : AppAction N) :
  live_ok (liveAssets state) -> appReducer rand state action <> None.
Proof.
  intros Hok. destruct action; cbn [appReducer]; try discriminate.
  destruct (tickAssets_shape (liveAssets state) rand now Hok) as (us & _ & ->).
  discriminate.
Qed.

End ReducerInvariants.

Section InitialStateFacts.
Context {N : Type} `{JsNum N} `{JsNeg N} `{JsSqrt N}.

Lemma seedAsset_shape (asset : TradingAsset.t N) (now : nat -> Z)
  (rand : nat -> N) (a : nat) :
  exists s1 s2 s3 s4,
    seedAsset asset now rand a =
    LiveAssetState.mk (TradingAsset.id asset) (TradingAsset.basePrice asset)
      [(60%Z, s1); (300%Z, s2); (900%Z, s3); (3600%Z, s4)] /\
    Forall (fun s => length s = 500%nat /\ chained s) [s1; s2; s3; s4].
Proof.
  unfold seedAsset, TF_SECONDS. cbn [fold_left obj_set Z.eqb Pos.eqb fst].
  do 4 eexists. split; [reflexivity|].
  repeat (apply Forall_cons;
          [split; [rewrite seedCandles_length; reflexivity | apply seed_chained]|]).
  apply Forall_nil.
Qed.

Lemma createInitialState_live (now : nat -> Z) (rand : nat -> N) :
  exists l1 l2 l3 l4 l5 l6,
    liveAssets (createInitialState now rand) =
    [("btcusd"%string, l1); ("ethusd"%string, l2); ("eurusd"%string, l3);
     ("gbpusd"%string, l4); ("xauusd"%string, l5); ("spx500"%string, l6)] /\
    Forall2 (fun l asset =>
               exists a, l = seedAsset asset now rand a)
      [l1; l2; l3; l4; l5; l6] ASSETS.
Proof.
  unfold createInitialState, ASSETS. cbn [liveAssets fold_left TradingAsset.id fst].
  cbn -[seedAsset].
  do 6 eexists. split; [reflexivity|].
  repeat constructor; eexists; reflexivity.
Qed.

End InitialStateFacts.

Lemma nextPrice_keeps_positive (prev u : float) :
  PrimFloat.is_finite prev = true ->
  PrimFloat.ltb 0%float prev = true ->
  PrimFloat.is_finite (nextPrice prev u) = true /\
  PrimFloat.ltb 0%float (nextPrice prev u) = true.
Proof.
  intros Hfin Hpos. unfold nextPrice.
  set (x := (prev * (nofZ 1 + (u - nlit (5 # 10)) * nofZ 2 * nlit (8 # 10000)))%js).
  change (nisFinite x) with (PrimFloat.is_finite x).
  change (x <=? nofZ 0)%js with (PrimFloat.leb x PrimFloat.zero).
  destruct (PrimFloat.is_finite x) eqn:Hx; simpl; [|now split].
  destruct (PrimFloat.leb x PrimFloat.zero) eqn:Hle; [now split|].
  split; [exact Hx|]. now apply finite_not_le_zero_pos.
Qed.

Lemma live_inv_ticked (prev : LiveAssetState.t float) (id : string) (u : float)
  (now : Z) :
  live_inv prev -> live_inv (ticked prev id u now).
Proof.
  intros (Hfin & Hpos & Hs). unfold live_inv, ticked.
  cbn [LiveAssetState.price LiveAssetState.candlesByTf].
  destruct (nextPrice_keeps_positive _ u Hfin Hpos) as [Hf' Hp'].
  split; [exact Hf'|]. split; [exact Hp'|].
  apply Forall_map. eapply Forall_impl; [|exact Hs].
  intros [tf s] [Hlen Hch]. cbn [fst snd] in *. split.
  - now apply tickCandles_full.
  - now apply tickCandles_chained.
Qed.

Lemma live_inv_initial (now : nat -> Z) (rand : nat -> float) :
  Forall (fun kv => live_inv (snd kv)) (liveAssets (createInitialState now rand)).
Proof.
  destruct (createInitialState_live now rand)
    as (l1 & l2 & l3 & l4 & l5 & l6 & -> & Hall).
  assert (Hseed : forall (asset : TradingAsset.t float) a,
            PrimFloat.is_finite (TradingAsset.basePrice asset) = true ->
            PrimFloat.ltb 0%float (TradingAsset.basePrice asset) = true ->
            live_inv (seedAsset asset now rand a)).
  { intros asset a Hf Hp.
    destruct (seedAsset_shape asset now rand a) as (s1 & s2 & s3 & s4 & -> & Hs).
    unfold live_inv. cbn [LiveAssetState.price LiveAssetState.candlesByTf].
    split; [exact Hf|]. split; [exact Hp|].
    repeat match goal with
           | Hx : Forall _ (_ :: _) |- _ => inversion Hx; clear Hx; subst
           end.
    repeat constructor; cbn [snd]; tauto. }
  unfold ASSETS in Hall.
  repeat match goal with
         | Hx : Forall2 _ (_ :: _) (_ :: _) |- _ => inversion Hx; clear Hx; subst
         end.
  repeat match goal with
         | Hx : exists _, _ = _ |- _ => destruct Hx as [? ->]
         end.
  repeat (apply Forall_cons; [cbn [snd]; apply Hseed; reflexivity|]).
  apply Forall_nil.
Qed.

Lemma live_ok_initial (now : nat -> Z) (rand : nat -> float) :
  live_ok (liveAssets (createInitialState now rand)).
Proof.
  destruct (createInitialState_live now rand)
    as (l1 & l2 & l3 & l4 & l5 & l6 & -> & Hall).
  split; [reflexivity|].
  unfold ASSETS in Hall.
  repeat match goal with
         | Hx : Forall2 _ (_ :: _) (_ :: _) |- _ => inversion Hx; clear Hx; subst
         end.
  repeat match goal with
         | Hx : exists _, _ = _ |- _ => destruct Hx as [? ->]
         end.
  repeat (apply Forall_cons;
          [cbn [snd];
           match goal with
           | |- context [seedAsset ?asset now rand ?a] =>
               destruct (seedAsset_shape asset now rand a)
                 as (? & ? & ? & ? & -> & _)
           end; reflexivity|]).
  apply Forall_nil.
Qed.

Lemma Forall_live_inv_ticked (liveAssets : list (string * LiveAssetState.t float))
  (us : list float) (now : Z) :
  Forall (fun kv => live_inv (snd kv)) liveAssets ->
  Forall (fun kv => live_inv (snd kv))
    (map (fun x => (fst (fst x), ticked (snd (fst x)) (fst (fst x)) (snd x) now))
       (combine liveAssets us)).
Proof.
  revert us. induction liveAssets as [|kv l IH]; intros [|u us] Hl;
    try constructor.
  - inversion Hl; subst. cbn [fst snd]. now apply live_inv_ticked.
  - inversion Hl; subst. now apply IH.
Qed.

(** X30: in every state the application reaches, whatever actions were
    dispatched and whatever [Math.random()] returned: every asset has its
    live state with a series for each of the four timeframes; every price
    is finite and positive; every series has exactly 500 candles and is
    chained; the history has at most 50 records; and the reducer does not
    throw on any action. *)
Theorem app_reachable_invariant (state : AppState float) :
  app_reachable state ->
  live_ok (liveAssets state) /\
  Forall (fun kv => live_inv (snd kv)) (liveAssets state) /\
  (length (closedTrades state) <= 50)%nat /\
  forall rand action, appReducer rand state action <> None.
Proof.
  intros Hr.
  assert (Hinv : live_ok (liveAssets state) /\
                 Forall (fun kv => live_inv (snd kv)) (liveAssets state) /\
                 (length (closedTrades state) <= 50)%nat).
  { induction Hr as [now rand | state state' action rand Hr IH Hstep].
    - split; [apply live_ok_initial|]. split; [apply live_inv_initial|].
      simpl. lia.
    - destruct IH as (Hok & Hlive & Hclosed).
      destruct (appReducer_fields rand state state' action Hok Hstep)
        as [[El Ec] | (now & us & _ & Hlen & El & Hc)].
      + rewrite El, Ec. split; [exact Hok|]. split; [exact Hlive | exact Hclosed].
      + rewrite El. split; [now apply live_ok_ticked|].
        split; [now apply Forall_live_inv_ticked | exact Hc]. }
  destruct Hinv as (Hok & Hlive & Hclosed).
  split; [exact Hok|]. split; [exact Hlive|]. split; [exact Hclosed|].
  intros rand action. now apply appReducer_total.
Qed.

Lemma app_reachable_invariant_witness :
  app_reachable (createInitialState (fun _ => 0%Z) (fun _ => 0.5%float)) /\
  live_ok (liveAssets (createInitialState (fun _ => 0%Z) (fun _ => 0.5%float))).
Proof.
  assert (Hr : app_reachable (createInitialState (fun _ => 0%Z) (fun _ => 0.5%float)))
    by apply app_init.
  split; [exact Hr|].
  destruct (app_reachable_invariant _ Hr) as [Hok _]. exact Hok.
Defined.

